(** * twitter_cz: listener fan-in, deduplication and account-assignment dispatch

    A shallow embedding of the three stateful classes of the repository

      - [GroupMessageListener]  (src/listener/GroupMessageListener.js)
      - [MultiGroupListener]    (src/listener/MultiGroupListener.js)
      - [AccountAssigner]       (src/assigner/AccountAssigner.js)

    and of [TwitterMonitorSystem.initializeAccountAssigner], followed by the
    properties of the specification that concern them.

    The embedding then covers the rest of these classes and the code they
    call: the life cycle of a listener and the file of its record, the
    session that a listener polls ([PuppeteerNotificationService.getTweetLinks]
    and [RettwitAuth.getGroupNotifications]), a listener under the handlers
    that [MultiGroupListener] registers on it, the aggregator's [start],
    [stop], [addGroup] and [getGroupsByPriority], the health status of
    [TwitterMonitorSystem] and the reply that [OpenAIClient] hands to the
    dispatcher.  The definitions of all parts come first, the properties
    after them.

    Conventions.  JavaScript numbers that only ever hold integers are [Z];
    a [Date] is the number of milliseconds since the epoch, as [getTime]
    returns it.  A JS [Set] or [Map] iterates in insertion order, so a [Set]
    of strings is a list without repetition and a [Map] is an association
    list.  Every method becomes a function from the state before the call to
    the state after it, paired with the events emitted, in emission order.
    The results of the external collaborators (platform client, reply
    generator, file system) are arguments of the functions.

    [EventEmitter.emit] runs the handlers of the event before it returns,
    and throws what a handler throws.  The modules [Listener] and
    [ListenerLife] give the methods of a listener as they run when its
    handlers return; the module [Wired] gives them under arbitrary
    handlers, with the paths on which a handler throws.  The properties of
    the poll cycle, of the record and of [start] that depend on the
    handlers are stated on [Wired]. *)

From Stdlib Require Import String Ascii ZArith Lia Bool Arith PeanoNat.
From Stdlib Require Import DecimalString Permutation Sorted List.
Import ListNotations.

Local Open Scope string_scope.
Local Open Scope list_scope.

(* ================================================================= *)
(** * Shared helpers: JS arrays, sets and maps *)

Module Js.

(** [Array.prototype.slice(start)]: from index [start] to the end; a
    negative [start] counts from the end of the array. *)
Definition slice {A : Type} (start : Z) (l : list A) : list A :=
  let len := Z.of_nat (length l) in
  let k := if (start <? 0)%Z then Z.max (len + start) 0 else Z.min start len in
  skipn (Z.to_nat k) l.

(** [Set.prototype.has] *)
Definition has (s : list string) (x : string) : bool :=
  existsb (String.eqb x) s.

(** [Set.prototype.add]: a new value goes to the end, a known one changes
    nothing. *)
Definition add (s : list string) (x : string) : list string :=
  if has s x then s else s ++ [x].

(** [new Set(array)] *)
Definition set_of_array (a : list string) : list string :=
  fold_left add a [].

(** [String.prototype.includes] *)
Fixpoint includes (hay needle : string) : bool :=
  String.prefix needle hay ||
  match hay with
  | EmptyString => false
  | String _ rest => includes rest needle
  end.

(** [Map.prototype.get] *)
Fixpoint get {V : Type} (m : list (string * V)) (k : string) : option V :=
  match m with
  | [] => None
  | (k', v) :: m' => if String.eqb k' k then Some v else get m' k
  end.

(** [Map.prototype.set]: an existing key keeps its place, a new one is
    appended. *)
Fixpoint set {V : Type} (m : list (string * V)) (k : string) (v : V)
  : list (string * V) :=
  match m with
  | [] => [(k, v)]
  | (k', v') :: m' =>
      if String.eqb k' k then (k, v) :: m' else (k', v') :: set m' k v
  end.

(** [Map.prototype.delete], also [delete obj[k]] *)
Definition remove {V : Type} (m : list (string * V)) (k : string)
  : list (string * V) :=
  filter (fun kv => negb (String.eqb (fst kv) k)) m.

(** In-place mutation of the object stored under [k] (the objects of a map
    are shared by reference: mutating one is visible through the map). *)
Definition update {V : Type} (m : list (string * V)) (k : string)
  (f : V -> V) : list (string * V) :=
  map (fun kv => if String.eqb (fst kv) k then (fst kv, f (snd kv)) else kv) m.

Definition keys {V : Type} (m : list (string * V)) : list string :=
  map fst m.

End Js.

(* ================================================================= *)
(** * GroupMessageListener *)

Module Listener.

(** One extracted link, as [getGroupNotifications] returns it. *)
Record Link := mkLink {
  statusId : string;
  fullUrl : string;
  username : string;
  tweetPath : string
}.

(** The [tweetInfo] object built for a newly discovered link. *)
Record TweetInfo := mkTweetInfo {
  id : string;
  url : string;
  tw_username : string;
  tw_tweetPath : string;
  discoveredAt : Z;
  source : string
}.

Record Stats := mkStats {
  totalMessages : Z;
  tweetsFound : Z;
  lastCheck : option Z;
  errors : Z
}.

(** The fields of the listener that the poll cycle reads or writes.
    [hasAuth] stands for [this.auth] being non-null. *)
Record State := mkState {
  isListening : bool;
  hasAuth : bool;
  processedTweets : list string;
  stats : Stats
}.

(** Events of the emitter, and the snapshot handed to
    [saveProcessedTweets] (taken synchronously at the call). *)
Inductive Event :=
| NewTweetsFound (tweets : list TweetInfo)
| SaveProcessedTweets (snapshot : list string)
| MessageCheckCompleted (timestamp : Z) (linksFound : nat)
| MessageCheckError (message : string)
| AuthRecovered
| AuthFailed.

(** [constructor] *)
Definition new : State :=
  mkState false false [] (mkStats 0 0 None 0).

(** [loadProcessedTweets], the branch where the file holds an array
    [data.processed_tweets]; [cache] is
    [settings.monitoring?.max_processed_tweets_cache]. *)
Definition maxLoad (cache : option Z) : Z :=
  match cache with
  | Some n => if (n =? 0)%Z then 10000%Z else n
  | None => 10000%Z
  end.

Definition loadProcessedTweets (cache : option Z) (file : list string)
  (st : State) : State :=
  mkState (isListening st) (hasAuth st)
    (Js.set_of_array (Js.slice (- maxLoad cache) file)) (stats st).

(** The accumulator of the [for] loop of [processTweetLinks]:
    [this.processedTweets], [newTweets], [this.stats.tweetsFound] and
    [hasNewTweets]. *)
Record Scan := mkScan {
  seen : list string;
  newTweets : list TweetInfo;
  found : Z;
  hasNewTweets : bool
}.

Definition scan_link (now : Z) (acc : Scan) (link : Link) : Scan :=
  let tweetId := statusId link in
  if negb (Js.has (seen acc) tweetId) then
    mkScan (Js.add (seen acc) tweetId)
      (newTweets acc ++
         [mkTweetInfo tweetId (fullUrl link) (username link) (tweetPath link)
            now "group_message"])
      (found acc + 1)
      true
  else acc.

Definition scan_links (now : Z) (links : list Link) (st : State) : Scan :=
  fold_left (scan_link now) links
    (mkScan (processedTweets st) [] (tweetsFound (stats st)) false).

(** [processTweetLinks], as it runs when the handlers of "newTweetsFound"
    return: the event is emitted and the method goes on.  When a handler
    throws, [emit] throws and the rest of the method is skipped; that path
    is in [Wired.processTweetLinks]. *)
Definition processTweetLinks (now : Z) (tweetLinks : list Link) (st : State)
  : State * list Event :=
  let sc := scan_links now tweetLinks st in
  let found_events :=
    if (0 <? length (newTweets sc))%nat
    then [SaveProcessedTweets (seen sc); NewTweetsFound (newTweets sc)]
    else [] in
  let '(kept, trim_events) :=
    if (1000 <? length (seen sc))%nat then
      let trimmed := Js.set_of_array (Js.slice (-800) (seen sc)) in
      (trimmed, if hasNewTweets sc then [SaveProcessedTweets trimmed] else [])
    else (seen sc, []) in
  let s := stats st in
  (mkState (isListening st) (hasAuth st) kept
     (mkStats (totalMessages s) (found sc) (lastCheck s) (errors s)),
   found_events ++ trim_events).

(** What [getGroupNotifications] did in one cycle: it returned an object
    whose [tweetLinks] is an array (or is missing), or it threw; in the
    second case [reconnect] is what [auth.reconnect()] then answers
    ([None] when it throws as well). *)
Inductive Fetch :=
| Fetched (tweetLinks : option (list Link))
| FetchThrew (message : string) (reconnect : option bool).

(** [handleAuthError] *)
Definition handleAuthError (st : State) (reconnect : option bool)
  : list Event :=
  if hasAuth st then
    match reconnect with
    | Some true => [AuthRecovered]
    | Some false => [AuthFailed]
    | None => [AuthFailed]
    end
  else [].

(** [checkGroupMessages]: one poll cycle, as it runs when the handlers of
    its events return.  [Wired.checkGroupMessages] is the cycle under
    handlers that may throw, which sends the cycle to its [catch] block or
    out of the method. *)
Definition checkGroupMessages (now : Z) (fetch : Fetch) (st : State)
  : State * list Event :=
  if negb (isListening st) || negb (hasAuth st) then (st, [])
  else
    let s := stats st in
    let st1 := mkState (isListening st) (hasAuth st) (processedTweets st)
                 (mkStats (totalMessages s) (tweetsFound s) (Some now)
                    (errors s)) in
    match fetch with
    | Fetched links =>
        let s1 := stats st1 in
        let st2 := mkState (isListening st1) (hasAuth st1)
                     (processedTweets st1)
                     (mkStats (totalMessages s1 + 1) (tweetsFound s1)
                        (lastCheck s1) (errors s1)) in
        let '(st3, evs) :=
          match links with
          | Some (l :: ls) => processTweetLinks now (l :: ls) st2
          | _ => (st2, [])
          end in
        (st3,
         evs ++ [MessageCheckCompleted now
                   (match links with Some ls => length ls | None => 0%nat end)])
    | FetchThrew message reconnect =>
        let s1 := stats st1 in
        let st2 := mkState (isListening st1) (hasAuth st1)
                     (processedTweets st1)
                     (mkStats (totalMessages s1) (tweetsFound s1)
                        (lastCheck s1) (errors s1 + 1)) in
        (st2,
         MessageCheckError message ::
         (if Js.includes message "认证" || Js.includes message "401"
          then handleAuthError st2 reconnect else []))
    end.

(** The ids of the items carried by the "new tweets found" events. *)
Definition emitted_ids (evs : list Event) : list string :=
  flat_map (fun e => match e with
                     | NewTweetsFound tweets => map id tweets
                     | _ => []
                     end) evs.

Definition found_events (evs : list Event) : list (list TweetInfo) :=
  flat_map (fun e => match e with
                     | NewTweetsFound tweets => [tweets]
                     | _ => []
                     end) evs.

(** The links a cycle hands to [processTweetLinks]. *)
Definition links_of (fetch : Fetch) : list Link :=
  match fetch with
  | Fetched (Some ls) => ls
  | _ => []
  end.

(** A listener that has started: session established. *)
Definition listening (rec : list string) : State :=
  mkState true true rec (mkStats 0 0 None 0).

(** Decimal tweet ids [from], [from+1], ... ([count] of them). *)
Fixpoint id_links (from count : nat) : list Link :=
  match count with
  | O => []
  | S c =>
      let s := NilEmpty.string_of_uint (Nat.to_uint from) in
      mkLink s (String.append "https://x.com/u/status/" s) "u"
        (String.append "/u/status/" s)
      :: id_links (S from) c
  end.

(** ** Vocabulary of the properties, and scenarios *)

(** What the loop of [processTweetLinks] adds to its accumulator. *)
Record ScanResult (links : list Link) (acc acc' : Scan) (added : list TweetInfo)
  : Prop := {
  sr_new : newTweets acc' = newTweets acc ++ added;
  sr_seen : seen acc' = seen acc ++ map id added;
  sr_nodup : NoDup (map id added);
  sr_sound : forall x, In x (map id added) ->
               In x (map statusId links) /\ ~ In x (seen acc);
  sr_complete : forall x, In x (map statusId links) ->
                  In x (seen acc ++ map id added);
  sr_flag : hasNewTweets acc' = hasNewTweets acc || (0 <? length added)%nat;
  sr_count : (length added <= length links)%nat
}.

(** The record a batch leaves behind: everything seen so far, cut to its
    last 800 ids once it holds more than 1000. *)
Definition trimmed (full : list string) : list string :=
  if (1000 <? length full)%nat then Js.slice (-800) full else full.

(** The guard of [checkGroupMessages]: the listener runs and has a
    session. *)
Definition live (st : State) : bool := isListening st && hasAuth st.

(** Scenario A of the specification: ids 1001 and 1002, then 1001 and 1003. *)
Definition scenario_a : list (Z * Fetch) :=
  [ (0%Z, Fetched (Some (id_links 1001 2)));
    (60000%Z, Fetched (Some [mkLink "1001" "" "u" ""; mkLink "1003" "" "u" ""])) ].

(** [n] poll cycles one minute apart, each bringing the next 50 new ids. *)
Fixpoint fresh_cycles (from : nat) (now : Z) (n : nat) : list (Z * Fetch) :=
  match n with
  | O => []
  | S n' =>
      (now, Fetched (Some (id_links from 50)))
      :: fresh_cycles (from + 50) (now + 60000) n'
  end.

(** Twenty-one cycles bring the ids "1" to "1050"; the next cycle brings
    "1" again. *)
Definition overflow_cycles : list (Z * Fetch) :=
  fresh_cycles 1 0 21 ++ [ (1260000%Z, Fetched (Some (id_links 1 1))) ].

End Listener.

(* ================================================================= *)
(** * AccountAssigner *)

Module Assigner.

Inductive Status := Active | Errored.   (* "active" | "error" *)

Definition status_eqb (a b : Status) : bool :=
  match a, b with
  | Active, Active | Errored, Errored => true
  | _, _ => false
  end.

(** An entry of [this.activeAccounts].  The [auth] and [config] fields hold
    the session and the configuration of the account; no decision of the
    dispatcher reads them. *)
Record Account := mkAccount {
  status : Status;
  lastUsed : option Z;
  tasksAssigned : Z;
  repliesSent : Z;
  errors : Z;
  workload : Z
}.

(** An entry of [this.stats.accountStats]. *)
Record AccountStat := mkAccountStat {
  s_tasksAssigned : Z;
  s_repliesSent : Z;
  s_errors : Z;
  s_status : Status
}.

Record Stats := mkStats {
  totalAssignments : Z;
  totalRepliesSent : Z;
  totalErrors : Z;
  accountStats : list (string * AccountStat)
}.

(** A discovered tweet as the dispatcher reads it: its [id], and the
    [account_id] that [shouldProcessTweet] compares with the author. *)
Record Tweet := mkTweet {
  tweet_id : string;
  account_id : option string
}.

Record Task := mkTask {
  tweetInfo : Tweet;
  accountId : string;
  createdAt : Z;
  retryCount : Z
}.

(** The parts of [settings] that the dispatcher reads. *)
Record Settings := mkSettings {
  retry_attempts : option Z;          (* monitoring?.retry_attempts *)
  ignore_own_tweets : bool;           (* notifications?.ignore_own_tweets *)
  min_tweet_age_seconds : option Z    (* notifications?.min_tweet_age_seconds *)
}.

Definition defaults : Settings := mkSettings None false None.

(** [x || d] on a number that may be missing: [undefined] and [0] are
    falsy. *)
Definition or_default (x : option Z) (d : Z) : Z :=
  match x with
  | Some n => if (n =? 0)%Z then d else n
  | None => d
  end.

(** [inflight] is the task whose [processTask] call is suspended at one of
    its awaits (the loop of [processTaskQueue] runs one task at a time). *)
Record State := mkState {
  activeAccounts : list (string * Account);
  taskQueue : list Task;
  processingQueue : bool;
  inflight : option Task;
  stats : Stats
}.

Inductive Event :=
| AccountsInitialized (activeCount : nat)
| ReplySuccess (accountId tweetId reply replyId : string)
| TaskFailed (task : Task) (error : string)
| AccountError (accountId : string) (errors : Z).

(** [constructor] *)
Definition new : State :=
  mkState [] [] false None (mkStats 0 0 0 []).

(** ** Field updates *)

Definition with_accounts (st : State) (m : list (string * Account)) : State :=
  mkState m (taskQueue st) (processingQueue st) (inflight st) (stats st).

Definition with_queue (st : State) (q : list Task) : State :=
  mkState (activeAccounts st) q (processingQueue st) (inflight st) (stats st).

Definition with_processing (st : State) (b : bool) : State :=
  mkState (activeAccounts st) (taskQueue st) b (inflight st) (stats st).

Definition with_inflight (st : State) (t : option Task) : State :=
  mkState (activeAccounts st) (taskQueue st) (processingQueue st) t (stats st).

Definition with_stats (st : State) (s : Stats) : State :=
  mkState (activeAccounts st) (taskQueue st) (processingQueue st)
    (inflight st) s.

(** Mutation of the account object stored under [k]. *)
Definition on_account (k : string) (f : Account -> Account) (st : State)
  : State :=
  with_accounts st (Js.update (activeAccounts st) k f).

(** Mutation of [this.stats.accountStats[k]].  The entry exists for every
    account of the pool in all the states that an initialized dispatcher
    reaches (see [covered]), so that the access does not throw there; the
    one access that can meet a missing entry is treated in
    [processTask_resume]. *)
Definition on_stat (k : string) (f : AccountStat -> AccountStat) (st : State)
  : State :=
  let s := stats st in
  with_stats st
    (mkStats (totalAssignments s) (totalRepliesSent s) (totalErrors s)
       (Js.update (accountStats s) k f)).

Definition set_workload (w : Z) (a : Account) : Account :=
  mkAccount (status a) (lastUsed a) (tasksAssigned a) (repliesSent a)
    (errors a) w.

Definition set_status (s : Status) (a : Account) : Account :=
  mkAccount s (lastUsed a) (tasksAssigned a) (repliesSent a) (errors a)
    (workload a).

Definition set_lastUsed (t : Z) (a : Account) : Account :=
  mkAccount (status a) (Some t) (tasksAssigned a) (repliesSent a) (errors a)
    (workload a).

Definition set_errors (e : Z) (a : Account) : Account :=
  mkAccount (status a) (lastUsed a) (tasksAssigned a) (repliesSent a) e
    (workload a).

Definition set_tasksAssigned (n : Z) (a : Account) : Account :=
  mkAccount (status a) (lastUsed a) n (repliesSent a) (errors a) (workload a).

Definition set_repliesSent (n : Z) (a : Account) : Account :=
  mkAccount (status a) (lastUsed a) (tasksAssigned a) n (errors a)
    (workload a).

(** ** [initialize] *)

(** How the session of one configured account ended: [auth.initialize()]
    answered [true], answered [false], or threw. *)
Inductive Session := SessionOk | SessionRefused | SessionThrew.

Definition fresh_account : Account := mkAccount Active None 0 0 0 0.
Definition fresh_stat : AccountStat := mkAccountStat 0 0 0 Active.

(** The callback of [initialize] for one account, run when its session
    settles. *)
Definition init_account (st : State) (r : string * Session) : State :=
  match snd r with
  | SessionOk =>
      let s := stats st in
      mkState (Js.set (activeAccounts st) (fst r) fresh_account)
        (taskQueue st) (processingQueue st) (inflight st)
        (mkStats (totalAssignments s) (totalRepliesSent s) (totalErrors s)
           (Js.set (accountStats s) (fst r) fresh_stat))
  | SessionRefused | SessionThrew => st
  end.

(** [initialize]: the sessions are established concurrently; [sessions]
    lists the ids of [this.commentAccounts] with the way each session ended,
    in the order in which the sessions settle. *)
Definition initialize (sessions : list (string * Session)) (st : State)
  : State * list Event :=
  let st' := fold_left init_account sessions st in
  (st', [AccountsInitialized (length (activeAccounts st'))]).

(** ** [selectBestAccount] *)

Definition lastUsedTime (a : Account) : Z :=
  match lastUsed a with
  | Some t => t
  | None => 0
  end.

(** The comparator handed to [sort]. *)
Definition compareAccounts (a b : string * Account) : Z :=
  if negb (workload (snd a) =? workload (snd b))%Z
  then (workload (snd a) - workload (snd b))%Z
  else (lastUsedTime (snd a) - lastUsedTime (snd b))%Z.

(** [Array.prototype.sort] is stable: elements that compare equal keep
    their order. *)
Fixpoint insert_sorted {A : Type} (cmp : A -> A -> Z) (x : A) (l : list A)
  : list A :=
  match l with
  | [] => [x]
  | y :: l' =>
      if (cmp x y <=? 0)%Z then x :: l else y :: insert_sorted cmp x l'
  end.

Fixpoint sort {A : Type} (cmp : A -> A -> Z) (l : list A) : list A :=
  match l with
  | [] => []
  | x :: l' => insert_sorted cmp x (sort cmp l')
  end.

Definition availableAccounts (st : State) : list (string * Account) :=
  filter (fun e => status_eqb (status (snd e)) Active) (activeAccounts st).

Definition selectBestAccount (st : State) : option (string * Account) :=
  hd_error (sort compareAccounts (availableAccounts st)).

(** ** [decreaseWorkload] *)

Definition decreaseWorkload (k : string) (st : State) : State :=
  on_account k
    (fun a => if (0 <? workload a)%Z then set_workload (workload a - 1) a
              else a)
    st.

(** ** [handleTaskError] *)

Definition maxRetries (cfg : Settings) : Z := or_default (retry_attempts cfg) 3.

Definition set_retryCount (n : Z) (t : Task) : Task :=
  mkTask (tweetInfo t) (accountId t) (createdAt t) n.

Definition set_accountId (k : string) (t : Task) : Task :=
  mkTask (tweetInfo t) k (createdAt t) (retryCount t).

Definition bump_totalErrors (st : State) : State :=
  let s := stats st in
  with_stats st
    (mkStats (totalAssignments s) (totalRepliesSent s) (totalErrors s + 1)
       (accountStats s)).

Definition handleTaskError (cfg : Settings) (task : Task)
  (errorMessage : string) (st : State) : State * list Event :=
  let k := accountId task in
  let known := Js.get (activeAccounts st) k in
  (* if (account) { errors++, accountStats errors++, decreaseWorkload } *)
  let st1 :=
    match known with
    | Some _ =>
        decreaseWorkload k
          (on_stat k (fun s => mkAccountStat (s_tasksAssigned s)
                                 (s_repliesSent s) (s_errors s + 1)
                                 (s_status s))
             (on_account k (fun a => set_errors (errors a + 1) a) st))
    | None => st
    end in
  let st2 := bump_totalErrors st1 in
  (* task.retryCount++ *)
  let task1 := set_retryCount (retryCount task + 1) task in
  let '(st3, evs) :=
    if (retryCount task1 <? maxRetries cfg)%Z then
      match selectBestAccount st2 with
      | Some (k', _) =>
          if negb (String.eqb k' k) then
            let task2 := set_accountId k' task1 in
            (with_queue
               (on_account k' (fun a => set_workload (workload a + 1) a) st2)
               (taskQueue st2 ++ [task2]),
             [])
          else (st2, [])
      | None => (st2, [])
      end
    else (st2, [TaskFailed task1 errorMessage]) in
  (* if (account && account.errors >= 5) *)
  match Js.get (activeAccounts st3) k with
  | Some a =>
      if (5 <=? errors a)%Z then
        (on_stat k (fun s => mkAccountStat (s_tasksAssigned s)
                               (s_repliesSent s) (s_errors s) Errored)
           (on_account k (set_status Errored) st3),
         evs ++ [AccountError k (errors a)])
      else (st3, evs)
  | None => (st3, evs)
  end.

(** ** [assignTweets] and the queue *)

(** The body of the [for] loop of [assignTweets] for one tweet. *)
Definition assign_one (now : Z) (st : State) (tweet : Tweet) : State :=
  match selectBestAccount st with
  | Some (k, _) =>
      let task := mkTask tweet k now 0 in
      let s := stats st in
      let st1 :=
        mkState (activeAccounts st) (taskQueue st ++ [task])
          (processingQueue st) (inflight st)
          (mkStats (totalAssignments s + 1) (totalRepliesSent s)
             (totalErrors s) (accountStats s)) in
      on_stat k (fun s => mkAccountStat (s_tasksAssigned s + 1)
                            (s_repliesSent s) (s_errors s) (s_status s))
        (on_account k
           (fun a => set_workload (workload a + 1)
                       (set_tasksAssigned (tasksAssigned a + 1) a))
           st1)
  | None => st
  end.

(** [processTask] up to its first await: the task is dropped when its
    account is unknown or not active, otherwise the call is suspended on
    [getTweetDetails]. *)
Definition processTask_begin (task : Task) (st : State) : State :=
  match Js.get (activeAccounts st) (accountId task) with
  | Some a =>
      if status_eqb (status a) Active then with_inflight st (Some task)
      else st
  | None => st
  end.

(** The test of the [while] loop of [processTaskQueue] and, when the queue
    is not empty, [shift] and the beginning of [processTask]. *)
Definition loop_head (st : State) : State :=
  match taskQueue st with
  | [] => with_processing st false
  | task :: rest => processTask_begin task (with_queue st rest)
  end.

(** [processTaskQueue], up to its first suspension. *)
Definition processTaskQueue (st : State) : State :=
  if processingQueue st || (length (taskQueue st) =? 0)%nat then st
  else loop_head (with_processing st true).

Definition assignTweets (now : Z) (tweets : list Tweet) (st : State) : State :=
  processTaskQueue (fold_left (assign_one now) tweets st).

(** ** [processTask] *)

(** What [getTweetDetails] returned, as far as [shouldProcessTweet] reads
    it; [created_at] is [None] when the date does not parse. *)
Record TweetDetails := mkTweetDetails {
  author_id : option string;
  created_at : option Z
}.

Definition option_string_eqb (a b : option string) : bool :=
  match a, b with
  | Some x, Some y => String.eqb x y
  | None, None => true
  | _, _ => false
  end.

(** [shouldProcessTweet]; [clock] is [Date.now()].  The age in seconds,
    [(clock - created) / 1000], is below [minAge] exactly when
    [clock - created] is below [1000 * minAge]. *)
Definition shouldProcessTweet (cfg : Settings) (clock : Z) (tweetInfo : Tweet)
  (tweetDetails : TweetDetails) : bool :=
  if ignore_own_tweets cfg &&
     option_string_eqb (author_id tweetDetails) (account_id tweetInfo)
  then false
  else
    let minAge := or_default (min_tweet_age_seconds cfg) 60 in
    match created_at tweetDetails with
    | Some created =>
        if (clock - created <? 1000 * minAge)%Z then false else true
    | None => true
    end.

(** How the awaited calls of one [processTask] ended. *)
Inductive Post :=
| PostThrew (message : string)
| PostEmpty                          (* postTweet answered a falsy value *)
| Posted (replyId : string).

Inductive Reply :=
| GenerateThrew (message : string)
| GenerateFailed (error : string)    (* aiResponse.success is false *)
| Generated (reply : string) (post : Post).

Inductive Outcome :=
| DetailsThrew (message : string)    (* thrown before any reply is asked *)
| Details (clock : Z) (tweetDetails : TweetDetails) (reply : Reply).

(** The two statements that end the [try] block of [processTask]:
    [account.lastUsed = now] and [decreaseWorkload(accountId)]. *)
Definition finish_task (now : Z) (k : string) (st : State) : State :=
  decreaseWorkload k (on_account k (set_lastUsed now) st).

(** [processTask] from the point where its awaits settle; [now] is the time
    at which the task ends. *)
Definition processTask_resume (cfg : Settings) (now : Z) (o : Outcome)
  (task : Task) (st : State) : State * list Event :=
  let k := accountId task in
  match o with
  | DetailsThrew message => handleTaskError cfg task message st
  | Details clock tweetDetails reply =>
      if negb (shouldProcessTweet cfg clock (tweetInfo task) tweetDetails)
      then (decreaseWorkload k st, [])
      else
        match reply with
        | GenerateThrew message => handleTaskError cfg task message st
        | GenerateFailed error =>
            let '(st1, evs) := handleTaskError cfg task error st in
            (finish_task now k st1, evs)
        | Generated reply post =>
            match post with
            | PostThrew message => handleTaskError cfg task message st
            | PostEmpty => (finish_task now k st, [])
            | Posted replyId =>
                let s := stats st in
                let st1 :=
                  on_account k
                    (fun a => set_repliesSent (repliesSent a + 1) a)
                    (with_stats st
                       (mkStats (totalAssignments s) (totalRepliesSent s + 1)
                          (totalErrors s) (accountStats s))) in
                (* this.stats.accountStats[accountId].repliesSent++ throws
                   when the entry is missing, which [cleanup] followed by
                   [resetStats] can cause while the task is in flight *)
                match Js.get (accountStats (stats st1)) k with
                | Some _ =>
                    let st2 :=
                      on_stat k
                        (fun s => mkAccountStat (s_tasksAssigned s)
                                    (s_repliesSent s + 1) (s_errors s)
                                    (s_status s))
                        st1 in
                    (finish_task now k st2,
                     [ReplySuccess k (tweet_id (tweetInfo task)) reply
                        replyId])
                | None =>
                    handleTaskError cfg task
                      "Cannot read properties of undefined (reading 'repliesSent')"
                      st1
                end
            end
        end
  end.

(** ** [resetStats] and [cleanup] *)

Definition resetStats (st : State) : State :=
  mkState
    (map (fun e => (fst e,
                    set_errors 0
                      (set_repliesSent 0 (set_tasksAssigned 0 (snd e)))))
       (activeAccounts st))
    (taskQueue st) (processingQueue st) (inflight st)
    (mkStats 0 0 0
       (map (fun e => (fst e, mkAccountStat 0 0 0 (status (snd e))))
          (activeAccounts st))).

Definition cleanup (st : State) : State :=
  mkState [] [] false (inflight st) (stats st).

(** ** The dispatcher as a transition system

    Between two suspension points the code runs without interruption, so
    the behaviours of the dispatcher are the sequences of these steps. *)
Inductive Op :=
| Assign (now : Z) (tweets : list Tweet)   (* assignTweets(tweets) *)
| Settle (now : Z) (o : Outcome)           (* the task in flight ends *)
| Paced                                    (* the pacing delay has elapsed *)
| ResetStats
| Cleanup.

Definition step (cfg : Settings) (op : Op) (st : State)
  : State * list Event :=
  match op with
  | Assign now tweets => (assignTweets now tweets st, [])
  | Settle now o =>
      match inflight st with
      | Some task => processTask_resume cfg now o task (with_inflight st None)
      | None => (st, [])
      end
  | Paced =>
      match inflight st with
      | None => if processingQueue st then (loop_head st, []) else (st, [])
      | Some _ => (st, [])
      end
  | ResetStats => (resetStats st, [])
  | Cleanup => (cleanup st, [])
  end.

Fixpoint run (cfg : Settings) (ops : list Op) (st : State)
  : State * list Event :=
  match ops with
  | [] => (st, [])
  | op :: rest =>
      let '(st1, evs1) := step cfg op st in
      let '(st2, evs2) := run cfg rest st1 in
      (st2, evs1 ++ evs2)
  end.

(** The tasks in flight at the [Settle] steps of a run: the processing
    attempts, in order. *)
Fixpoint attempts (cfg : Settings) (ops : list Op) (st : State) : list Task :=
  match ops with
  | [] => []
  | op :: rest =>
      match op, inflight st with
      | Settle _ _, Some task => [task]
      | _, _ => []
      end ++ attempts cfg rest (fst (step cfg op st))
  end.

(** The dispatcher once [initialize] has run on a new instance. *)
Definition initialized (sessions : list (string * Session)) : State :=
  fst (initialize sessions new).

(** The tasks assigned to account [k] that have not ended: those waiting in
    the queue and the one in flight. *)
Definition assigned_to (k : string) (t : Task) : bool :=
  String.eqb (accountId t) k.

Definition outstanding (k : string) (st : State) : Z :=
  Z.of_nat (length (filter (assigned_to k) (taskQueue st)))
  + match inflight st with
    | Some t => if assigned_to k t then 1 else 0
    | None => 0
    end.

Definition failed_tasks (evs : list Event) : list Task :=
  flat_map (fun e => match e with
                     | TaskFailed t _ => [t]
                     | _ => []
                     end) evs.

(** ** Vocabulary of the properties, and scenarios *)

Local Open Scope Z_scope.

(** The elementary changes that the methods of the dispatcher make to an
    account object. *)
Inductive touch : Account -> Account -> Prop :=
| touch_refl a : touch a a
| touch_trans a b c : touch a b -> touch b c -> touch a c
| touch_workload_up a : touch a (set_workload (workload a + 1) a)
| touch_workload_down a :
    0 < workload a -> touch a (set_workload (workload a - 1) a)
| touch_status a : touch a (set_status Errored a)
| touch_errors a e : touch a (set_errors e a)
| touch_lastUsed a t : touch a (set_lastUsed t a)
| touch_tasksAssigned a n : touch a (set_tasksAssigned n a)
| touch_repliesSent a n : touch a (set_repliesSent n a).

(** Two entries under the same id, the second a touched version of the
    first. *)
Definition same_slot (e e' : string * Account) : Prop :=
  fst e = fst e' /\ touch (snd e) (snd e').

(** [evolves m m']: the pool [m'] is the pool [m] with some accounts
    touched, or it has been emptied. *)
Definition evolves (m m' : list (string * Account)) : Prop :=
  m' = [] \/ Forall2 same_slot m m'.

(** The ids that have an entry in [this.stats.accountStats]. *)
Definition stat_keys (st : State) : list string :=
  Js.keys (accountStats (stats st)).

(** Every account of the pool has its entry in the statistics. *)
Definition covered (st : State) : Prop :=
  incl (Js.keys (activeAccounts st)) (stat_keys st).

(** A task that has failed fewer than [maxRetries] times. *)
Definition task_ok (cfg : Settings) (t : Task) : Prop :=
  0 <= retryCount t < maxRetries cfg.

(** All tasks that wait or are in flight are within their budget. *)
Definition queue_ok (cfg : Settings) (st : State) : Prop :=
  Forall (task_ok cfg) (taskQueue st) /\
  forall t, inflight st = Some t -> task_ok cfg t.

(** Every task reported by a "taskFailed" event has used up its budget. *)
Definition failures_ok (cfg : Settings) (evs : list Event) : Prop :=
  Forall (fun t => retryCount t = maxRetries cfg) (failed_tasks evs).

(** [earlier_or_never a b]: a last use [a] sorts no later than [b], an
    account that was never used sorting before any used one. *)
Definition earlier_or_never (a b : option Z) : Prop :=
  match a, b with
  | None, _ => True
  | Some _, None => False
  | Some x, Some y => x <= y
  end.

(** Every recorded last use is a time after the epoch. *)
Definition stamped (st : State) : Prop :=
  Forall (fun e => forall t, lastUsed (snd e) = Some t -> 0 < t)
    (activeAccounts st).

(** A pool of active accounts with the given workloads and last uses. *)
Definition pool (l : list (string * Z * option Z)) : State :=
  mkState
    (map (fun e => (fst (fst e), mkAccount Active (snd e) 0 0 0 (snd (fst e))))
       l)
    [] false None (mkStats 0 0 0 []).

(** A pool in which account "a" has four errors and one outstanding task,
    and account "b" two outstanding tasks. *)
Definition worn : State :=
  mkState
    [("a", mkAccount Active None 1 0 4 1);
     ("b", mkAccount Active None 2 0 0 2)]
    [] true None
    (mkStats 3 0 4
       [("a", mkAccountStat 1 0 4 Active); ("b", mkAccountStat 2 0 0 Active)]).

(** A task for [tweet] held by account [k] after [retries] failures. *)
Definition task_on (k : string) (tweet : string) (retries : Z) : Task :=
  mkTask (mkTweet tweet None) k 0 retries.

(** A discovered tweet; the listeners do not set [account_id]. *)
Definition tweet (s : string) : Tweet := mkTweet s None.

(** Two accounts whose sessions were both established. *)
Definition two_accounts : State :=
  initialized [("A", SessionOk); ("B", SessionOk)].

(** Details of a tweet that is too new to be answered at the times of the
    scenarios, and of one that is old enough. *)
Definition too_new : TweetDetails := mkTweetDetails (Some "x") (Some 1000000).

Definition old_enough : TweetDetails := mkTweetDetails (Some "x") (Some 0).

(** Four tweets arrive; every attempt on tweet "T" throws, the other tweets
    are skipped or answered.  With the default settings [maxRetries] is 3. *)
Definition always_failing : list Op :=
  [ Assign 1000000 [tweet "S"; tweet "T"; tweet "U"; tweet "V"];
    Settle 1000001 (Details 1000001 too_new (GenerateThrew ""));   (* S on A *)
    Paced;
    Settle 1000002 (DetailsThrew "boom");                          (* T on B *)
    Paced;
    Settle 1000003 (Details 1000003 old_enough
                      (Generated "hi" (Posted "r1")));             (* U on A *)
    Paced;
    Settle 1000004 (Details 1000004 too_new (GenerateThrew ""));   (* V on B *)
    Paced;
    Settle 1000005 (DetailsThrew "boom");                          (* T on A *)
    Paced;
    Settle 1000006 (DetailsThrew "boom");                          (* T on B *)
    Paced ].

(** Six tweets for a single account; the first five attempts throw, which
    puts the account in the error status before the sixth task is taken
    from the queue. *)
Definition five_failures : list Op :=
  [ Assign 5 [tweet "t1"; tweet "t2"; tweet "t3"; tweet "t4"; tweet "t5";
              tweet "t6"];
    Settle 10 (DetailsThrew "boom"); Paced;
    Settle 20 (DetailsThrew "boom"); Paced;
    Settle 30 (DetailsThrew "boom"); Paced;
    Settle 40 (DetailsThrew "boom"); Paced;
    Settle 50 (DetailsThrew "boom"); Paced ].

(** The attempts made on the tweet with id [s]. *)
Definition attempts_on (s : string) (l : list Task) : list Task :=
  filter (fun t => String.eqb (tweet_id (tweetInfo t)) s) l.

End Assigner.

(* ================================================================= *)
(** * TwitterMonitorSystem.initializeAccountAssigner *)

Module Facade.

(** An entry of [accountsConfig.accounts]. *)
Record AccountConfig := mkAccountConfig {
  cfg_id : string;
  enabled : bool
}.

Inductive Result (A : Type) :=
| Ok (value : A)
| Throws (message : string).
Arguments Ok {A} value.
Arguments Throws {A} message.

(** [initializeAccountAssigner]; [sessions] lists the configured accounts
    with the way the session of each ends, in the order in which the
    sessions settle. *)
Definition initializeAccountAssigner
  (sessions : list (AccountConfig * Assigner.Session))
  : Result (Assigner.State * list Assigner.Event) :=
  let commentAccounts := filter (fun c => enabled (fst c)) sessions in
  if (length commentAccounts =? 0)%nat then Throws "没有可用的评论账号"
  else
    Ok (Assigner.initialize
          (map (fun c => (cfg_id (fst c), snd c)) commentAccounts)
          Assigner.new).

End Facade.

(* ================================================================= *)
(** * MultiGroupListener: the registry of group listeners *)

Module Multi.

Record GroupConfig := mkGroupConfig {
  id : string;
  groupName : option string;
  priority : option Z;
  enabled : bool
}.

Inductive GroupStatus := GActive | GFailed | GAuthFailed | GStopped.

(** An entry of [this.groupListeners]; [listening] is the [isListening]
    flag of the [GroupMessageListener] it holds. *)
Record GroupData := mkGroupData {
  listening : bool;
  config : GroupConfig;
  status : GroupStatus;
  startTime : Z
}.

(** An entry of [this.stats.groupStats]. *)
Record GroupStat := mkGroupStat {
  gs_groupName : string;
  gs_tweetsFound : Z;
  gs_errors : Z;
  gs_lastCheck : option Z;
  gs_status : GroupStatus;
  gs_priority : Z;
  gs_error : option string
}.

Record Stats := mkStats {
  totalGroups : Z;
  activeGroups : Z;
  totalTweetsFound : Z;
  totalErrors : Z;
  groupStats : list (string * GroupStat);
  statsStartTime : option Z
}.

Record State := mkState {
  groupConfigs : list GroupConfig;
  groupListeners : list (string * GroupData);
  isRunning : bool;
  stats : Stats
}.

Inductive Event :=
| GroupInitError (groupId : string) (groupName : option string)
    (error : string)
| GroupStopped (groupId groupName : string)
| GroupRestarted (groupId : string)
| GroupRestartError (groupId error : string)
| GroupRemoved (groupId : string).

(** How a call ends: it returns, or it throws (the promise of an [async]
    method is rejected). *)
Inductive Completion := Returned | Threw (message : string).

(** [constructor] *)
Definition new (groupConfigs : list GroupConfig) : State :=
  mkState groupConfigs [] false (mkStats 0 0 0 0 [] None).

(** [groupConfig.groupName || groupId] *)
Definition display_name (c : GroupConfig) : string :=
  match groupName c with
  | Some n => if String.eqb n "" then id c else n
  | None => id c
  end.

(** [groupConfig.priority || 999] *)
Definition display_priority (c : GroupConfig) : Z :=
  match priority c with
  | Some p => if (p =? 0)%Z then 999 else p
  | None => 999
  end.

Definition with_groupStats (s : Stats) (g : list (string * GroupStat))
  : Stats :=
  mkStats (totalGroups s) (activeGroups s) (totalTweetsFound s)
    (totalErrors s) g (statsStartTime s).

(** How [GroupMessageListener.start] ended for a new listener. *)
Inductive Start := Started | StartFailed (message : string).

(** How the cleanup inside [GroupMessageListener.stop] ended; when it
    throws, [stop] reports "listenerError" and no "listenerStopped". *)
Inductive Stop := Stopped | StopFailed.

(** [initializeGroupListener] *)
Definition initializeGroupListener (c : GroupConfig) (start : Start)
  (now : Z) (st : State) : State * list Event :=
  match start with
  | Started =>
      (mkState (groupConfigs st)
         (Js.set (groupListeners st) (id c) (mkGroupData true c GActive now))
         (isRunning st)
         (with_groupStats (stats st)
            (Js.set (groupStats (stats st)) (id c)
               (mkGroupStat (display_name c) 0 0 None GActive
                  (display_priority c) None))),
       [])
  | StartFailed message =>
      (mkState (groupConfigs st) (groupListeners st) (isRunning st)
         (with_groupStats (stats st)
            (Js.set (groupStats (stats st)) (id c)
               (mkGroupStat (display_name c) 0 1 None GFailed
                  (display_priority c) (Some message)))),
       [GroupInitError (id c) (groupName c) message])
  end.

(** [groupData.listener.stop()], with the handler that the aggregator
    registered for "listenerStopped" (the statistics entry of a registered
    group exists: [initializeGroupListener] writes both). *)
Definition stop_listener (groupId : string) (g : GroupData) (stop : Stop)
  (st : State) : State * list Event :=
  if listening g then
    let st1 :=
      mkState (groupConfigs st)
        (Js.update (groupListeners st) groupId
           (fun d => mkGroupData false (config d) (status d) (startTime d)))
        (isRunning st) (stats st) in
    match stop with
    | Stopped =>
        (mkState (groupConfigs st1) (groupListeners st1) (isRunning st1)
           (with_groupStats (stats st1)
              (Js.update (groupStats (stats st1)) (id (config g))
                 (fun s => mkGroupStat (gs_groupName s) (gs_tweetsFound s)
                             (gs_errors s) (gs_lastCheck s) GStopped
                             (gs_priority s) (gs_error s)))),
         [GroupStopped (id (config g)) (display_name (config g))])
    | StopFailed => (st1, [])
    end
  else (st, []).

(** [restartGroup] *)
Definition restartGroup (groupId : string) (stop : Stop) (start : Start)
  (now : Z) (st : State) : State * list Event * Completion :=
  match Js.get (groupListeners st) groupId with
  | None =>
      (st, [],
       Threw (String.append "群组监听器 " (String.append groupId " 不存在")))
  | Some groupData =>
      let '(st1, evs1) := stop_listener groupId groupData stop st in
      let '(st2, evs2) :=
        initializeGroupListener (config groupData) start now st1 in
      (st2, evs1 ++ evs2 ++ [GroupRestarted groupId], Returned)
  end.

(** [removeGroup] *)
Definition removeGroup (groupId : string) (stop : Stop) (st : State)
  : State * list Event * Completion :=
  let '(st1, evs1) :=
    match Js.get (groupListeners st) groupId with
    | Some groupData =>
        let '(s, evs) := stop_listener groupId groupData stop st in
        (mkState (groupConfigs s) (Js.remove (groupListeners s) groupId)
           (isRunning s) (stats s),
         evs)
    | None => (st, [])
    end in
  let configs :=
    filter (fun c => negb (String.eqb (id c) groupId)) (groupConfigs st1) in
  let s := stats st1 in
  (mkState configs (groupListeners st1) (isRunning st1)
     (mkStats (Z.of_nat (length configs))
        (Z.of_nat (length (groupListeners st1)))
        (totalTweetsFound s) (totalErrors s)
        (Js.remove (groupStats s) groupId) (statsStartTime s)),
   evs1 ++ [GroupRemoved groupId],
   Returned).

(** ** Scenario *)

Definition g1 : GroupConfig := mkGroupConfig "g1" (Some "one") (Some 1%Z) true.

Definition g2 : GroupConfig := mkGroupConfig "g2" (Some "two") None true.

(** An aggregator that is running "g1" and also knows the configuration of
    "g2", whose listener failed to start. *)
Definition running : State :=
  fst (initializeGroupListener g2 (StartFailed "认证失败") 20
         (fst (initializeGroupListener g1 Started 10
                 (mkState [g1; g2] [] true (mkStats 2 0 0 0 [] (Some 5%Z)))))).

End Multi.

(* ================================================================= *)
(** * GroupMessageListener: start, stop and the saved record *)

Module ListenerLife.
Import Listener.

(** What [loadProcessedTweets] finds under [processedTweetsFile]. *)
Inductive File :=
| NoFile                                    (* pathExists answers false *)
| FileWith (processed_tweets : list string) (* the field is an array *)
| FileOther                                 (* the field is no array *)
| FileUnreadable.                           (* pathExists or readJson throws *)

(** The listener with its timer: [ticking] stands for
    [this.listenerInterval] being set. *)
Record Life := mkLife {
  core : State;
  ticking : bool
}.

Inductive Event :=
| Poll (e : Listener.Event)     (* an event or a save of the poll cycle *)
| ListenerStarted
| ListenerStopped
| ListenerError (message : string).

(** How [auth.initialize()] ends in [start], and [auth.cleanup()] in
    [stop]. *)
Inductive AuthInit := AuthOk | AuthRefused | AuthThrew (message : string).
Inductive AuthCleanup := CleanedUp | CleanupThrew (message : string).

Definition set_listening (b : bool) (st : State) : State :=
  mkState b (hasAuth st) (processedTweets st) (stats st).

Definition set_auth (b : bool) (st : State) : State :=
  mkState (isListening st) b (processedTweets st) (stats st).

(** [loadProcessedTweets], all branches. *)
Definition load (cache : option Z) (f : File) (st : State)
  : State * list Listener.Event :=
  match f with
  | FileWith ids => (loadProcessedTweets cache ids st, [])
  | FileOther => (st, [])
  | NoFile => (st, [SaveProcessedTweets (processedTweets st)])
  | FileUnreadable =>
      (mkState (isListening st) (hasAuth st) [] (stats st), [])
  end.

(** [start], as it runs when the handlers of the listener return; [fetch]
    is what the first poll, made at once, receives.  Under handlers that
    may throw, the first poll or the "listenerStarted" event can send
    [start] to its [catch] block with the session established: that is
    [Wired.start]. *)
Definition start (cache : option Z) (f : File) (auth : AuthInit) (now : Z)
  (fetch : Fetch) (l : Life) : Life * list Event * Multi.Completion :=
  if isListening (core l) then (l, [], Multi.Returned)
  else
    let '(st1, loaded) := load cache f (core l) in
    let st2 := set_auth true st1 in
    let failed message :=
      (mkLife (set_listening false st2) (ticking l),
       map Poll loaded ++ [ListenerError message],
       Multi.Threw message) in
    match auth with
    | AuthOk =>
        let '(st3, polled) :=
          checkGroupMessages now fetch (set_listening true st2) in
        (mkLife st3 true,
         map Poll loaded ++ map Poll polled ++ [ListenerStarted],
         Multi.Returned)
    | AuthRefused => failed "群组账号认证失败"
    | AuthThrew message => failed message
    end.

(** [stop] *)
Definition stop (cleanup : AuthCleanup) (l : Life) : Life * list Event :=
  if negb (isListening (core l)) then (l, [])
  else
    let st1 := set_listening false (core l) in
    let saved := Poll (SaveProcessedTweets (processedTweets st1)) in
    if hasAuth st1 then
      match cleanup with
      | CleanedUp =>
          (mkLife (set_auth false st1) false, [saved; ListenerStopped])
      | CleanupThrew message =>
          (mkLife st1 false, [saved; ListenerError message])
      end
    else (mkLife st1 false, [saved; ListenerStopped]).

(** The events of a poll cycle among those of the listener. *)
Definition polled (evs : list Event) : list Listener.Event :=
  flat_map (fun e => match e with Poll p => [p] | _ => [] end) evs.

(** Counters of a run of poll cycles. *)
Definition completed (evs : list Listener.Event) : nat :=
  length (filter (fun e => match e with
                           | MessageCheckCompleted _ _ => true
                           | _ => false
                           end) evs).

Definition failed_checks (evs : list Listener.Event) : nat :=
  length (filter (fun e => match e with
                           | MessageCheckError _ => true
                           | _ => false
                           end) evs).

(** A record of 1200 ids as a file may hold it. *)
Definition long_file : list string :=
  map statusId (id_links 1 1200).

End ListenerLife.

(* ================================================================= *)
(** * The session of a listener: PuppeteerNotificationService and
      RettwitAuth.getGroupNotifications *)

Module Scrape.
Import Listener.

(** ** [tweetPathRegex], [/^\/([^\/]+)\/status\/(\d+)/] *)

Definition is_digit (c : ascii) : bool :=
  (48 <=? nat_of_ascii c)%nat && (nat_of_ascii c <=? 57)%nat.

Definition not_slash (c : ascii) : bool := negb (Ascii.eqb c "/").

(** A greedy repetition of a character class: the longest run of
    characters of the class at the start of [s], and what follows it. *)
Fixpoint span (p : ascii -> bool) (s : string) : string * string :=
  match s with
  | EmptyString => (EmptyString, EmptyString)
  | String c rest =>
      if p c then let '(a, b) := span p rest in (String c a, b)
      else (EmptyString, s)
  end.

(** A literal of the pattern: what follows it in [s], when [s] starts
    with it. *)
Fixpoint literal (lit s : string) : option string :=
  match lit, s with
  | EmptyString, _ => Some s
  | String a lit', String b s' =>
      if Ascii.eqb a b then literal lit' s' else None
  | String _ _, EmptyString => None
  end.

Fixpoint every (p : ascii -> bool) (s : string) : bool :=
  match s with
  | EmptyString => true
  | String c rest => p c && every p rest
  end.

(** [href.match(tweetPathRegex)]: the two groups of the match.  The class
    [[^\/]] cannot take a slash and the literal after it starts with one,
    so the greedy run is the only way to match; nothing follows [\d+]. *)
Definition match_tweet_path (href : string) : option (string * string) :=
  match literal "/" href with
  | None => None
  | Some rest =>
      let '(user, rest1) := span not_slash rest in
      if String.eqb user "" then None
      else
        match literal "/status/" rest1 with
        | None => None
        | Some rest2 =>
            let '(digits, _) := span is_digit rest2 in
            if String.eqb digits "" then None else Some (user, digits)
        end
  end.

(** An entry of the array that [page.evaluate] returns: the link the
    listener reads, with the [href] it was read from. *)
Record Extracted := mkExtracted {
  originalHref : string;
  link : Link
}.

(** The body of the [forEach] in [page.evaluate]; [href] is what
    [getAttribute] answers, [None] for [null]. *)
Definition extract (href : option string) : list Extracted :=
  match href with
  | None => []
  | Some h =>
      match match_tweet_path h with
      | None => []
      | Some (user, statusId) =>
          let tweetPath :=
            String.append "/"
              (String.append user (String.append "/status/" statusId)) in
          [mkExtracted h
             (mkLink statusId (String.append "https://x.com" tweetPath)
                user tweetPath)]
      end
  end.

Definition evaluate (hrefs : list (option string)) : list Extracted :=
  flat_map extract hrefs.

(** [link.statusId && /^\d+$/.test(link.statusId)] *)
Definition valid (e : Extracted) : bool :=
  negb (String.eqb (statusId (link e)) "") &&
  (negb (String.eqb (statusId (link e)) "") &&
   every is_digit (statusId (link e))).

Record LinkStats := mkLinkStats {
  total : nat;
  valid_links : nat;
  invalid : Z;
  uniqueUsers : nat;
  uniqueTweets : nat;
  users : list string
}.

(** The object that [getTweetLinks] returns. *)
Record LinkResult := mkLinkResult {
  success : bool;
  error : option string;
  lr_account_id : string;
  pageUrl : option string;
  tweetLinks : list Extracted;
  lr_stats : LinkStats;
  extractedAt : option Z
}.

(** What the browser did for a call of [getTweetLinks]: the page was
    loaded and its link elements read, or a step threw (navigation, the
    login check, [evaluate], [url]). *)
Inductive Page :=
| Loaded (url : string) (hrefs : list (option string))
| PageThrew (message : string).

(** [getTweetLinks] *)
Definition getTweetLinks (account_id : string) (now : Z) (page : Page)
  : LinkResult :=
  match page with
  | Loaded url hrefs =>
      let tweetLinks := evaluate hrefs in
      let validLinks := filter valid tweetLinks in
      let uniqueUsers :=
        Js.set_of_array (map (fun e => username (link e)) validLinks) in
      let uniqueTweets :=
        Js.set_of_array (map (fun e => statusId (link e)) validLinks) in
      mkLinkResult true None account_id (Some url) validLinks
        (mkLinkStats (length tweetLinks) (length validLinks)
           (Z.of_nat (length tweetLinks) - Z.of_nat (length validLinks))
           (length uniqueUsers) (length uniqueTweets) uniqueUsers)
        (Some now)
  | PageThrew message =>
      mkLinkResult false (Some message) account_id None []
        (mkLinkStats 0 0 0 0 0 []) None
  end.

(** ** [RettwitAuth.getGroupNotifications] *)

(** The object it returns; [notifications] is always the empty array,
    and [tweetLinks] holds the whole answer of [getTweetLinks]. *)
Record Notifications := mkNotifications {
  n_count : Z;
  hasMore : bool;
  n_account_id : string;
  timestamp : Z;
  fromCache : bool;
  n_tweetLinks : LinkResult
}.

Record Auth := mkAuth {
  notificationCache : list (string * Notifications);
  lastNotificationFetch : option Z
}.

Definition cacheExpiry : Z := 5 * 60 * 1000.

(** [isNotificationCacheValid] *)
Definition isNotificationCacheValid (now : Z) (auth : Auth) : bool :=
  match lastNotificationFetch auth with
  | None => false
  | Some t => if (t =? 0)%Z then false else (now - t <? cacheExpiry)%Z
  end.

(** The template [puppeteer_${count}_${cursor || "initial"}]. *)
Definition cacheKey (count : nat) (cursor : option string) : string :=
  String.append "puppeteer_"
    (String.append (NilEmpty.string_of_uint (Nat.to_uint count))
       (String.append "_"
          (match cursor with
           | Some c => if String.eqb c "" then "initial" else c
           | None => "initial"
           end))).

(** [getGroupNotifications]; [useCache] is [options.useCache !== false],
    [now] the clock when the cache is looked at and [fetched] the clock
    after the page was read.  No step of the [try] block throws
    ([getTweetLinks] catches what the browser throws), so the [catch]
    block with its fall back to the cache does not run. *)
Definition getGroupNotifications (account_id : string) (count : nat)
  (cursor : option string) (useCache : bool) (now fetched : Z) (page : Page)
  (auth : Auth) : Notifications * Auth :=
  let key := cacheKey count cursor in
  match (if useCache && isNotificationCacheValid now auth
         then Js.get (notificationCache auth) key else None) with
  | Some cached => (cached, auth)
  | None =>
      let result :=
        mkNotifications 0 false account_id fetched false
          (getTweetLinks account_id fetched page) in
      (result,
       mkAuth (Js.set (notificationCache auth) key result) (Some fetched))
  end.

(** ** The poll cycle on this session *)

(** A value as [checkGroupMessages] finds it in the [tweetLinks] property
    of the answer. *)
Inductive Property :=
| Absent
| AnArray (links : list Link)
| AnObject (r : LinkResult).

(** What the two tests of [checkGroupMessages] make of that value:
    [tweetLinks && tweetLinks.length > 0] and [tweetLinks?.length || 0].
    The object of [getTweetLinks] has no [length]: the first test compares
    [undefined] with 0 and fails, the second gives 0. *)
Definition read (p : Property) : Fetch :=
  match p with
  | Absent => Fetched None
  | AnArray links => Fetched (Some links)
  | AnObject _ => Fetched None
  end.

(** [checkGroupMessages] with a [RettwitAuth] as [this.auth]: the call
    [getGroupNotifications(50, null, { useCache: false })]. *)
Definition poll (account_id : string) (now fetched : Z) (page : Page)
  (auth : Auth) (st : State) : State * list Event * Auth :=
  if live st then
    let '(answer, auth') :=
      getGroupNotifications account_id 50 None false now fetched page auth in
    let '(st', evs) :=
      checkGroupMessages now (read (AnObject (n_tweetLinks answer))) st in
    (st', evs, auth')
  else (st, [], auth).

Fixpoint polls (account_id : string) (cycles : list (Z * Z * Page))
  (auth : Auth) (st : State) : State * list Event * Auth :=
  match cycles with
  | [] => (st, [], auth)
  | (now, fetched, page) :: rest =>
      let '(st1, evs1, auth1) := poll account_id now fetched page auth st in
      let '(st2, evs2, auth2) := polls account_id rest auth1 st1 in
      (st2, evs1 ++ evs2, auth2)
  end.

(** ** Vocabulary of the properties *)

(** A link in the form the pattern fixes: a user name without slash, an
    id of decimal digits, path and address built from the two, and the
    path both a prefix of the [href] and matched by the pattern again. *)
Definition canonical (e : Extracted) : Prop :=
  let l := link e in
  username l <> "" /\ every not_slash (username l) = true /\
  statusId l <> "" /\ every is_digit (statusId l) = true /\
  tweetPath l =
    String.append "/"
      (String.append (username l)
         (String.append "/status/" (statusId l))) /\
  fullUrl l = String.append "https://x.com" (tweetPath l) /\
  String.prefix (tweetPath l) (originalHref e) = true /\
  match_tweet_path (tweetPath l) = Some (username l, statusId l).

(** What follows the digits of a match does not start with a digit. *)
Definition no_digit_ahead (rest : string) : Prop :=
  match rest with
  | EmptyString => True
  | String c _ => is_digit c = false
  end.

(** A page of a group conversation with two links to the same tweet, a
    link to a profile and an element without [href]. *)
Definition sample_page : Page :=
  Loaded "https://x.com/messages/1"
    [ Some "/alice/status/1001"; Some "/alice"; None;
      Some "/alice/status/1001/photo/1"; Some "/bob/status/77?s=20" ].

End Scrape.

(* ================================================================= *)
(** * A listener under its handlers: MultiGroupListener and the
      GroupMessageListener it starts *)

Module Wired.
Import ListenerLife.

(** ** GroupMessageListener with handlers that may throw

    [emit] calls the handlers before it returns, and what a handler throws
    is thrown by [emit]: the code after the [emit] is skipped up to the
    next [catch]. *)

Section Handlers.

Variables S E : Type.

(** The handlers registered on the listener: what they do to the state
    [S] of their owner when the event is emitted, what the owner emits in
    turn, and the message of what they throw, if they throw. *)
Variable on : Event -> S -> S * list E * option string.

(** Where a method of the listener stands: the listener, the owner of the
    handlers, what the listener has emitted (or handed to the save) and
    what the owner has emitted so far; [thrown] is the message of an
    exception that is on its way up. *)
Record Outcome := mkOutcome {
  listener : Listener.State;
  owner : S;
  emitted : list Event;
  forwarded : list E;
  thrown : option string
}.

Definition emit (e : Event) (o : Outcome) : Outcome :=
  let '(s, out, t) := on e (owner o) in
  mkOutcome (listener o) s (emitted o ++ [e]) (forwarded o ++ out) t.

Definition with_listener (st : Listener.State) (o : Outcome) : Outcome :=
  mkOutcome st (owner o) (emitted o) (forwarded o) (thrown o).

(** [processTweetLinks]: when the handler of "newTweetsFound" throws, the
    loop has run and the save has been asked for, and the trimming of the
    record is skipped; when it returns, the method goes on as without
    handlers. *)
Definition processTweetLinks (now : Z) (tweetLinks : list Listener.Link)
  (o : Outcome) : Outcome :=
  let st := listener o in
  let sc := Listener.scan_links now tweetLinks st in
  let r := Listener.processTweetLinks now tweetLinks st in
  if (0 <? length (Listener.newTweets sc))%nat then
    let s := Listener.stats st in
    let scanned :=
      Listener.mkState (Listener.isListening st) (Listener.hasAuth st)
        (Listener.seen sc)
        (Listener.mkStats (Listener.totalMessages s) (Listener.found sc)
           (Listener.lastCheck s) (Listener.errors s)) in
    let o1 :=
      emit (Poll (Listener.NewTweetsFound (Listener.newTweets sc)))
        (mkOutcome scanned (owner o)
           (emitted o ++
            [Poll (Listener.SaveProcessedTweets (Listener.seen sc))])
           (forwarded o) None) in
    match thrown o1 with
    | Some _ => o1
    | None =>
        mkOutcome (fst r) (owner o1) (emitted o ++ map Poll (snd r))
          (forwarded o1) None
    end
  else
    mkOutcome (fst r) (owner o) (emitted o ++ map Poll (snd r))
      (forwarded o) None.

(** [handleAuthError]; what a handler throws inside the [try] is caught
    and reported as "authFailed", what the handler of that event throws
    leaves the method. *)
Definition handleAuthError (reconnect : option bool) (o : Outcome)
  : Outcome :=
  if Listener.hasAuth (listener o) then
    match reconnect with
    | Some success =>
        let o1 :=
          emit (Poll (if success then Listener.AuthRecovered
                      else Listener.AuthFailed)) o in
        match thrown o1 with
        | Some _ => emit (Poll Listener.AuthFailed) o1
        | None => o1
        end
    | None => emit (Poll Listener.AuthFailed) o
    end
  else o.

(** The [catch] block of [checkGroupMessages]. *)
Definition check_failed (message : string) (reconnect : option bool)
  (o : Outcome) : Outcome :=
  let st := listener o in
  let s := Listener.stats st in
  let counted :=
    Listener.mkState (Listener.isListening st) (Listener.hasAuth st)
      (Listener.processedTweets st)
      (Listener.mkStats (Listener.totalMessages s) (Listener.tweetsFound s)
         (Listener.lastCheck s) (Listener.errors s + 1)) in
  let o1 := emit (Poll (Listener.MessageCheckError message))
              (with_listener counted o) in
  match thrown o1 with
  | Some _ => o1
  | None =>
      if Js.includes message "认证" || Js.includes message "401"
      then handleAuthError reconnect o1 else o1
  end.

(** [checkGroupMessages]; [reconnect] is what [auth.reconnect()] answers
    if the cycle comes to ask after a handler has thrown. *)
Definition checkGroupMessages (now : Z) (fetch : Listener.Fetch)
  (reconnect : option bool) (o : Outcome) : Outcome :=
  let st := listener o in
  if negb (Listener.isListening st) || negb (Listener.hasAuth st) then o
  else
    let s := Listener.stats st in
    let st1 :=
      Listener.mkState (Listener.isListening st) (Listener.hasAuth st)
        (Listener.processedTweets st)
        (Listener.mkStats (Listener.totalMessages s) (Listener.tweetsFound s)
           (Some now) (Listener.errors s)) in
    match fetch with
    | Listener.Fetched links =>
        let st2 :=
          Listener.mkState (Listener.isListening st) (Listener.hasAuth st)
            (Listener.processedTweets st)
            (Listener.mkStats (Listener.totalMessages s + 1)
               (Listener.tweetsFound s) (Some now) (Listener.errors s)) in
        let o1 :=
          match links with
          | Some (l :: ls) =>
              processTweetLinks now (l :: ls) (with_listener st2 o)
          | _ => with_listener st2 o
          end in
        match thrown o1 with
        | Some message => check_failed message reconnect o1
        | None =>
            let o2 :=
              emit (Poll (Listener.MessageCheckCompleted now
                            (match links with
                             | Some ls => length ls
                             | None => 0%nat
                             end))) o1 in
            match thrown o2 with
            | Some message => check_failed message reconnect o2
            | None => o2
            end
        end
    | Listener.FetchThrew message reconnect' =>
        check_failed message reconnect' (with_listener st1 o)
    end.

(** [start]: the result of [ListenerLife.start] with the way it ends,
    under the handlers. *)
Definition start (cache : option Z) (f : File) (auth : AuthInit) (now : Z)
  (fetch : Listener.Fetch) (reconnect : option bool) (l : Life) (s : S)
  : Life * Outcome :=
  if Listener.isListening (core l) then
    (l, mkOutcome (core l) s [] [] None)
  else
    let '(st1, loaded) := load cache f (core l) in
    let o0 := mkOutcome (set_auth true st1) s (map Poll loaded) [] None in
    (* the [catch] block *)
    let failed (ticks : bool) (message : string) (o : Outcome) :=
      let o1 := emit (ListenerError message)
                  (with_listener (set_listening false (listener o)) o) in
      (mkLife (listener o1) ticks,
       match thrown o1 with
       | Some _ => o1
       | None => mkOutcome (listener o1) (owner o1) (emitted o1)
                   (forwarded o1) (Some message)
       end) in
    match auth with
    | AuthOk =>
        let o1 :=
          checkGroupMessages now fetch reconnect
            (with_listener (set_listening true (listener o0)) o0) in
        match thrown o1 with
        | Some message => failed (ticking l) message o1
        | None =>
            let o2 := emit ListenerStarted o1 in
            match thrown o2 with
            | Some message => failed true message o2
            | None => (mkLife (listener o2) true, o2)
            end
        end
    | AuthRefused => failed (ticking l) "群组账号认证失败" o0
    | AuthThrew message => failed (ticking l) message o0
    end.

(** The listener when the timer calls it once more: what the last call
    has thrown has left the listener and is not thrown again. *)
Definition again (o : Outcome) : Outcome :=
  mkOutcome (listener o) (owner o) (emitted o) (forwarded o) None.

(** A run of poll cycles under the handlers: the calls of
    [checkGroupMessages] that the timer makes, each with the time of the
    call, what [getGroupNotifications] does and what [auth.reconnect()]
    answers if it is asked.  The timer does not catch what a call throws
    and makes the next call all the same; a run that ends there is a
    shorter run. *)
Fixpoint poll_cycles (cycles : list (Z * Listener.Fetch * option bool))
  (o : Outcome) : Outcome :=
  match cycles with
  | [] => o
  | (now, fetch, reconnect) :: rest =>
      poll_cycles rest (checkGroupMessages now fetch reconnect (again o))
  end.

End Handlers.

Arguments mkOutcome {S E}.
Arguments listener {S E}.
Arguments owner {S E}.
Arguments emitted {S E}.
Arguments forwarded {S E}.
Arguments thrown {S E}.
Arguments emit {S E}.
Arguments with_listener {S E}.
Arguments processTweetLinks {S E}.
Arguments handleAuthError {S E}.
Arguments check_failed {S E}.
Arguments checkGroupMessages {S E}.
Arguments start {S E}.
Arguments again {S E}.
Arguments poll_cycles {S E}.

(** ** The handlers of MultiGroupListener *)

Import Multi.

(** What the aggregator emits for the events of its listeners, next to
    the events of its own methods. *)
Inductive Forwarded :=
| GroupNewTweets (groupId groupName : string) (priority : Z)
    (tweets : list Listener.TweetInfo)
| GroupCheckCompleted (groupId groupName : string) (timestamp : Z)
    (linksFound : nat)
| GroupCheckError (groupId groupName : string) (error : string)
| GroupAuthRecovered (groupId groupName : string)
| GroupAuthFailed (groupId groupName : string)
| Own (e : Multi.Event).

(** The property names that every object inherits: [stats.groupStats] is
    an object literal, and reading it under one of these names does not
    give [undefined]. *)
Definition inherited (key : string) : bool :=
  existsb (String.eqb key)
    [ "constructor"; "__proto__"; "hasOwnProperty"; "isPrototypeOf";
      "propertyIsEnumerable"; "toLocaleString"; "toString"; "valueOf";
      "__defineGetter__"; "__defineSetter__"; "__lookupGetter__";
      "__lookupSetter__" ].

Definition with_totals (s : Stats) (tweets errors : Z) : Stats :=
  mkStats (totalGroups s) (activeGroups s) tweets errors (groupStats s)
    (statsStartTime s).

(** A handler reaches the entry of its group in [stats.groupStats] and
    changes it by [f], then the aggregator emits [e]; without an entry the
    access throws a [TypeError] with [message], worded as V8 words it.
    (Under an inherited name the handler writes to an object that is no
    part of the statistics.) *)
Definition on_entry (groupId : string) (f : GroupStat -> GroupStat)
  (e : Forwarded) (message : string) (s : Stats)
  : Stats * list Forwarded * option string :=
  match Js.get (groupStats s) groupId with
  | Some _ =>
      (with_groupStats s (Js.update (groupStats s) groupId f), [e], None)
  | None =>
      if inherited groupId then (s, [e], None)
      else (s, [], Some message)
  end.

(** [setupGroupListenerEvents]: the handlers it registers on the listener
    of [c].  The listeners of the aggregator's own events are taken to
    return. *)
Definition setupGroupListenerEvents (c : GroupConfig)
  (e : ListenerLife.Event)
  (s : Stats) : Stats * list Forwarded * option string :=
  let groupId := id c in
  let groupName := display_name c in
  match e with
  | Poll (Listener.NewTweetsFound tweets) =>
      let n := Z.of_nat (length tweets) in
      on_entry groupId
        (fun g => mkGroupStat (gs_groupName g) (gs_tweetsFound g + n)
                    (gs_errors g) (gs_lastCheck g) (gs_status g)
                    (gs_priority g) (gs_error g))
        (GroupNewTweets groupId groupName (display_priority c) tweets)
        "Cannot read properties of undefined (reading 'tweetsFound')"
        (with_totals s (totalTweetsFound s + n) (totalErrors s))
  | Poll (Listener.MessageCheckCompleted timestamp linksFound) =>
      on_entry groupId
        (fun g => mkGroupStat (gs_groupName g) (gs_tweetsFound g)
                    (gs_errors g) (Some timestamp) (gs_status g)
                    (gs_priority g) (gs_error g))
        (GroupCheckCompleted groupId groupName timestamp linksFound)
        "Cannot set properties of undefined (setting 'lastCheck')" s
  | Poll (Listener.MessageCheckError error) =>
      on_entry groupId
        (fun g => mkGroupStat (gs_groupName g) (gs_tweetsFound g)
                    (gs_errors g + 1) (gs_lastCheck g) (gs_status g)
                    (gs_priority g) (gs_error g))
        (GroupCheckError groupId groupName error)
        "Cannot read properties of undefined (reading 'errors')"
        (with_totals s (totalTweetsFound s) (totalErrors s + 1))
  | Poll Listener.AuthRecovered =>
      on_entry groupId
        (fun g => mkGroupStat (gs_groupName g) (gs_tweetsFound g)
                    (gs_errors g) (gs_lastCheck g) GActive
                    (gs_priority g) (gs_error g))
        (GroupAuthRecovered groupId groupName)
        "Cannot set properties of undefined (setting 'status')" s
  | Poll Listener.AuthFailed =>
      on_entry groupId
        (fun g => mkGroupStat (gs_groupName g) (gs_tweetsFound g)
                    (gs_errors g) (gs_lastCheck g) GAuthFailed
                    (gs_priority g) (gs_error g))
        (GroupAuthFailed groupId groupName)
        "Cannot set properties of undefined (setting 'status')" s
  | ListenerStopped =>
      on_entry groupId
        (fun g => mkGroupStat (gs_groupName g) (gs_tweetsFound g)
                    (gs_errors g) (gs_lastCheck g) GStopped
                    (gs_priority g) (gs_error g))
        (Own (GroupStopped groupId groupName))
        "Cannot set properties of undefined (setting 'status')" s
  | Poll (Listener.SaveProcessedTweets _) => (s, [], None)
  | ListenerStarted => (s, [], None)
  | ListenerError _ => (s, [], None)
  end.

(** What the browser, the session and the clock do for the listener of a
    group while it starts. *)
Record World := mkWorld {
  cache : option Z;
  file : File;
  auth : AuthInit;
  now : Z;
  fetch : Listener.Fetch;
  reconnect : option bool;
  started : Z
}.

(** [initializeGroupListener] with the listener that it creates: a new
    [GroupMessageListener] is started under the handlers, and the method
    goes on as [Multi.initializeGroupListener] says, on the statistics as
    the handlers have left them. *)
Definition initializeGroupListener (c : GroupConfig) (w : World)
  (st : State) : State * list Forwarded :=
  let '(_, o) :=
    start (setupGroupListenerEvents c) (cache w) (file w) (auth w) (now w)
      (fetch w) (reconnect w) (mkLife Listener.new false) (stats st) in
  let st1 := mkState (groupConfigs st) (groupListeners st) (isRunning st)
               (owner o) in
  let '(st2, evs) :=
    Multi.initializeGroupListener c
      (match thrown o with
       | None => Started
       | Some message => StartFailed message
       end) (started w) st1 in
  (st2, forwarded o ++ map Own evs).

(** ** Vocabulary of the properties, and scenarios *)

(** The method has gone on as without handlers: it has left the listener
    in [st], after the events [evs], and throws nothing; the state of the
    owner of the handlers satisfies [inv]. *)
Definition follows {S E : Type} (inv : S -> Prop) (o o' : Outcome S E)
  (st : Listener.State) (evs : list ListenerLife.Event) : Prop :=
  listener o' = st /\ emitted o' = emitted o ++ evs /\ thrown o' = None /\
  inv (owner o').

(** A relation between the state of the owner and what the owner has
    emitted holds where the method stands. *)
Definition kept {S E : Type} (J : S -> list E -> Prop) (o : Outcome S E)
  : Prop :=
  J (owner o) (forwarded o).

(** Handlers that return. *)
Definition quiet {S E : Type}
  (on : ListenerLife.Event -> S -> S * list E * option string) : Prop :=
  forall e s, snd (on e s) = None.

(** The statistics of the aggregator but for the two totals. *)
Definition same_groups (s s' : Stats) : Prop :=
  totalGroups s' = totalGroups s /\ activeGroups s' = activeGroups s /\
  groupStats s' = groupStats s /\ statsStartTime s' = statsStartTime s.

(** What the aggregator has passed on: the number of items of its "new
    tweets found" events, and the number of its "check error" events. *)
Definition forwarded_tweets (evs : list Forwarded) : Z :=
  fold_right
    (fun e n =>
       match e with
       | GroupNewTweets _ _ _ tweets => (Z.of_nat (length tweets) + n)%Z
       | _ => n
       end) 0%Z evs.

Definition forwarded_errors (evs : list Forwarded) : Z :=
  fold_right
    (fun e n =>
       match e with
       | GroupCheckError _ _ _ => (1 + n)%Z
       | _ => n
       end) 0%Z evs.

(** The totals of the aggregator are ahead of what it has passed on by
    [tweets] and [errors], and the group [groupId] has its entry. *)
Definition ledger (groupId : string) (tweets errors : Z) (s : Stats)
  (evs : list Forwarded) : Prop :=
  Js.get (groupStats s) groupId <> None /\
  totalTweetsFound s = (tweets + forwarded_tweets evs)%Z /\
  totalErrors s = (errors + forwarded_errors evs)%Z.

(** Handlers that count the events and never throw. *)
Definition counting (e : ListenerLife.Event) (n : nat)
  : nat * list ListenerLife.Event * option string :=
  (Datatypes.S n, [e], None).

(** A page with two new links is there when the listener of "g1" starts. *)
Definition first_world : World :=
  mkWorld None NoFile AuthOk 100
    (Listener.Fetched (Some (Listener.id_links 1 2))) None 200.

(** The aggregator after a first attempt to start the listener of "g1". *)
Definition second_attempt : State :=
  fst (initializeGroupListener g1 first_world (Multi.new [g1])).

(** The record of the listener, and the ids of the items that it has
    emitted so far. *)
Definition record {S E : Type} (o : Outcome S E) : list string :=
  Listener.processedTweets (listener o).

Definition ids_emitted {S E : Type} (o : Outcome S E) : list string :=
  Listener.emitted_ids (polled (emitted o)).

Definition known {S E : Type} (x : string) (o : Outcome S E) : bool :=
  Js.has (record o) x.

(** The batch of a poll cycle: the items that the loop of
    [processTweetLinks] collects from the links of the cycle. *)
Definition batch_of (now : Z) (fetch : Listener.Fetch)
  (st : Listener.State) : list Listener.TweetInfo :=
  if Listener.live st
  then Listener.newTweets
         (Listener.scan_links now (Listener.links_of fetch) st)
  else [].

(** The working set of a poll cycle: the record when the cycle begins,
    followed by the ids of its batch. *)
Definition working_set (now : Z) (fetch : Listener.Fetch)
  (st : Listener.State) : list string :=
  Listener.processedTweets st ++ map Listener.id (batch_of now fetch st).

(** A handler of "newTweetsFound" throws when the event is emitted with
    [batch] while the owner of the handlers is in state [s]. *)
Definition found_throws {S E : Type}
  (on : ListenerLife.Event -> S -> S * list E * option string)
  (batch : list Listener.TweetInfo) (s : S) : bool :=
  match batch with
  | [] => false
  | _ =>
      match snd (on (Poll (Listener.NewTweetsFound batch)) s) with
      | Some _ => true
      | None => false
      end
  end.

(** The handlers of "newTweetsFound" return. *)
Definition found_quiet {S E : Type}
  (on : ListenerLife.Event -> S -> S * list E * option string) : Prop :=
  forall tweets s, snd (on (Poll (Listener.NewTweetsFound tweets)) s) = None.

(** The cycle drops the id [x]: [x] is in the working set of the cycle and
    no longer in the record when the cycle ends. *)
Definition drops {S E : Type}
  (on : ListenerLife.Event -> S -> S * list E * option string)
  (x : string) (now : Z) (fetch : Listener.Fetch) (reconnect : option bool)
  (o : Outcome S E) : bool :=
  Js.has (working_set now fetch (listener o)) x &&
  negb (known x (checkGroupMessages on now fetch reconnect (again o))).

(** The number of cycles of a run that drop the id [x]. *)
Fixpoint dropped_times {S E : Type}
  (on : ListenerLife.Event -> S -> S * list E * option string)
  (x : string) (cycles : list (Z * Listener.Fetch * option bool))
  (o : Outcome S E) : nat :=
  match cycles with
  | [] => 0
  | (now, fetch, reconnect) :: rest =>
      ((if drops on x now fetch reconnect o then 1 else 0)
       + dropped_times on x rest
           (checkGroupMessages on now fetch reconnect (again o)))%nat
  end.

(** The ids of the links that the cycles of a run bring, and the number
    of cycles in which [getGroupNotifications] returns. *)
Definition run_ids (cycles : list (Z * Listener.Fetch * option bool))
  : list string :=
  flat_map (fun c => map Listener.statusId (Listener.links_of (snd (fst c))))
    cycles.

Definition answered (cycles : list (Z * Listener.Fetch * option bool)) : nat :=
  length (filter (fun c => match snd (fst c) with
                           | Listener.Fetched _ => true
                           | Listener.FetchThrew _ _ => false
                           end) cycles).

(** What the listener has emitted between two points of a method: events
    of the poll cycle, among them the "new tweets found" events with the
    batches [found], [c] "check completed" events and [f] "check error"
    events. *)
Definition grows {S E : Type} (o o' : Outcome S E)
  (found : list (list Listener.TweetInfo)) (c f : nat) : Prop :=
  exists evs,
    emitted o' = emitted o ++ map Poll evs /\
    Listener.found_events evs = found /\
    completed evs = c /\ failed_checks evs = f.

(** The "new tweets found" events of a cycle with the batch [batch]. *)
Definition found_once (batch : list Listener.TweetInfo)
  : list (list Listener.TweetInfo) :=
  match batch with
  | [] => []
  | _ => [batch]
  end.

(** A listener that has started, with the record [rec], before it has
    emitted anything; [s] is the state of the owner of its handlers. *)
Definition listening_with {S E : Type} (rec : list string) (s : S)
  : Outcome S E :=
  mkOutcome (Listener.listening rec) s [] [] None.

(** The cycles of a run of the listener alone, as the timer makes them;
    [auth.reconnect()] throws when it is asked after a handler has
    thrown. *)
Definition timed (cycles : list (Z * Listener.Fetch))
  : list (Z * Listener.Fetch * option bool) :=
  map (fun c => (fst c, snd c, None)) cycles.

(** The statistics of an aggregator that has the entry of group "g1". *)
Definition with_entry : Stats :=
  Multi.stats (fst (Multi.initializeGroupListener g1 Started 10
                      (Multi.new [g1]))).

End Wired.

(* ================================================================= *)
(** * MultiGroupListener: start, stop, addGroup and the priority list *)

Module Aggregator.
Import Multi Wired.

Inductive Event :=
| Passed (e : Forwarded)
| GroupAdded (groupId : string) (groupName : option string)
| MultiGroupStarted (totalGroups activeGroups : Z) (groupIds : list string)
| MultiGroupStopped.

Definition with_activeGroups (st : State) : State :=
  let s := stats st in
  mkState (groupConfigs st) (groupListeners st) (isRunning st)
    (mkStats (totalGroups s) (Z.of_nat (length (groupListeners st)))
       (totalTweetsFound s) (totalErrors s) (groupStats s)
       (statsStartTime s)).

(** The initializations that [start] runs, one after the other. *)
Fixpoint initialize_all (settled : list (GroupConfig * World)) (st : State)
  : State * list Forwarded :=
  match settled with
  | [] => (st, [])
  | (c, w) :: rest =>
      let '(st1, evs1) := initializeGroupListener c w st in
      let '(st2, evs2) := initialize_all rest st1 in
      (st2, evs1 ++ evs2)
  end.

(** [start]; [settled] lists the enabled groups, each with what its
    listener meets, in the order in which their initializations end.  The
    initializations run concurrently; each writes the entry of its own
    group and adds to the totals, so that, for groups of different ids,
    the state they leave is the one that they leave one after the
    other. *)
Definition start (now : Z) (settled : list (GroupConfig * World))
  (st : State) : State * list Event :=
  if isRunning st then (st, [])
  else
    let s := stats st in
    let st1 :=
      mkState (groupConfigs st) (groupListeners st) true
        (mkStats (Z.of_nat (length (groupConfigs st))) (activeGroups s)
           (totalTweetsFound s) (totalErrors s) (groupStats s) (Some now)) in
    let '(st2, evs) := initialize_all settled st1 in
    let st3 := with_activeGroups st2 in
    (st3,
     map Passed evs ++
     [MultiGroupStarted (totalGroups (stats st3)) (activeGroups (stats st3))
        (Js.keys (groupListeners st3))]).

(** The listeners that [stop] stops; [stops] tells how the cleanup of
    the listener of each group ends. *)
Fixpoint stop_all (stops : string -> Stop)
  (listeners : list (string * GroupData)) (st : State)
  : State * list Multi.Event :=
  match listeners with
  | [] => (st, [])
  | (groupId, g) :: rest =>
      let '(st1, evs1) := stop_listener groupId g (stops groupId) st in
      let '(st2, evs2) := stop_all stops rest st1 in
      (st2, evs1 ++ evs2)
  end.

(** [stop] *)
Definition stop (stops : string -> Stop) (st : State) : State * list Event :=
  if negb (isRunning st) then (st, [])
  else
    let st1 := mkState (groupConfigs st) (groupListeners st) false
                 (stats st) in
    let '(st2, evs) := stop_all stops (groupListeners st1) st1 in
    (mkState (groupConfigs st2) [] (isRunning st2) (stats st2),
     map (fun e => Passed (Own e)) evs ++ [MultiGroupStopped]).

(** [addGroup] *)
Definition addGroup (c : GroupConfig) (w : World) (st : State)
  : State * list Event * Completion :=
  match Js.get (groupListeners st) (id c) with
  | Some _ =>
      (st, [],
       Threw (String.append "群组监听器 " (String.append (id c) " 已存在")))
  | None =>
      let '(st1, evs) :=
        if isRunning st && enabled c then
          let '(s1, evs1) := initializeGroupListener c w st in
          (with_activeGroups s1, evs1)
        else (st, []) in
      let configs := groupConfigs st1 ++ [c] in
      let s := stats st1 in
      (mkState configs (groupListeners st1) (isRunning st1)
         (mkStats (Z.of_nat (length configs)) (activeGroups s)
            (totalTweetsFound s) (totalErrors s) (groupStats s)
            (statsStartTime s)),
       map Passed evs ++ [GroupAdded (id c) (groupName c)],
       Returned)
  end.

(** An entry of the array that [getGroupsByPriority] returns; [status] is
    [None] for ['unknown']. *)
Record GroupView := mkGroupView {
  v_id : string;
  v_name : option string;
  v_priority : option Z;
  v_status : option GroupStatus
}.

(** The comparison function of the [sort]. *)
Definition by_priority (a b : GroupData) : Z :=
  (display_priority (config a) - display_priority (config b))%Z.

(** [getGroupsByPriority] *)
Definition getGroupsByPriority (st : State) : list GroupView :=
  map (fun g =>
         mkGroupView (id (config g)) (groupName (config g))
           (priority (config g))
           (option_map gs_status
              (Js.get (groupStats (stats st)) (id (config g)))))
    (Assigner.sort by_priority (map snd (groupListeners st))).

(** ** Vocabulary of the properties, and scenarios *)

(** A comparison function that subtracts keys. *)
Definition by_key {A : Type} (key : A -> Z) (a b : A) : Z :=
  (key a - key b)%Z.

(** The rank under which [getGroupsByPriority] sorts a priority: the
    value of [priority || 999]. *)
Definition rank (p : option Z) : Z :=
  match p with
  | Some n => if (n =? 0)%Z then 999%Z else n
  | None => 999%Z
  end.

(** The entry of a group whose listener could not be started. *)
Definition failed_entry (c : GroupConfig) (message : string) : GroupStat :=
  mkGroupStat (display_name c) 0 1 None GFailed (display_priority c)
    (Some message).

(** The group configurations have ids of their own, none of them a
    property name that every object inherits. *)
Definition plain_ids (settled : list (GroupConfig * World)) : Prop :=
  NoDup (map (fun x => id (fst x)) settled) /\
  Forall (fun x => inherited (id (fst x)) = false) settled.

Definition init_error (e : Event) : Prop :=
  exists groupId groupName message,
    e = Passed (Own (GroupInitError groupId groupName message)).

(** Three registered groups: priorities 5, none and 0, then 1. *)
Definition three_groups : State :=
  let g (k : string) (p : option Z) :=
    (k, mkGroupData true (mkGroupConfig k None p true) GActive 0%Z) in
  mkState [] [g "a" (Some 5%Z); g "b" None; g "c" (Some 0%Z);
              g "d" (Some 1%Z)]
    true (mkStats 4 4 0 0 [] None).

End Aggregator.

(* ================================================================= *)
(** * TwitterMonitorSystem: the group listeners and the health status *)

Module Health.

(** The texts that [getHealthStatus] pushes to [health.issues]. *)
Inductive Issue :=
| ListenerNotRunning   (* "多群组监听器未运行" *)
| FewActiveGroups      (* "活跃群组数量过少" *)
| ManyListenerErrors   (* "多群组监听器错误过多" *)
| FewActiveAccounts    (* "活跃账号数量过少" *)
| ManyAssignerErrors.  (* "分配器错误过多" *)

Inductive Overall := Healthy | Warning | Critical.

Record Health := mkHealth {
  overall : Overall;
  issues : list Issue;
  score : Z
}.

(** [a / b < 0.5] on two integers, as the division of numbers decides it:
    [a / 0] is [NaN] for [a] zero and an infinity of the sign of [a]
    otherwise, and no comparison with [NaN] holds. *)
Definition below_half (a b : Z) : bool :=
  if (0 <? b)%Z then (2 * a <? b)%Z
  else if (b <? 0)%Z then (b <? 2 * a)%Z
  else (a <? 0)%Z.

(** A test of [getHealthStatus]: the issue is pushed and the score
    lowered when [found] holds. *)
Definition check (found : bool) (i : Issue) (penalty : Z)
  (h : list Issue * Z) : list Issue * Z :=
  if found then (fst h ++ [i], (snd h - penalty)%Z) else h.

(** [getHealthStatus]; [accounts] is [accountsConfig.accounts.length],
    [multi] and [assigner] are the two components, [None] for [null]. *)
Definition getHealthStatus (multi : option Multi.State)
  (assigner : option Assigner.State) (accounts : nat) : Health :=
  let h0 : list Issue * Z := ([], 100%Z) in
  let h1 :=
    match multi with
    | Some m =>
        let s := Multi.stats m in
        check (20 <? Multi.totalErrors s)%Z ManyListenerErrors 20
          (check (below_half (Multi.activeGroups s) (Multi.totalGroups s))
             FewActiveGroups 25
             (check (negb (Multi.isRunning m)) ListenerNotRunning 30 h0))
    | None => h0
    end in
  let h2 :=
    match assigner with
    | Some a =>
        check (50 <? Assigner.totalErrors (Assigner.stats a))%Z
          ManyAssignerErrors 30
          (check (below_half
                    (Z.of_nat (length (Assigner.activeAccounts a)))
                    (Z.of_nat accounts))
             FewActiveAccounts 40 h1)
    | None => h1
    end in
  mkHealth
    (if (80 <=? snd h2)%Z then Healthy
     else if (60 <=? snd h2)%Z then Warning else Critical)
    (fst h2) (snd h2).

(** [initializeMultiGroupListener]: the aggregator that it creates and
    starts, if it creates one; [settled] is what [Aggregator.start]
    takes. *)
Definition initializeMultiGroupListener
  (groupMonitorAccounts : option (list Multi.GroupConfig))
  (groupNotificationAccount : option Multi.GroupConfig) (now : Z)
  (settled : list (Multi.GroupConfig * Wired.World))
  : option (Multi.State * list Aggregator.Event) :=
  let configured :=
    match groupMonitorAccounts with Some l => l | None => [] end in
  let groupConfigs :=
    match configured, groupNotificationAccount with
    | [], Some g => [g]
    | _, _ => configured
    end in
  if (length groupConfigs =? 0)%nat then None
  else if (length (filter Multi.enabled groupConfigs) =? 0)%nat then None
  else Some (Aggregator.start now settled (Multi.new groupConfigs)).

(** ** Vocabulary of the properties *)

Definition penalty (i : Issue) : Z :=
  match i with
  | ListenerNotRunning => 30
  | FewActiveGroups => 25
  | ManyListenerErrors => 20
  | FewActiveAccounts => 40
  | ManyAssignerErrors => 30
  end.

Definition penalties (l : list Issue) : Z :=
  fold_right (fun i n => (penalty i + n)%Z) 0%Z l.

Definition issue_eqb (i j : Issue) : bool :=
  match i, j with
  | ListenerNotRunning, ListenerNotRunning
  | FewActiveGroups, FewActiveGroups
  | ManyListenerErrors, ManyListenerErrors
  | FewActiveAccounts, FewActiveAccounts
  | ManyAssignerErrors, ManyAssignerErrors => true
  | _, _ => false
  end.

Definition reported (i : Issue) (h : Health) : bool :=
  existsb (issue_eqb i) (issues h).

End Health.

(* ================================================================= *)
(** * OpenAIClient: the reply that is posted *)

Module Reply.

Local Open Scope N_scope.

(** A string without unpaired surrogates, as the list of its code points:
    what [[...text]] spreads it to.  The characters that the methods look
    for are single code units, so that [slice], [trim] and the patterns
    cut such a string between code points. *)
Definition Text := list N.

(** The class [\s] of a pattern, which is also what [trim] removes. *)
Definition is_space (c : N) : bool :=
  (c =? 9) || (c =? 10) || (c =? 11) || (c =? 12) || (c =? 13) ||
  (c =? 32) || (c =? 160) || (c =? 5760) ||
  ((8192 <=? c) && (c <=? 8202)) ||
  (c =? 8232) || (c =? 8233) || (c =? 8239) || (c =? 8287) ||
  (c =? 12288) || (c =? 65279).

(** [text.replace(/\s+/g, " ")]; [in_run] tells that the character before
    was of the class. *)
Fixpoint collapse (in_run : bool) (text : Text) : Text :=
  match text with
  | [] => []
  | c :: rest =>
      if is_space c then
        if in_run then collapse true rest else 32 :: collapse true rest
      else c :: collapse false rest
  end.

Fixpoint trimStart (text : Text) : Text :=
  match text with
  | [] => []
  | c :: rest => if is_space c then trimStart rest else text
  end.

(** [text.trim()] *)
Definition trim (text : Text) : Text :=
  rev (trimStart (rev (trimStart text))).

(** The quotation mark, U+0022. *)
Definition quote : N := 34.

(** [if (s.startsWith('"') && s.endsWith('"')) s = s.slice(1, -1)] *)
Definition unquote (text : Text) : Text :=
  match text with
  | c :: _ =>
      if (c =? quote) && (last text 0 =? quote)
      then removelast (tl text) else text
  | [] => []
  end.

(** [getCharacterCount] *)
Definition getCharacterCount (text : Text) : Z := Z.of_nat (length text).

(** The three full stops that [truncateToLimit] appends. *)
Definition dots : Text := [46; 46; 46].

(** The [for] loop of [truncateToLimit]. *)
Fixpoint truncate_loop (limit : Z) (chars : Text) (truncated : Text)
  : Text :=
  match chars with
  | [] => truncated
  | c :: rest =>
      if (getCharacterCount (truncated ++ [c]) <? limit - 3)%Z
      then truncate_loop limit rest (truncated ++ [c])
      else truncated
  end.

(** [truncateToLimit] *)
Definition truncateToLimit (text : Text) (limit : Z) : Text :=
  if (getCharacterCount text <=? limit)%Z then text
  else truncate_loop limit text [] ++ dots.

(** A character of the input matches a character of a pattern with the
    flag [i] when the two have the same upper case; for the letters of the
    basic Latin alphabet no other character does. *)
Definition upper (c : N) : N :=
  if (97 <=? c) && (c <=? 122) then c - 32 else c.

Fixpoint starts_with_ci (pattern text : Text) : bool :=
  match pattern, text with
  | [], _ => true
  | p :: pattern', c :: text' =>
      (upper p =? upper c) && starts_with_ci pattern' text'
  | _ :: _, [] => false
  end.

(** The two alternatives of [/\[回复\]|\[Reply\]/gi]. *)
Definition marker_zh : Text := [91; 22238; 22797; 93].
Definition marker_en : Text := [91; 82; 101; 112; 108; 121; 93].

(** [text.replace(/\[回复\]|\[Reply\]/gi, "")]: the matches are found from
    left to right and do not overlap; [skip] counts the characters that
    are left of the match in progress. *)
Fixpoint strip (skip : nat) (text : Text) : Text :=
  match text with
  | [] => []
  | c :: rest =>
      match skip with
      | S k => strip k rest
      | O =>
          if starts_with_ci marker_zh text then strip 3 rest
          else if starts_with_ci marker_en text then strip 6 rest
          else c :: strip 0 rest
      end
  end.

(** [sanitizeReply] *)
Definition sanitizeReply (reply : Text) : Text :=
  let sanitized := trim (collapse false reply) in
  let sanitized := unquote sanitized in
  let sanitized := unquote sanitized in
  let sanitized :=
    if (280 <? getCharacterCount sanitized)%Z
    then truncateToLimit sanitized 280 else sanitized in
  strip 0 sanitized.

(** What the request of [generateReply] brings: a completion with its
    text and, if given, the tokens used; or nothing that can be read as
    one (the request throws, or the answer lacks the text). *)
Inductive Completion :=
| Completed (content : Text) (total_tokens : option Z)
| NoCompletion (message : string).

Record Generated := mkGenerated {
  success : bool;
  reply : option Text;
  error : option string;
  tokens_used : Z
}.

(** [generateReply] *)
Definition generateReply (c : Completion) : Generated :=
  match c with
  | Completed content total_tokens =>
      mkGenerated true (Some (sanitizeReply (trim content))) None
        (match total_tokens with
         | Some n => n
         | None => 0%Z
         end)
  | NoCompletion message => mkGenerated false None (Some message) 0
  end.

(** ** Vocabulary of the properties *)

(** A text that [sanitizeReply] has nothing to do on: no white space, no
    quotation mark, no opening bracket. *)
Definition plain (c : N) : bool :=
  negb (is_space c) && negb (c =? quote) && negb (c =? 91).

(** Only plain spaces are left of the white space. *)
Definition spaced (text : Text) : Prop :=
  Forall (fun c => is_space c = true -> c = 32) text.

(** A long text: the letter "a" 300 times. *)
Definition long_text : Text := repeat 97 300.

End Reply.

(* ================================================================= *)
(** * AccountAssigner: further vocabulary *)

Module AssignerMore.
Import Assigner.

Local Open Scope Z_scope.

(** The ids of the pool are pairwise different, as the keys of a [Map]
    are. *)
Definition unique_ids (st : State) : Prop :=
  NoDup (Js.keys (activeAccounts st)).

(** No two active accounts differ by more than one in workload. *)
Definition balanced (st : State) : Prop :=
  forall e e',
    In e (availableAccounts st) -> In e' (availableAccounts st) ->
    workload (snd e) <= workload (snd e') + 1.

(** No account of the pool is active. *)
Definition none_active (st : State) : Prop :=
  Forall (fun e => status (snd e) <> Active) (activeAccounts st).

(** The counters of an account and its entry in the statistics agree. *)
Definition agrees (a : Account) (s : AccountStat) : Prop :=
  s_tasksAssigned s = tasksAssigned a /\
  s_repliesSent s = repliesSent a /\
  s_errors s = errors a /\
  s_status s = status a.

(** Every account of the pool [ma] has an entry in [ms] that agrees with
    it. *)
Definition mir (ma : list (string * Account))
  (ms : list (string * AccountStat)) : Prop :=
  forall k a, Js.get ma k = Some a ->
              exists s, Js.get ms k = Some s /\ agrees a s.

(** Every account of the pool has a statistics entry that agrees with
    it. *)
Definition mirrored (st : State) : Prop :=
  forall k a,
    Js.get (activeAccounts st) k = Some a ->
    exists s, Js.get (accountStats (stats st)) k = Some s /\ agrees a s.

(** The number of "accountError" events about account [k]. *)
Definition error_reports (k : string) (evs : list Event) : nat :=
  length (filter (fun e => match e with
                           | AccountError k' _ => String.eqb k' k
                           | _ => false
                           end) evs).

(** The task in flight, if any, belongs to an account that is active (if
    it is still in the pool). *)
Definition in_flight_active (st : State) : Prop :=
  forall t a,
    inflight st = Some t ->
    Js.get (activeAccounts st) (accountId t) = Some a ->
    status a = Active.

(** Account [k] is in the pool and active. *)
Definition alive (k : string) (st : State) : Prop :=
  exists a, Js.get (activeAccounts st) k = Some a /\ status a = Active.

(** The counters that [resetStats] clears. *)
Definition cleared (a : Account) : Account :=
  set_errors 0 (set_repliesSent 0 (set_tasksAssigned 0 a)).

(** Scenario B of the specification: two fresh accounts, three tweets in
    one call. *)
Definition three_tweets : State :=
  assignTweets 7 [tweet "1"; tweet "2"; tweet "3"] two_accounts.

(** The message that an attempt on [task] hands to [handleTaskError], if
    the attempt fails: [processTask] reaches its [catch] block, or the
    reply generator reports a failure. *)
Definition failure (cfg : Settings) (o : Outcome) (task : Task) (st : State)
  : option string :=
  match o with
  | DetailsThrew message => Some message
  | Details clock tweetDetails reply =>
      if negb (shouldProcessTweet cfg clock (tweetInfo task) tweetDetails)
      then None
      else
        match reply with
        | GenerateThrew message => Some message
        | GenerateFailed error => Some error
        | Generated _ (PostThrew message) => Some message
        | Generated _ PostEmpty => None
        | Generated _ (Posted _) =>
            match Js.get (accountStats (stats st)) (accountId task) with
            | Some _ => None
            | None =>
                Some "Cannot read properties of undefined (reading 'repliesSent')"
            end
        end
  end.

(** The ids of the tweets handed to [assignTweets] in a run, one entry for
    each time a tweet is handed over. *)
Definition assigned_ids (ops : list Op) : list string :=
  flat_map (fun op => match op with
                      | Assign _ tweets => map tweet_id tweets
                      | _ => []
                      end) ops.

(** The task that a [Settle] step ends. *)
Definition attempted (op : Op) (st : State) : list Task :=
  match op, inflight st with
  | Settle _ _, Some task => [task]
  | _, _ => []
  end.

(** The tasks that have not ended: the one in flight and those that
    wait. *)
Definition pending (st : State) : list Task :=
  match inflight st with
  | Some t => [t]
  | None => []
  end ++ taskQueue st.

(** The tasks on the tweet with id [s] among [l], each with the weight
    [w]. *)
Definition weigh (w : Task -> Z) (s : string) (l : list Task) : Z :=
  fold_right (fun t n => if String.eqb (tweet_id (tweetInfo t)) s
                         then w t + n else n) 0 l.

(** The attempts that a task has left. *)
Definition attempts_left (cfg : Settings) (t : Task) : Z :=
  maxRetries cfg - retryCount t.

(** The tasks on the tweet with id [s] that "taskFailed" events report. *)
Definition failures_on (s : string) (evs : list Event) : list Task :=
  attempts_on s (failed_tasks evs).

End AssignerMore.

(* ================================================================= *)
(** * Properties of the shared helpers *)

Module JsFacts.
Import Js.

Lemma has_In (s : list string) (x : string) : has s x = true <-> In x s.
Proof.
  unfold has. rewrite existsb_exists. split.
  - intros [y [Hy He]]. apply String.eqb_eq in He. now subst.
  - intros H. exists x. split; [assumption | apply String.eqb_refl].
Qed.

Lemma has_false (s : list string) (x : string) :
  has s x = false <-> ~ In x s.
Proof.
  rewrite <- has_In. destruct (has s x); split; congruence.
Qed.

Lemma set_of_array_acc (a acc : list string) :
  NoDup (acc ++ a) -> fold_left add a acc = acc ++ a.
Proof.
  revert acc. induction a as [|x a IH]; intros acc H; simpl.
  - now rewrite app_nil_r.
  - assert (Hx : has acc x = false).
    { apply has_false. intros Hin.
      apply NoDup_remove_2 in H. apply H, in_or_app. now left. }
    unfold add at 2. rewrite Hx.
    rewrite IH; rewrite <- app_assoc; simpl; [reflexivity | assumption].
Qed.

(** [new Set(a)] of an array without repetition keeps it as it is. *)
Lemma set_of_array_NoDup (a : list string) : NoDup a -> set_of_array a = a.
Proof. intros H. unfold set_of_array. now rewrite set_of_array_acc. Qed.

Lemma add_NoDup (s : list string) (x : string) : NoDup s -> NoDup (add s x).
Proof.
  intros H. unfold add. destruct (has s x) eqn:E; [assumption|].
  apply has_false in E.
  apply NoDup_app; [assumption | repeat constructor; simpl; tauto |].
  intros a Ha [Hx | []]. now subst.
Qed.

Lemma fold_add_NoDup (a acc : list string) :
  NoDup acc -> NoDup (fold_left add a acc).
Proof.
  revert acc. induction a as [|x a IH]; intros acc H; simpl; auto using add_NoDup.
Qed.

Lemma set_of_array_is_set (a : list string) : NoDup (set_of_array a).
Proof. apply fold_add_NoDup. constructor. Qed.

Lemma skipn_NoDup {A : Type} (n : nat) (l : list A) :
  NoDup l -> NoDup (skipn n l).
Proof.
  revert l. induction n as [|n IH]; intros [|x l] H; simpl; auto.
  inversion H; auto.
Qed.

Lemma slice_NoDup {A : Type} (k : Z) (l : list A) :
  NoDup l -> NoDup (slice k l).
Proof. apply skipn_NoDup. Qed.

Lemma slice_length_neg {A : Type} (n : nat) (l : list A) :
  (n <= length l)%nat -> (0 < n)%nat ->
  length (slice (- Z.of_nat n) l) = n.
Proof.
  intros H Hn. unfold slice. rewrite length_skipn.
  destruct (Z.ltb_spec (- Z.of_nat n) 0); lia.
Qed.

(** [slice(-n)] returns a suffix of the array. *)
Lemma slice_suffix {A : Type} (k : Z) (l : list A) :
  exists dropped, l = dropped ++ slice k l.
Proof.
  unfold slice. eexists. symmetry. apply firstn_skipn.
Qed.

End JsFacts.

(* ================================================================= *)
(** * GroupMessageListener: deduplication and the poll cycle *)

Module ListenerFacts.
Import Js JsFacts Listener.

(** The loop of [processTweetLinks], by induction on the links. *)
Lemma scan_fold (now : Z) (links : list Link) (acc : Scan) :
  exists added,
    ScanResult links acc (fold_left (scan_link now) links acc) added.
Proof.
  revert acc. induction links as [|l links IH]; intros acc; simpl.
  - exists []. constructor; simpl; rewrite ?app_nil_r, ?orb_false_r;
      auto; try constructor; intros x [].
  - unfold scan_link at 2.
    destruct (has (seen acc) (statusId l)) eqn:E; simpl.
    + (* known id: the link is skipped *)
      destruct (IH acc) as [added [Rn Rs Rd Rsound Rcomplete Rf Rc]].
      exists added. constructor; auto.
      * intros x Hx. destruct (Rsound x Hx). split; [now right | assumption].
      * intros x [Hx | Hx]; [|auto].
        subst. apply in_or_app. left. now apply has_In.
      * simpl. lia.
    + (* new id: recorded and added to the batch *)
      unfold add. rewrite E.
      set (t := mkTweetInfo (statusId l) (fullUrl l) (username l)
                  (tweetPath l) now "group_message").
      destruct (IH (mkScan (seen acc ++ [statusId l]) (newTweets acc ++ [t])
                      (found acc + 1) true))
        as [added [Rn Rs Rd Rsound Rcomplete Rf Rc]].
      exists (t :: added). simpl in *.
      apply has_false in E.
      constructor; simpl.
      * now rewrite Rn, <- app_assoc.
      * now rewrite Rs, <- app_assoc.
      * constructor; [|assumption].
        intros Hin. destruct (Rsound _ Hin) as [_ Hn].
        apply Hn, in_or_app. right. now left.
      * intros x [Hx | Hx].
        -- subst. auto.
        -- destruct (Rsound x Hx) as [Hl Hn]. split; [auto|].
           intros Hs. apply Hn, in_or_app. now left.
      * intros x [Hx | Hx].
        -- subst. apply in_or_app. right. now left.
        -- specialize (Rcomplete x Hx).
           rewrite <- app_assoc in Rcomplete. exact Rcomplete.
      * rewrite Rf. now rewrite orb_true_r.
      * lia.
Qed.

Lemma scan_links_spec (now : Z) (links : list Link) (st : State) :
  let sc := scan_links now links st in
  seen sc = processedTweets st ++ map id (newTweets sc) /\
  NoDup (map id (newTweets sc)) /\
  (forall x, In x (map id (newTweets sc)) <->
             In x (map statusId links) /\ ~ In x (processedTweets st)) /\
  hasNewTweets sc = (0 <? length (newTweets sc))%nat /\
  (length (newTweets sc) <= length links)%nat.
Proof.
  unfold scan_links.
  destruct (scan_fold now links
              (mkScan (processedTweets st) [] (tweetsFound (stats st)) false))
    as [added [Rn Rs Rd Rsound Rcomplete Rf Rc]].
  simpl in *. rewrite Rn. simpl.
  split; [exact Rs|]. split; [exact Rd|]. split; [|split; assumption].
  intros x. split.
  - apply Rsound.
  - intros [Hl Hn]. apply Rcomplete in Hl.
    apply in_app_or in Hl. tauto.
Qed.

Lemma emitted_ids_app (e1 e2 : list Event) :
  emitted_ids (e1 ++ e2) = emitted_ids e1 ++ emitted_ids e2.
Proof. apply flat_map_app. Qed.

Lemma found_events_app (e1 e2 : list Event) :
  found_events (e1 ++ e2) = found_events e1 ++ found_events e2.
Proof. apply flat_map_app. Qed.

Lemma emitted_ids_found (evs : list Event) :
  emitted_ids evs = flat_map (map id) (found_events evs).
Proof.
  induction evs as [|e evs IH]; [reflexivity|].
  destruct e; simpl; rewrite ?app_nil_r; try assumption.
  now rewrite IH.
Qed.

(** [processTweetLinks], in terms of the batch of new items. *)
Lemma processTweetLinks_spec (now : Z) (links : list Link) (st : State) :
  let batch := newTweets (scan_links now links st) in
  let full := processedTweets st ++ map id batch in
  found_events (snd (processTweetLinks now links st)) =
    match batch with [] => [] | _ => [batch] end /\
  processedTweets (fst (processTweetLinks now links st)) =
    (if (1000 <? length full)%nat
     then set_of_array (slice (-800) full) else full).
Proof.
  intros batch full.
  destruct (scan_links_spec now links st) as (Hseen & _).
  fold batch in Hseen. fold full in Hseen.
  unfold processTweetLinks. fold batch. rewrite Hseen.
  destruct (1000 <? length full)%nat; simpl; split; try reflexivity.
  - rewrite found_events_app.
    destruct batch; simpl; [|destruct (hasNewTweets _); reflexivity].
    destruct (hasNewTweets _); reflexivity.
  - rewrite found_events_app. destruct batch; reflexivity.
Qed.

(** One poll cycle, in terms of the batch of new items. *)
Lemma checkGroupMessages_spec (now : Z) (fetch : Fetch) (st : State) :
  exists batch,
    found_events (snd (checkGroupMessages now fetch st)) =
      match batch with [] => [] | _ => [batch] end /\
    NoDup (map id batch) /\
    (forall x, In x (map id batch) ->
       In x (map statusId (links_of fetch)) /\ ~ In x (processedTweets st)) /\
    (live st = true ->
     forall x, In x (map statusId (links_of fetch)) ->
       ~ In x (processedTweets st) -> In x (map id batch)) /\
    (length batch <= length (links_of fetch))%nat /\
    let full := processedTweets st ++ map id batch in
    processedTweets (fst (checkGroupMessages now fetch st)) =
      (if (live st && (0 <? length (links_of fetch)) &&
           (1000 <? length full))%nat
       then set_of_array (slice (-800) full) else full).
Proof.
  unfold checkGroupMessages, live.
  destruct (isListening st) eqn:Hl, (hasAuth st) eqn:Ha; simpl;
    try (exists []; simpl; rewrite app_nil_r;
         repeat split; try constructor; try tauto; try lia; try discriminate;
         fail).
  destruct fetch as [[[|l ls]|]|message reconnect]; simpl;
    try (exists []; simpl; rewrite app_nil_r;
         repeat split; try constructor; try tauto; try lia; try discriminate;
         fail).
  - set (st2 := mkState true true (processedTweets st) _).
    destruct (processTweetLinks_spec now (l :: ls) st2) as [Hev Hrec].
    destruct (scan_links_spec now (l :: ls) st2) as (_ & Hnd & Hiff & _ & Hlen).
    destruct (processTweetLinks now (l :: ls) st2) as [st3 evs] eqn:E.
    simpl in *.
    exists (newTweets (scan_links now (l :: ls) st2)).
    rewrite found_events_app, Hev. simpl. rewrite app_nil_r.
    split; [reflexivity|]. split; [exact Hnd|].
    split; [intros x Hx; now apply Hiff in Hx|].
    split; [intros _ x Hx Hn; apply Hiff; auto|].
    split; [exact Hlen | exact Hrec].
  - exists []. simpl. rewrite app_nil_r.
    repeat split; try constructor; try tauto; try lia.
    destruct (includes message _ || includes message _);
      [unfold handleAuthError; simpl; destruct reconnect as [[|]|]|];
      reflexivity.
Qed.

(** The record stays a set (no repetition) through every poll cycle. *)
Lemma checkGroupMessages_NoDup (now : Z) (fetch : Fetch) (st : State) :
  NoDup (processedTweets st) ->
  NoDup (processedTweets (fst (checkGroupMessages now fetch st))).
Proof.
  intros H.
  destruct (checkGroupMessages_spec now fetch st)
    as (batch & _ & Hnd & Hs & _ & _ & Hrec).
  simpl in Hrec. rewrite Hrec.
  destruct (_ && _ && _); [apply set_of_array_is_set|].
  apply NoDup_app; auto.
  intros a Ha Hb. apply Hs in Hb. tauto.
Qed.

End ListenerFacts.

(* ================================================================= *)
(** * AccountAssigner: what the dispatcher does to its accounts *)

Module AssignerFacts.
Import Js Assigner.

Local Open Scope Z_scope.

Lemma get_update {V : Type} (m : list (string * V)) (k : string) (f : V -> V)
  (k' : string) :
  get (update m k f) k' =
  if String.eqb k k' then option_map f (get m k') else get m k'.
Proof.
  induction m as [|[k0 v] m IH]; simpl.
  - now destruct (String.eqb k k').
  - destruct (String.eqb_spec k0 k) as [-> | Hk]; simpl.
    + destruct (String.eqb_spec k k') as [-> | Hk']; [reflexivity|].
      rewrite IH. now destruct (String.eqb_spec k k').
    + destruct (String.eqb_spec k0 k') as [-> | Hk'].
      * destruct (String.eqb_spec k k'); [congruence | reflexivity].
      * exact IH.
Qed.

Lemma get_In {V : Type} (m : list (string * V)) (k : string) (v : V) :
  get m k = Some v -> In (k, v) m.
Proof.
  induction m as [|[k0 v0] m IH]; simpl; [discriminate|].
  destruct (String.eqb_spec k0 k) as [-> | Hk].
  - intros [= ->]. now left.
  - intros H. right. auto.
Qed.

Lemma keys_update {V : Type} (m : list (string * V)) (k : string)
  (f : V -> V) : keys (update m k f) = keys m.
Proof.
  unfold keys, update. rewrite map_map. apply map_ext.
  intros [k0 v]. simpl. now destruct (String.eqb k0 k).
Qed.

Lemma keys_set {V : Type} (m : list (string * V)) (k : string) (v : V)
  (x : string) : In x (keys (set m k v)) <-> x = k \/ In x (keys m).
Proof.
  induction m as [|[k0 v0] m IH]; simpl.
  - intuition.
  - destruct (String.eqb_spec k0 k) as [-> | Hk]; simpl.
    + intuition.
    + rewrite IH. intuition.
Qed.

Create HintDb dispatcher.
#[local] Hint Constants Transparent : dispatcher.
#[local] Hint Constructors touch : dispatcher.

Lemma evolves_refl (m : list (string * Account)) : evolves m m.
Proof.
  right. induction m; constructor; auto. split; auto with dispatcher.
Qed.

Lemma same_slot_trans (m1 m2 m3 : list (string * Account)) :
  Forall2 same_slot m1 m2 -> Forall2 same_slot m2 m3 ->
  Forall2 same_slot m1 m3.
Proof.
  intros H. revert m3. induction H as [|e1 e2 m1 m2 [Hk Ht] _ IH];
    intros m3 H3; inversion H3 as [|? e3 ? m3' [Hk' Ht'] Hr]; subst;
    constructor; auto.
  split; [congruence | eauto with dispatcher].
Qed.

Lemma evolves_trans (m1 m2 m3 : list (string * Account)) :
  evolves m1 m2 -> evolves m2 m3 -> evolves m1 m3.
Proof.
  intros [-> | H12] [-> | H23]; try (now left).
  - inversion H23. now left.
  - right. eapply same_slot_trans; eauto.
Qed.

Lemma evolves_update (m m1 : list (string * Account)) (k : string)
  (f : Account -> Account) :
  evolves m m1 -> (forall a, touch a (f a)) -> evolves m (update m1 k f).
Proof.
  intros H Hf. eapply evolves_trans; [exact H|].
  right. clear H. induction m1 as [|[k0 a] m1 IH]; simpl; constructor; auto.
  destruct (String.eqb k0 k); split; simpl; auto with dispatcher.
Qed.

Lemma touch_decrease (a : Account) :
  touch a (if 0 <? workload a then set_workload (workload a - 1) a else a).
Proof.
  destruct (Z.ltb_spec 0 (workload a)); auto with dispatcher.
Qed.

Lemma touch_assign (a : Account) :
  touch a (set_workload (workload a + 1)
             (set_tasksAssigned (tasksAssigned a + 1) a)).
Proof.
  eapply touch_trans; [apply touch_tasksAssigned|].
  apply (touch_workload_up (set_tasksAssigned _ a)).
Qed.

Lemma touch_reset (a : Account) :
  touch a (set_errors 0 (set_repliesSent 0 (set_tasksAssigned 0 a))).
Proof.
  eapply touch_trans; [apply touch_tasksAssigned|].
  eapply touch_trans; [apply touch_repliesSent | apply touch_errors].
Qed.

#[local] Hint Resolve touch_decrease touch_assign touch_reset evolves_refl
  : dispatcher.

(** Solves [evolves m (update (... (update m k f) ...) k' f')]. *)
Ltac evolve :=
  repeat (apply evolves_update; [| intros; auto with dispatcher]);
  auto with dispatcher.

Lemma evolves_get (m m' : list (string * Account)) (k : string)
  (a' : Account) :
  evolves m m' -> get m' k = Some a' ->
  exists a, get m k = Some a /\ touch a a'.
Proof.
  intros [-> | H]; [discriminate|].
  induction H as [|[k1 a1] [k2 a2] m m' [Hk Ht] _ IH]; simpl; [discriminate|].
  simpl in Hk. subst k2.
  destruct (String.eqb k1 k); [intros [= <-]; eauto | exact IH].
Qed.

Lemma evolves_Forall (P : Account -> Prop) (m m' : list (string * Account)) :
  (forall a b, touch a b -> P a -> P b) ->
  evolves m m' ->
  Forall (fun e => P (snd e)) m -> Forall (fun e => P (snd e)) m'.
Proof.
  intros HP [-> | H]; [constructor|].
  induction H as [|e e' m m' [_ Ht] _ IH]; intros Hm; constructor;
    inversion Hm; subst; eauto.
Qed.

Lemma decreaseWorkload_evolves (k : string) (st : State) :
  evolves (activeAccounts st) (activeAccounts (decreaseWorkload k st)).
Proof. simpl. evolve. Qed.

Lemma handleTaskError_evolves (cfg : Settings) (task : Task) (msg : string)
  (st : State) :
  evolves (activeAccounts st)
    (activeAccounts (fst (handleTaskError cfg task msg st))).
Proof.
  unfold handleTaskError.
  set (k := accountId task).
  set (st1 := match get (activeAccounts st) k with
              | Some _ => _ | None => st end).
  assert (H1 : evolves (activeAccounts st) (activeAccounts st1)).
  { subst st1. destruct (get (activeAccounts st) k); simpl; evolve. }
  set (st2 := bump_totalErrors st1).
  assert (H2 : evolves (activeAccounts st) (activeAccounts st2)) by exact H1.
  clearbody st2. clear H1. clearbody st1.
  match goal with
  | |- context [let '(_, _) := ?x in _] =>
      assert (H3 : evolves (activeAccounts st) (activeAccounts (fst x)));
      [| destruct x as [st3 evs] ]
  end.
  { destruct (_ <? _); [|exact H2].
    destruct (selectBestAccount st2) as [[k' a']|]; [|exact H2].
    destruct (negb _); [|exact H2]. simpl. evolve. }
  simpl in H3.
  destruct (get (activeAccounts st3) k) as [a|]; [|exact H3].
  destruct (5 <=? errors a); [|exact H3].
  simpl. evolve.
Qed.

Lemma assign_one_evolves (now : Z) (st : State) (tweet : Tweet) :
  evolves (activeAccounts st) (activeAccounts (assign_one now st tweet)).
Proof.
  unfold assign_one.
  destruct (selectBestAccount st) as [[k a]|]; simpl; evolve.
Qed.

Lemma assign_loop_evolves (now : Z) (tweets : list Tweet) (st : State) :
  evolves (activeAccounts st)
    (activeAccounts (fold_left (assign_one now) tweets st)).
Proof.
  revert st. induction tweets as [|t ts IH]; intros st; simpl.
  - apply evolves_refl.
  - eapply evolves_trans; [apply assign_one_evolves | apply IH].
Qed.

Lemma processTask_begin_accounts (task : Task) (st : State) :
  activeAccounts (processTask_begin task st) = activeAccounts st.
Proof.
  unfold processTask_begin.
  destruct (get _ _) as [a|]; [destruct (status_eqb _ _)|]; reflexivity.
Qed.

Lemma loop_head_accounts (st : State) :
  activeAccounts (loop_head st) = activeAccounts st.
Proof.
  unfold loop_head. destruct (taskQueue st); [reflexivity|].
  now rewrite processTask_begin_accounts.
Qed.

Lemma processTaskQueue_accounts (st : State) :
  activeAccounts (processTaskQueue st) = activeAccounts st.
Proof.
  unfold processTaskQueue. destruct (_ || _); [reflexivity|].
  now rewrite loop_head_accounts.
Qed.

Lemma processTask_resume_evolves (cfg : Settings) (now : Z) (o : Outcome)
  (task : Task) (st : State) :
  evolves (activeAccounts st)
    (activeAccounts (fst (processTask_resume cfg now o task st))).
Proof.
  unfold processTask_resume.
  destruct o as [msg | clock d r]; [apply handleTaskError_evolves|].
  destruct (negb _); [simpl; evolve|].
  destruct r as [msg | err | reply [msg | | rid]];
    try apply handleTaskError_evolves; try (simpl; evolve; fail).
  - pose proof (handleTaskError_evolves cfg task err st) as H.
    destruct (handleTaskError cfg task err st) as [st1 evs]. simpl in *.
    evolve.
  - match goal with
    | |- context [handleTaskError cfg task ?m ?s] =>
        pose proof (handleTaskError_evolves cfg task m s) as H
    end.
    destruct (get _ _); [simpl; evolve|].
    eapply evolves_trans; [|exact H]. simpl. evolve.
Qed.

Lemma resetStats_evolves (st : State) :
  evolves (activeAccounts st) (activeAccounts (resetStats st)).
Proof.
  right. simpl. induction (activeAccounts st) as [|e m IH]; simpl;
    constructor; auto.
  split; simpl; auto with dispatcher.
Qed.

(** Every step of the dispatcher only touches the accounts of the pool, or
    empties it. *)
Lemma step_evolves (cfg : Settings) (op : Op) (st : State) :
  evolves (activeAccounts st) (activeAccounts (fst (step cfg op st))).
Proof.
  destruct op as [now tweets | now o | | |]; simpl.
  - unfold assignTweets. rewrite processTaskQueue_accounts.
    apply assign_loop_evolves.
  - destruct (inflight st) as [task|]; [|apply evolves_refl].
    apply (processTask_resume_evolves cfg now o task (with_inflight st None)).
  - destruct (inflight st); [apply evolves_refl|].
    destruct (processingQueue st); simpl;
      [rewrite loop_head_accounts|]; apply evolves_refl.
  - apply resetStats_evolves.
  - now left.
Qed.

Lemma run_evolves (cfg : Settings) (ops : list Op) (st : State) :
  evolves (activeAccounts st) (activeAccounts (fst (run cfg ops st))).
Proof.
  revert st. induction ops as [|op ops IH]; intros st; simpl.
  - apply evolves_refl.
  - pose proof (step_evolves cfg op st) as H1.
    destruct (step cfg op st) as [st1 evs1].
    specialize (IH st1). destruct (run cfg ops st1) as [st2 evs2].
    simpl in *. eapply evolves_trans; eauto.
Qed.

(** ** The per-account statistics cover the pool

    The methods read [this.stats.accountStats[id]] for ids of the pool
    without a check.  In every state that an initialized dispatcher reaches
    the entry exists, so that these accesses do not throw. *)

Lemma evolves_keys (m m' : list (string * Account)) :
  evolves m m' -> incl (keys m') (keys m).
Proof.
  intros [-> | H]; [intros x []|].
  induction H as [|e e' m m' [Hk _] _ IH]; simpl; [apply incl_refl|].
  rewrite Hk. intros x [<- | Hx]; [now left | right; auto].
Qed.

Lemma handleTaskError_stat_keys (cfg : Settings) (task : Task) (msg : string)
  (st : State) :
  stat_keys (fst (handleTaskError cfg task msg st)) = stat_keys st.
Proof.
  unfold handleTaskError.
  set (k := accountId task).
  set (st2 := bump_totalErrors _).
  assert (H2 : stat_keys st2 = stat_keys st).
  { subst st2. unfold stat_keys.
    destruct (get (activeAccounts st) k); simpl;
      rewrite ?keys_update; reflexivity. }
  clearbody st2.
  match goal with
  | |- context [let '(_, _) := ?x in _] =>
      assert (H3 : stat_keys (fst x) = stat_keys st);
      [| destruct x as [st3 evs] ]
  end.
  { destruct (retryCount _ <? maxRetries cfg); [|exact H2].
    destruct (selectBestAccount st2) as [[k' a']|]; [|exact H2].
    destruct (negb _); exact H2. }
  simpl in H3.
  destruct (get (activeAccounts st3) k) as [a|]; [|exact H3].
  destruct (5 <=? errors a); [|exact H3].
  unfold stat_keys in *. simpl. now rewrite keys_update.
Qed.

Lemma assign_loop_stat_keys (now : Z) (tweets : list Tweet) (st : State) :
  stat_keys (fold_left (assign_one now) tweets st) = stat_keys st.
Proof.
  revert st. induction tweets as [|t ts IH]; intros st; simpl; [reflexivity|].
  rewrite IH. unfold assign_one, stat_keys.
  destruct (selectBestAccount st) as [[k a]|]; simpl;
    rewrite ?keys_update; reflexivity.
Qed.

Lemma loop_head_stats (st : State) : stats (loop_head st) = stats st.
Proof.
  unfold loop_head, processTask_begin.
  destruct (taskQueue st); simpl; [reflexivity|].
  destruct (get _ _) as [a|]; [destruct (status_eqb _ _)|]; reflexivity.
Qed.

Lemma processTask_resume_stat_keys (cfg : Settings) (now : Z) (o : Outcome)
  (task : Task) (st : State) :
  stat_keys (fst (processTask_resume cfg now o task st)) = stat_keys st.
Proof.
  unfold processTask_resume.
  destruct o as [msg | clock d r]; [apply handleTaskError_stat_keys|].
  destruct (negb _); [reflexivity|].
  destruct r as [msg | err | reply [msg | | rid]];
    try apply handleTaskError_stat_keys; try reflexivity.
  - pose proof (handleTaskError_stat_keys cfg task err st) as H.
    destruct (handleTaskError cfg task err st) as [st1 evs]. exact H.
  - destruct (get _ _).
    + unfold stat_keys. simpl. now rewrite keys_update.
    + now rewrite handleTaskError_stat_keys.
Qed.

Lemma step_covered (cfg : Settings) (op : Op) (st : State) :
  covered st -> covered (fst (step cfg op st)).
Proof.
  intros H. unfold covered.
  destruct op as [now tweets | now o | | |].
  - eapply incl_tran; [apply evolves_keys, (step_evolves cfg)|].
    simpl. unfold assignTweets, processTaskQueue, stat_keys.
    destruct (_ || _); [|rewrite loop_head_stats];
      (eapply incl_tran; [exact H|]);
      rewrite <- (assign_loop_stat_keys now tweets st); apply incl_refl.
  - eapply incl_tran; [apply evolves_keys, (step_evolves cfg)|].
    simpl. destruct (inflight st) as [task|]; [|exact H].
    rewrite processTask_resume_stat_keys. exact H.
  - simpl. destruct (inflight st); [exact H|].
    destruct (processingQueue st); [|exact H]. simpl.
    unfold stat_keys. now rewrite loop_head_accounts, loop_head_stats.
  - simpl. unfold stat_keys, keys. simpl. rewrite !map_map. simpl.
    apply incl_refl.
  - intros x [].
Qed.

Lemma initialized_covered (sessions : list (string * Session)) :
  covered (initialized sessions).
Proof.
  unfold initialized, initialize. simpl.
  assert (H : forall st, covered st ->
                         covered (fold_left init_account sessions st)).
  { induction sessions as [|[k s] ss IH]; intros st Hst; simpl; [exact Hst|].
    apply IH. unfold init_account, covered, stat_keys. simpl.
    destruct s; simpl; [|exact Hst|exact Hst].
    intros x Hx. apply keys_set in Hx. apply keys_set.
    destruct Hx as [-> | Hx]; [now left | right; now apply Hst]. }
  apply H. intros x [].
Qed.

Lemma run_covered (cfg : Settings) (ops : list Op) (st : State) :
  covered st -> covered (fst (run cfg ops st)).
Proof.
  revert st. induction ops as [|op ops IH]; intros st H; simpl; [exact H|].
  pose proof (step_covered cfg op st H) as H1.
  destruct (step cfg op st) as [st1 evs1].
  specialize (IH st1 H1). now destruct (run cfg ops st1).
Qed.

End AssignerFacts.

(* ================================================================= *)
(** * AccountAssigner: selection of the best account *)

Module SelectFacts.
Import Js Assigner.

Local Open Scope Z_scope.

Section StableSort.

Variable A : Type.
Variable cmp : A -> A -> Z.
Hypothesis cmp_total : forall x y, cmp x y <= 0 \/ cmp y x <= 0.
Hypothesis cmp_trans : forall x y z, cmp x y <= 0 -> cmp y z <= 0 -> cmp x z <= 0.

(** The first element after sorting only depends on the first element of
    the sorted tail. *)
Lemma hd_insert_sorted (x : A) (l : list A) :
  hd_error (insert_sorted cmp x l) =
  Some match hd_error l with
       | None => x
       | Some h => if cmp x h <=? 0 then x else h
       end.
Proof.
  destruct l as [|h l]; simpl; [reflexivity|].
  now destruct (cmp x h <=? 0).
Qed.

Lemma hd_sort_least (l : list A) (m : A) :
  hd_error (sort cmp l) = Some m ->
  In m l /\ forall y, In y l -> cmp m y <= 0.
Proof.
  revert m. induction l as [|x l IH]; intros m; simpl; [discriminate|].
  rewrite hd_insert_sorted.
  destruct (hd_error (sort cmp l)) as [h|] eqn:E.
  - destruct (IH h eq_refl) as [Hin Hle].
    destruct (Z.leb_spec (cmp x h) 0) as [Hxh | Hxh]; intros [= <-].
    + split; [now left|]. intros y [<- | Hy].
      * destruct (cmp_total x x); assumption.
      * eauto.
    + split; [now right|]. intros y [<- | Hy]; [|auto].
      destruct (cmp_total x h); [lia | assumption].
  - intros [= <-]. split; [now left|].
    destruct l as [|x' l]; [|simpl in E; rewrite hd_insert_sorted in E;
                              discriminate].
    intros y [<- | []]. destruct (cmp_total x x); assumption.
Qed.

Lemma hd_sort_some (l : list A) :
  l <> [] -> exists m, hd_error (sort cmp l) = Some m.
Proof.
  destruct l as [|x l]; [congruence|]. intros _. simpl.
  rewrite hd_insert_sorted. eauto.
Qed.

End StableSort.

(** The comparator orders by workload, then by the time of last use. *)
Lemma compareAccounts_le (a b : string * Account) :
  compareAccounts a b <= 0 <->
  workload (snd a) < workload (snd b) \/
  (workload (snd a) = workload (snd b) /\
   lastUsedTime (snd a) <= lastUsedTime (snd b)).
Proof.
  unfold compareAccounts.
  destruct (Z.eqb_spec (workload (snd a)) (workload (snd b))); simpl; lia.
Qed.

Lemma compareAccounts_total (a b : string * Account) :
  compareAccounts a b <= 0 \/ compareAccounts b a <= 0.
Proof. rewrite !compareAccounts_le. lia. Qed.

Lemma compareAccounts_trans (a b c : string * Account) :
  compareAccounts a b <= 0 -> compareAccounts b c <= 0 ->
  compareAccounts a c <= 0.
Proof. rewrite !compareAccounts_le. lia. Qed.

Lemma selectBestAccount_least (st : State) (e : string * Account) :
  selectBestAccount st = Some e ->
  In e (activeAccounts st) /\ status (snd e) = Active /\
  forall e', In e' (activeAccounts st) -> status (snd e') = Active ->
    compareAccounts e e' <= 0.
Proof.
  unfold selectBestAccount, availableAccounts. intros H.
  apply (hd_sort_least _ _ compareAccounts_total compareAccounts_trans) in H.
  destruct H as [Hin Hle]. apply filter_In in Hin. destruct Hin as [Hin Hs].
  repeat split; auto.
  - now destruct (status (snd e)).
  - intros e' He' Hs'. apply Hle, filter_In. split; [assumption|].
    now rewrite Hs'.
Qed.

Lemma selectBestAccount_some (st : State) (e : string * Account) :
  In e (activeAccounts st) -> status (snd e) = Active ->
  exists e', selectBestAccount st = Some e'.
Proof.
  intros Hin Hs. apply hd_sort_some. intros Hnil.
  assert (H : In e (availableAccounts st)).
  { apply filter_In. split; [assumption | now rewrite Hs]. }
  rewrite Hnil in H. destruct H.
Qed.

End SelectFacts.

(* ================================================================= *)
(** * AccountAssigner: the error path and the queue *)

Module QueueFacts.
Import Js Assigner AssignerFacts.

Local Open Scope Z_scope.

Lemma failed_tasks_app (e1 e2 : list Event) :
  failed_tasks (e1 ++ e2) = failed_tasks e1 ++ failed_tasks e2.
Proof. apply flat_map_app. Qed.

(** The account of the failed task after [handleTaskError]: one more error,
    one less outstanding task (if it had any), and the error status from
    five errors on. *)
Lemma handleTaskError_failed_account (cfg : Settings) (task : Task)
  (msg : string) (st : State) (a : Account) :
  get (activeAccounts st) (accountId task) = Some a ->
  get (activeAccounts (fst (handleTaskError cfg task msg st))) (accountId task)
  = Some (mkAccount (if 5 <=? errors a + 1 then Errored else status a)
            (lastUsed a) (tasksAssigned a) (repliesSent a) (errors a + 1)
            (if 0 <? workload a then workload a - 1 else workload a)).
Proof.
  intros Ha. unfold handleTaskError. rewrite Ha.
  set (k := accountId task) in *.
  set (a1 := mkAccount (status a) (lastUsed a) (tasksAssigned a)
               (repliesSent a) (errors a + 1)
               (if 0 <? workload a then workload a - 1 else workload a)).
  set (st2 := bump_totalErrors _).
  assert (H2 : get (activeAccounts st2) k = Some a1).
  { subst st2. simpl. rewrite !get_update, String.eqb_refl, Ha. simpl.
    subst a1. now destruct (0 <? workload a). }
  clearbody st2.
  match goal with
  | |- context [let '(_, _) := ?x in _] =>
      assert (H3 : get (activeAccounts (fst x)) k = Some a1);
      [| destruct x as [st3 evs] ]
  end.
  { destruct (retryCount _ <? maxRetries cfg); [|exact H2].
    destruct (selectBestAccount st2) as [[k' a']|]; [|exact H2].
    destruct (String.eqb k' k) eqn:E; simpl; [exact H2|].
    now rewrite get_update, E. }
  simpl in H3. rewrite H3. subst a1. simpl.
  destruct (5 <=? errors a + 1); simpl; [|exact H3].
  now rewrite get_update, String.eqb_refl, H3.
Qed.

(** What [handleTaskError] does to the queue, to the task in flight and to
    the failure events. *)
Lemma handleTaskError_queue (cfg : Settings) (task : Task) (msg : string)
  (st : State) :
  let r := handleTaskError cfg task msg st in
  inflight (fst r) = inflight st /\
  (retryCount task + 1 < maxRetries cfg ->
   failed_tasks (snd r) = [] /\
   (taskQueue (fst r) = taskQueue st \/
    exists k', taskQueue (fst r) =
               taskQueue st ++ [mkTask (tweetInfo task) k' (createdAt task)
                                  (retryCount task + 1)])) /\
  (maxRetries cfg <= retryCount task + 1 ->
   failed_tasks (snd r) = [set_retryCount (retryCount task + 1) task] /\
   taskQueue (fst r) = taskQueue st).
Proof.
  unfold handleTaskError.
  set (k := accountId task).
  set (st2 := bump_totalErrors _).
  assert (Hq : taskQueue st2 = taskQueue st /\ inflight st2 = inflight st).
  { subst st2. destruct (get (activeAccounts st) k); split; reflexivity. }
  destruct Hq as [Hq Hi]. clearbody st2.
  set (task1 := set_retryCount (retryCount task + 1) task).
  match goal with
  | |- context [let '(_, _) := ?x in _] => set (x3 := x)
  end.
  assert (H3 : inflight (fst x3) = inflight st /\
               (retryCount task + 1 < maxRetries cfg ->
                failed_tasks (snd x3) = [] /\
                (taskQueue (fst x3) = taskQueue st \/
                 exists k', taskQueue (fst x3) =
                            taskQueue st ++
                              [mkTask (tweetInfo task) k' (createdAt task)
                                 (retryCount task + 1)])) /\
               (maxRetries cfg <= retryCount task + 1 ->
                failed_tasks (snd x3) = [task1] /\
                taskQueue (fst x3) = taskQueue st)).
  { subst x3. simpl retryCount.
    destruct (Z.ltb_spec (retryCount task + 1) (maxRetries cfg)) as [Hlt|Hge].
    - destruct (selectBestAccount st2) as [[k' a']|]; simpl.
      + destruct (negb _); simpl; (split; [assumption|]);
          (split; [intros _ | lia]); (split; [reflexivity|]);
          [right; exists k'; now rewrite Hq | now left].
      + split; [assumption|]. split; [intros _|lia]. split; auto.
    - simpl. split; [assumption|]. split; [lia|]. auto. }
  clearbody x3. destruct x3 as [st3 evs]. simpl in H3.
  destruct H3 as (Hi3 & Hlt & Hge).
  assert (Hev : forall e, failed_tasks (evs ++ [AccountError k e])
                          = failed_tasks evs).
  { intros e. rewrite failed_tasks_app. simpl. apply app_nil_r. }
  destruct (get (activeAccounts st3) k) as [a|]; [|simpl; auto].
  destruct (5 <=? errors a); simpl; [rewrite Hev|]; auto.
Qed.

Lemma handleTaskError_ok (cfg : Settings) (task : Task) (msg : string)
  (st : State) :
  task_ok cfg task -> queue_ok cfg st ->
  queue_ok cfg (fst (handleTaskError cfg task msg st)) /\
  failures_ok cfg (snd (handleTaskError cfg task msg st)).
Proof.
  intros [Ht0 Ht1] [Hq Hi].
  destruct (handleTaskError_queue cfg task msg st) as (Hin & Hlt & Hge).
  unfold queue_ok, failures_ok. rewrite Hin.
  destruct (Z.lt_ge_cases (retryCount task + 1) (maxRetries cfg)) as [H|H].
  - destruct (Hlt H) as [-> [-> | [k' ->]]];
      (split; [split; [|exact Hi] | constructor]); [exact Hq|].
    apply Forall_app. split; [assumption|].
    constructor; [|constructor]. split; simpl; lia.
  - destruct (Hge H) as [-> ->].
    split; [split; [exact Hq | exact Hi]|].
    constructor; [|constructor]. simpl. lia.
Qed.

Lemma decreaseWorkload_queue (k : string) (st : State) :
  taskQueue (decreaseWorkload k st) = taskQueue st /\
  inflight (decreaseWorkload k st) = inflight st.
Proof. split; reflexivity. Qed.

Lemma processTask_resume_ok (cfg : Settings) (now : Z) (o : Outcome)
  (task : Task) (st : State) :
  task_ok cfg task -> queue_ok cfg st ->
  queue_ok cfg (fst (processTask_resume cfg now o task st)) /\
  failures_ok cfg (snd (processTask_resume cfg now o task st)).
Proof.
  intros Ht Hq. unfold processTask_resume.
  assert (Hnone : forall st', taskQueue st' = taskQueue st ->
                              inflight st' = inflight st ->
                              queue_ok cfg st' /\ failures_ok cfg []).
  { intros st' H1 H2. unfold queue_ok. rewrite H1, H2.
    split; [exact Hq | constructor]. }
  destruct o as [msg | clock d r]; [now apply handleTaskError_ok|].
  destruct (negb _); [now apply Hnone|].
  destruct r as [msg | err | reply [msg | | rid]];
    try (now apply handleTaskError_ok); try (now apply Hnone).
  - destruct (handleTaskError_ok cfg task err st Ht Hq) as [H1 H2].
    destruct (handleTaskError cfg task err st) as [st1 evs]. simpl in *.
    split; [exact H1 | exact H2].
  - destruct (get _ _); [now apply Hnone|].
    apply handleTaskError_ok; [exact Ht | exact Hq].
Qed.

Lemma assign_one_ok (cfg : Settings) (now : Z) (st : State) (tweet : Tweet) :
  0 < maxRetries cfg -> queue_ok cfg st ->
  queue_ok cfg (assign_one now st tweet).
Proof.
  intros Hmax [Hq Hi]. unfold assign_one.
  destruct (selectBestAccount st) as [[k a]|]; [|now split].
  split; simpl; [|exact Hi].
  apply Forall_app. split; [assumption|].
  repeat constructor; simpl; lia.
Qed.

Lemma loop_head_ok (cfg : Settings) (st : State) :
  queue_ok cfg st -> queue_ok cfg (loop_head st).
Proof.
  intros [Hq Hi]. unfold loop_head.
  destruct (taskQueue st) as [|t q] eqn:E.
  { split; simpl; [rewrite E; constructor | exact Hi]. }
  inversion Hq as [|? ? Ht Hq']; subst.
  unfold processTask_begin. simpl.
  destruct (get _ _) as [a|]; [destruct (status_eqb _ _)|];
    split; simpl; auto.
  intros t' [= <-]. exact Ht.
Qed.

Lemma assignTweets_ok (cfg : Settings) (now : Z) (tweets : list Tweet)
  (st : State) :
  0 < maxRetries cfg -> queue_ok cfg st ->
  queue_ok cfg (assignTweets now tweets st).
Proof.
  intros Hmax Hq. unfold assignTweets.
  assert (H : queue_ok cfg (fold_left (assign_one now) tweets st)).
  { revert st Hq. induction tweets as [|t ts IH]; intros st Hq; simpl;
      auto using assign_one_ok. }
  unfold processTaskQueue. destruct (_ || _); [exact H|].
  apply loop_head_ok. exact H.
Qed.

Lemma step_ok (cfg : Settings) (op : Op) (st : State) :
  0 < maxRetries cfg -> queue_ok cfg st ->
  queue_ok cfg (fst (step cfg op st)) /\ failures_ok cfg (snd (step cfg op st)).
Proof.
  intros Hmax Hq.
  destruct op as [now tweets | now o | | |]; simpl.
  - split; [now apply assignTweets_ok | constructor].
  - destruct (inflight st) as [task|] eqn:E; [|split; [exact Hq|constructor]].
    apply processTask_resume_ok.
    + destruct Hq as [_ Hi]. auto.
    + destruct Hq as [Hq _]. split; [exact Hq | discriminate].
  - destruct (inflight st); [split; [exact Hq|constructor]|].
    destruct (processingQueue st); simpl;
      (split; [|constructor]); auto using loop_head_ok.
  - split; [exact Hq | constructor].
  - destruct Hq as [_ Hi]. split; [split; [constructor | exact Hi]|constructor].
Qed.

Lemma run_ok (cfg : Settings) (ops : list Op) (st : State) :
  0 < maxRetries cfg -> queue_ok cfg st ->
  queue_ok cfg (fst (run cfg ops st)) /\ failures_ok cfg (snd (run cfg ops st)).
Proof.
  intros Hmax. revert st. induction ops as [|op ops IH]; intros st Hq; simpl.
  - split; [exact Hq | constructor].
  - destruct (step_ok cfg op st Hmax Hq) as [H1 H2].
    destruct (step cfg op st) as [st1 evs1].
    destruct (IH st1 H1) as [H3 H4].
    destruct (run cfg ops st1) as [st2 evs2]. simpl in *.
    split; [exact H3|]. unfold failures_ok in *.
    rewrite failed_tasks_app. apply Forall_app. now split.
Qed.

Lemma initialize_queue (sessions : list (string * Session)) (st : State) :
  taskQueue (fold_left init_account sessions st) = taskQueue st /\
  inflight (fold_left init_account sessions st) = inflight st.
Proof.
  revert st. induction sessions as [|[k s] ss IH]; intros st; simpl; auto.
  destruct (IH (init_account st (k, s))) as [-> ->].
  unfold init_account. simpl. destruct s; auto.
Qed.

Lemma initialized_ok (cfg : Settings) (sessions : list (string * Session)) :
  queue_ok cfg (initialized sessions).
Proof.
  unfold initialized, initialize, queue_ok. simpl.
  destruct (initialize_queue sessions new) as [-> ->]. simpl.
  split; [constructor | discriminate].
Qed.

End QueueFacts.

(* ================================================================= *)
(** * AccountAssigner: the attempts made on a tweet *)

Module RetryFacts.
Import Js Assigner AssignerMore AssignerFacts QueueFacts.

Local Open Scope Z_scope.

Lemma weigh_app (w : Task -> Z) (s : string) (l1 l2 : list Task) :
  weigh w s (l1 ++ l2) = weigh w s l1 + weigh w s l2.
Proof.
  induction l1 as [|t l1 IH]; simpl; [reflexivity|].
  rewrite IH. destruct (String.eqb _ s); lia.
Qed.

Lemma weigh_cons (w : Task -> Z) (s : string) (t : Task) (l : list Task) :
  weigh w s (t :: l)
  = (if String.eqb (tweet_id (tweetInfo t)) s then w t else 0) + weigh w s l.
Proof. simpl. fold (weigh w s l). destruct (String.eqb _ s); lia. Qed.

Lemma attempts_on_one (s : string) (t : Task) :
  Z.of_nat (length (attempts_on s [t]))
  = if String.eqb (tweet_id (tweetInfo t)) s then 1 else 0.
Proof. simpl. now destruct (String.eqb _ s). Qed.

Lemma weigh_nonneg (w : Task -> Z) (P : Task -> Prop) (s : string)
  (l : list Task) :
  (forall t, P t -> 0 <= w t) -> Forall P l -> 0 <= weigh w s l.
Proof.
  intros Hw H. induction H as [|t l Ht _ IH]; simpl; [lia|].
  specialize (Hw t Ht). destruct (String.eqb _ s); lia.
Qed.

Lemma attempts_on_app (s : string) (l1 l2 : list Task) :
  attempts_on s (l1 ++ l2) = attempts_on s l1 ++ attempts_on s l2.
Proof. apply filter_app. Qed.

Lemma pending_ok (cfg : Settings) (st : State) :
  queue_ok cfg st -> Forall (task_ok cfg) (pending st).
Proof.
  intros [Hq Hi]. unfold pending. apply Forall_app. split; [|exact Hq].
  destruct (inflight st) as [t|]; constructor; auto.
Qed.

(** What an attempt does to the queue and to the failure events: a failed
    attempt is what [handleTaskError] makes of it, any other attempt leaves
    the queue alone and reports no failure. *)
Lemma processTask_resume_queue (cfg : Settings) (now : Z) (o : Outcome)
  (task : Task) (st : State) :
  let r := processTask_resume cfg now o task st in
  inflight (fst r) = inflight st /\
  match failure cfg o task st with
  | Some _ =>
      (retryCount task + 1 < maxRetries cfg ->
       failed_tasks (snd r) = [] /\
       (taskQueue (fst r) = taskQueue st \/
        exists k', taskQueue (fst r) =
                   taskQueue st ++ [mkTask (tweetInfo task) k' (createdAt task)
                                      (retryCount task + 1)])) /\
      (maxRetries cfg <= retryCount task + 1 ->
       failed_tasks (snd r) = [set_retryCount (retryCount task + 1) task] /\
       taskQueue (fst r) = taskQueue st)
  | None => failed_tasks (snd r) = [] /\ taskQueue (fst r) = taskQueue st
  end.
Proof.
  unfold processTask_resume, failure.
  destruct o as [msg | clock d r]; [apply handleTaskError_queue|].
  destruct (negb _); [simpl; auto|].
  destruct r as [msg | err | reply [msg | | rid]];
    try apply handleTaskError_queue; try (simpl; auto; fail).
  - pose proof (handleTaskError_queue cfg task err st) as H.
    destruct (handleTaskError cfg task err st) as [st1 evs]. exact H.
  - match goal with
    | |- context [get (accountStats (stats ?x)) _] =>
        change (accountStats (stats x)) with (accountStats (stats st));
        set (st1 := x)
    end.
    destruct (get (accountStats (stats st)) (accountId task));
      [simpl; auto|].
    apply (handleTaskError_queue cfg task _ st1).
Qed.

Section Weighted.

Variable cfg : Settings.
Variable w : Task -> Z.
Variable top : Z.
Variable s : string.

Hypothesis w_nonneg : forall t, task_ok cfg t -> 0 <= w t.
Hypothesis w_new : forall tweet k now, w (mkTask tweet k now 0) <= top.
Hypothesis top_nonneg : 0 <= top.
Hypothesis positive : 0 < maxRetries cfg.

Lemma loop_head_weigh (st : State) :
  queue_ok cfg st ->
  weigh w s (pending (loop_head st)) <= weigh w s (pending st).
Proof.
  intros Hq. pose proof (pending_ok cfg st Hq) as Hp.
  unfold loop_head, pending in *.
  destruct (taskQueue st) as [|t q] eqn:E; simpl; [rewrite E; lia|].
  apply Forall_app in Hp. destruct Hp as [Hi Hq'].
  inversion Hq' as [|? ? Ht Hrest]; subst.
  pose proof (weigh_nonneg w _ s _ w_nonneg Hi) as H1.
  pose proof (w_nonneg t Ht) as H2.
  unfold processTask_begin. simpl.
  rewrite !weigh_app in *. simpl.
  destruct (get _ _) as [a|]; [destruct (status_eqb _ _)|]; simpl;
    rewrite ?weigh_app; simpl; destruct (String.eqb _ s); lia.
Qed.

Lemma processTaskQueue_weigh (st : State) :
  queue_ok cfg st ->
  weigh w s (pending (processTaskQueue st)) <= weigh w s (pending st).
Proof.
  intros Hq. unfold processTaskQueue.
  destruct (_ || _); [lia|].
  apply (loop_head_weigh (with_processing st true)). exact Hq.
Qed.

Lemma assign_one_weigh (now : Z) (st : State) (tw : Tweet) :
  weigh w s (pending (assign_one now st tw))
  <= weigh w s (pending st)
     + (if String.eqb (tweet_id tw) s then top else 0).
Proof.
  unfold assign_one.
  destruct (selectBestAccount st) as [[k a]|].
  - unfold pending. simpl. rewrite !weigh_app. simpl.
    pose proof (w_new tw k now).
    destruct (String.eqb (tweet_id tw) s); lia.
  - destruct (String.eqb (tweet_id tw) s); lia.
Qed.

Lemma assign_all_weigh (now : Z) (tweets : list Tweet) (st : State) :
  queue_ok cfg st ->
  queue_ok cfg (fold_left (assign_one now) tweets st) /\
  weigh w s (pending (fold_left (assign_one now) tweets st))
  <= weigh w s (pending st)
     + top * Z.of_nat (count_occ string_dec (map tweet_id tweets) s).
Proof.
  revert st. induction tweets as [|tw tweets IH]; intros st Hq; simpl.
  - split; [exact Hq | lia].
  - pose proof (assign_one_ok cfg now st tw positive Hq) as Hq1.
    destruct (IH _ Hq1) as [Hq2 H].
    split; [exact Hq2|].
    pose proof (assign_one_weigh now st tw) as H1.
    destruct (string_dec (tweet_id tw) s) as [Heq|Hne].
    + apply String.eqb_eq in Heq. rewrite Heq in H1. lia.
    + apply String.eqb_neq in Hne. rewrite Hne in H1. lia.
Qed.

(** The steps that end no task: what the pending tasks on a tweet weigh
    grows by at most [top] for each time the tweet is handed over. *)
Lemma step_weigh (op : Op) (st : State) :
  queue_ok cfg st ->
  attempted op st = [] ->
  weigh w s (pending (fst (step cfg op st)))
  <= weigh w s (pending st)
     + top * Z.of_nat (count_occ string_dec (assigned_ids [op]) s).
Proof.
  intros Hq Hnone.
  destruct op as [now tweets | now o | | |]; simpl;
    rewrite ?app_nil_r; cbn [count_occ Z.of_nat]; rewrite ?Z.mul_0_r, ?Z.add_0_r.
  - unfold assignTweets.
    destruct (assign_all_weigh now tweets st Hq) as [Hq1 H].
    pose proof (processTaskQueue_weigh _ Hq1). lia.
  - unfold attempted in Hnone.
    destruct (inflight st); [discriminate | simpl; lia].
  - destruct (inflight st) eqn:E; [simpl; lia|].
    destruct (processingQueue st); simpl; [|lia].
    now apply loop_head_weigh.
  - unfold pending. simpl. lia.
  - pose proof (pending_ok cfg st Hq) as Hp.
    unfold pending in *. simpl. rewrite app_nil_r, weigh_app.
    apply Forall_app in Hp. destruct Hp as [_ Hp].
    pose proof (weigh_nonneg w _ s _ w_nonneg Hp). lia.
Qed.

End Weighted.

(** The attempts of a run, one step after the other. *)
Lemma attempts_step (cfg : Settings) (op : Op) (ops : list Op) (st : State) :
  attempts cfg (op :: ops) st
  = attempted op st ++ attempts cfg ops (fst (step cfg op st)).
Proof. reflexivity. Qed.

Lemma run_step (cfg : Settings) (op : Op) (ops : list Op) (st : State) :
  snd (run cfg (op :: ops) st)
  = snd (step cfg op st) ++ snd (run cfg ops (fst (step cfg op st))).
Proof.
  cbn [run]. destruct (step cfg op st) as [st1 evs1].
  cbn [fst snd]. now destruct (run cfg ops st1).
Qed.

Lemma assigned_ids_step (op : Op) (ops : list Op) (s : string) :
  count_occ string_dec (assigned_ids (op :: ops)) s
  = (count_occ string_dec (assigned_ids [op]) s
     + count_occ string_dec (assigned_ids ops) s)%nat.
Proof.
  unfold assigned_ids. simpl. rewrite app_nil_r. apply count_occ_app.
Qed.

(** Every attempt uses up one of the attempts that the task has left. *)
Lemma step_attempts_left (cfg : Settings) (s : string) (op : Op)
  (st : State) :
  0 < maxRetries cfg -> queue_ok cfg st ->
  Z.of_nat (length (attempts_on s (attempted op st)))
  + weigh (attempts_left cfg) s (pending (fst (step cfg op st)))
  <= weigh (attempts_left cfg) s (pending st)
     + maxRetries cfg
       * Z.of_nat (count_occ string_dec (assigned_ids [op]) s).
Proof.
  intros Hmax Hq.
  assert (Hw : forall t, task_ok cfg t -> 0 <= attempts_left cfg t).
  { intros t [H0 H1]. unfold attempts_left. lia. }
  destruct (attempted op st) as [|task l] eqn:Ea.
  { simpl. apply step_weigh with (cfg := cfg); auto; try lia.
    intros tw k now. unfold attempts_left. simpl. lia. }
  unfold attempted in Ea.
  destruct op as [now tweets | now o | | |]; try discriminate.
  destruct (inflight st) as [task'|] eqn:Ei; [|discriminate].
  injection Ea as <- <-.
  assert (Ht : task_ok cfg task') by (destruct Hq as [_ Hi]; auto).
  unfold step. rewrite Ei.
  destruct (processTask_resume_queue cfg now o task' (with_inflight st None))
    as [Hin Hcase].
  cbv zeta in Hin, Hcase. simpl taskQueue in Hcase. simpl inflight in Hin.
  unfold pending at 1. rewrite Hin. simpl app.
  unfold pending at 1. rewrite Ei. simpl app.
  rewrite weigh_cons, attempts_on_one.
  cbn [count_occ Z.of_nat]. rewrite Z.mul_0_r, Z.add_0_r.
  destruct Ht as [Ht0 Ht1].
  assert (Hgoal :
    taskQueue (fst (processTask_resume cfg now o task' (with_inflight st None)))
    = taskQueue st \/
    (retryCount task' + 1 < maxRetries cfg /\
     exists k', taskQueue (fst (processTask_resume cfg now o task'
                                  (with_inflight st None)))
                = taskQueue st ++ [mkTask (tweetInfo task') k'
                                     (createdAt task') (retryCount task' + 1)])).
  { destruct (failure cfg o task' (with_inflight st None)).
    - destruct Hcase as [Hlt Hge].
      destruct (Z.lt_ge_cases (retryCount task' + 1) (maxRetries cfg)) as [H|H].
      + destruct (Hlt H) as [_ [Hs | Hx]]; [now left | right; now split].
      + left. apply Hge. exact H.
    - left. apply Hcase. }
  destruct Hgoal as [-> | [Hlt [k' ->]]].
  - unfold attempts_left at 2.
    destruct (String.eqb (tweet_id (tweetInfo task')) s); lia.
  - rewrite weigh_app, weigh_cons. cbn [weigh fold_right tweetInfo].
    unfold attempts_left at 2 3. cbn [retryCount].
    destruct (String.eqb (tweet_id (tweetInfo task')) s); lia.
Qed.

Lemma failures_on_app (s : string) (e1 e2 : list Event) :
  failures_on s (e1 ++ e2) = failures_on s e1 ++ failures_on s e2.
Proof.
  unfold failures_on. rewrite failed_tasks_app. apply attempts_on_app.
Qed.

(** A task is reported as failed when it ends for good. *)
Lemma step_failures (cfg : Settings) (s : string) (op : Op) (st : State) :
  0 < maxRetries cfg -> queue_ok cfg st ->
  Z.of_nat (length (failures_on s (snd (step cfg op st))))
  + weigh (fun _ => 1) s (pending (fst (step cfg op st)))
  <= weigh (fun _ => 1) s (pending st)
     + 1 * Z.of_nat (count_occ string_dec (assigned_ids [op]) s).
Proof.
  intros Hmax Hq.
  destruct (attempted op st) as [|task l] eqn:Ea.
  { assert (He : snd (step cfg op st) = []).
    { unfold attempted in Ea.
      destruct op as [now tweets | now o | | |]; simpl; try reflexivity.
      - destruct (inflight st); [discriminate | reflexivity].
      - destruct (inflight st); [reflexivity|].
        destruct (processingQueue st); reflexivity. }
    rewrite He. cbn [failures_on failed_tasks flat_map attempts_on filter
                     length Z.of_nat Z.add].
    apply step_weigh with (cfg := cfg); auto; try lia. }
  unfold attempted in Ea.
  destruct op as [now tweets | now o | | |]; try discriminate.
  destruct (inflight st) as [task'|] eqn:Ei; [|discriminate].
  injection Ea as <- <-.
  unfold step. rewrite Ei.
  destruct (processTask_resume_queue cfg now o task' (with_inflight st None))
    as [Hin Hcase].
  cbv zeta in Hin, Hcase. simpl taskQueue in Hcase. simpl inflight in Hin.
  unfold pending at 1. rewrite Hin. simpl app.
  unfold pending at 1. rewrite Ei. simpl app.
  rewrite weigh_cons.
  cbn [count_occ Z.of_nat]. rewrite Z.mul_0_r, Z.add_0_r.
  unfold failures_on.
  destruct (failure cfg o task' (with_inflight st None)).
  - destruct Hcase as [Hlt Hge].
    destruct (Z.lt_ge_cases (retryCount task' + 1) (maxRetries cfg)) as [H|H].
    + destruct (Hlt H) as [-> [-> | [k' ->]]];
        cbn [attempts_on filter length Z.of_nat].
      * destruct (String.eqb _ s); lia.
      * rewrite weigh_app, weigh_cons. cbn [weigh fold_right tweetInfo].
        destruct (String.eqb _ s); lia.
    + destruct (Hge H) as [-> ->]. rewrite attempts_on_one.
      cbn [set_retryCount tweetInfo].
      destruct (String.eqb _ s); lia.
  - destruct Hcase as [-> ->]. cbn [attempts_on filter length Z.of_nat].
    destruct (String.eqb _ s); lia.
Qed.

Lemma initialized_pending (sessions : list (string * Session)) :
  pending (initialized sessions) = [].
Proof.
  unfold pending, initialized, initialize. simpl.
  destruct (initialize_queue sessions new) as [-> ->]. reflexivity.
Qed.

(** Over a run: the attempts on a tweet, and the failures reported for it,
    against what the pending tasks have left and the times the tweet is
    still to be handed over. *)
Lemma run_attempts (cfg : Settings) (s : string) (ops : list Op) :
  0 < maxRetries cfg ->
  forall st,
    queue_ok cfg st ->
    Z.of_nat (length (attempts_on s (attempts cfg ops st)))
    <= weigh (attempts_left cfg) s (pending st)
       + maxRetries cfg * Z.of_nat (count_occ string_dec (assigned_ids ops) s).
Proof.
  intros Hmax. induction ops as [|op ops IH]; intros st Hq.
  - simpl.
    assert (0 <= weigh (attempts_left cfg) s (pending st)); [|lia].
    apply weigh_nonneg with (P := task_ok cfg); [|now apply pending_ok].
    intros t [H0 H1]. unfold attempts_left. lia.
  - rewrite attempts_step, attempts_on_app, length_app, assigned_ids_step.
    pose proof (step_attempts_left cfg s op st Hmax Hq) as H1.
    destruct (step_ok cfg op st Hmax Hq) as [Hq1 _].
    specialize (IH _ Hq1). lia.
Qed.

Lemma run_failures (cfg : Settings) (s : string) (ops : list Op) :
  0 < maxRetries cfg ->
  forall st,
    queue_ok cfg st ->
    Z.of_nat (length (failures_on s (snd (run cfg ops st))))
    <= weigh (fun _ => 1) s (pending st)
       + Z.of_nat (count_occ string_dec (assigned_ids ops) s).
Proof.
  intros Hmax. induction ops as [|op ops IH]; intros st Hq.
  - simpl.
    assert (0 <= weigh (fun _ => 1) s (pending st)); [|lia].
    apply weigh_nonneg with (P := task_ok cfg); [|now apply pending_ok].
    intros; lia.
  - rewrite assigned_ids_step.
    pose proof (step_failures cfg s op st Hmax Hq) as H1.
    destruct (step_ok cfg op st Hmax Hq) as [Hq1 _].
    specialize (IH _ Hq1).
    rewrite run_step, failures_on_app, length_app. rewrite Z.mul_1_l in H1.
    lia.
Qed.

(** The tasks in flight at the attempts of a run are within their
    budget. *)
Lemma attempts_ok (cfg : Settings) (ops : list Op) :
  0 < maxRetries cfg ->
  forall st, queue_ok cfg st -> Forall (task_ok cfg) (attempts cfg ops st).
Proof.
  intros Hmax. induction ops as [|op ops IH]; intros st Hq; [constructor|].
  rewrite attempts_step. apply Forall_app. split.
  - unfold attempted. destruct op; try constructor.
    destruct (inflight st) as [t|] eqn:E; constructor; [|constructor].
    destruct Hq as [_ Hi]. auto.
  - apply IH. now destruct (step_ok cfg op st Hmax Hq).
Qed.

End RetryFacts.

(* ================================================================= *)
(** * AccountAssigner: the properties of the specification *)

Module AssignerSpec.
Import Js Assigner AssignerFacts SelectFacts QueueFacts.

Local Open Scope Z_scope.

(** ** Load balancing *)

(** C3.  When some account is active, [selectBestAccount] returns an active
    account of the pool whose workload is minimal among the active ones
    and, among those of the same workload, whose last use is the earliest,
    a never-used account sorting before any used one. *)
Theorem select_least_loaded (st : State) :
  stamped st ->
  (exists e, In e (activeAccounts st) /\ status (snd e) = Active) ->
  exists k a,
    selectBestAccount st = Some (k, a) /\
    In (k, a) (activeAccounts st) /\ status a = Active /\
    forall k' a', In (k', a') (activeAccounts st) -> status a' = Active ->
      workload a <= workload a' /\
      (workload a = workload a' ->
       earlier_or_never (lastUsed a) (lastUsed a')).
Proof.
  intros Hst [e [Hin Hact]].
  destruct (selectBestAccount_some st e Hin Hact) as [[k a] Hsel].
  destruct (selectBestAccount_least st (k, a) Hsel) as (Hk & Ha & Hle).
  exists k, a.
  split; [exact Hsel|]. split; [exact Hk|]. split; [exact Ha|].
  intros k' a' Hin' Hact'.
  specialize (Hle (k', a') Hin' Hact'). apply compareAccounts_le in Hle.
  simpl in Hle. split; [lia|].
  intros Heq.
  assert (Ht : lastUsedTime a <= lastUsedTime a') by lia.
  unfold stamped in Hst. rewrite Forall_forall in Hst.
  pose proof (Hst _ Hk) as Sa. simpl in Sa.
  unfold lastUsedTime in Ht. unfold earlier_or_never.
  destruct (lastUsed a) as [t|]; [|exact I].
  destruct (lastUsed a') as [t'|]; [exact Ht|].
  specialize (Sa t eq_refl). lia.
Qed.

Lemma select_least_loaded_witness :
  stamped (pool [("a", 0, None); ("b", 2, None); ("c", 1, None)]) /\
  exists k a,
    selectBestAccount (pool [("a", 0, None); ("b", 2, None); ("c", 1, None)])
    = Some (k, a) /\ workload a <= 1.
Proof.
  assert (H : stamped (pool [("a", 0, None); ("b", 2, None); ("c", 1, None)])).
  { repeat constructor; simpl; discriminate. }
  split; [exact H|].
  destruct (select_least_loaded _ H) as (k & a & Hsel & _ & _ & Hmin).
  - exists ("c", mkAccount Active None 0 0 0 1). simpl. tauto.
  - exists k, a. split; [exact Hsel|].
    apply (Hmin "c" (mkAccount Active None 0 0 0 1)); simpl; tauto.
Defined.

(** The examples of the specification: loads [0,2,1], and equal loads
    [1,1] with different last uses. *)
Example select_loads_0_2_1 :
  option_map fst
    (selectBestAccount (pool [("a", 0, None); ("b", 2, None); ("c", 1, None)]))
  = Some "a".
Proof. reflexivity. Qed.

Example select_equal_loads_earliest :
  option_map fst
    (selectBestAccount (pool [("a", 1, Some 2000); ("b", 1, Some 1000)]))
  = Some "b".
Proof. reflexivity. Qed.

Example select_equal_loads_never_used :
  option_map fst
    (selectBestAccount (pool [("a", 1, Some 2000); ("b", 1, None)]))
  = Some "b".
Proof. reflexivity. Qed.

(** ** Demotion *)

Lemma touch_keeps_error (a b : Account) :
  touch a b -> status a = Errored -> status b = Errored.
Proof. induction 1; simpl; auto. Qed.

(** C4.  [handleTaskError] counts one more error for the account of the
    failed task and puts it in the error status as soon as the count is 5
    or more; [selectBestAccount] only returns active accounts; and no run
    of the dispatcher brings an account in the error status back to
    active. *)
Theorem demotion_is_permanent :
  (forall cfg task msg st a,
     get (activeAccounts st) (accountId task) = Some a ->
     exists a',
       get (activeAccounts (fst (handleTaskError cfg task msg st)))
         (accountId task) = Some a' /\
       errors a' = errors a + 1 /\
       (5 <= errors a' -> status a' = Errored) /\
       (errors a' < 5 -> status a' = status a)) /\
  (forall st k a, selectBestAccount st = Some (k, a) -> status a = Active) /\
  (forall cfg ops st k a a',
     get (activeAccounts st) k = Some a -> status a = Errored ->
     get (activeAccounts (fst (run cfg ops st))) k = Some a' ->
     status a' = Errored).
Proof.
  repeat split.
  - intros cfg task msg st a Ha.
    rewrite (handleTaskError_failed_account cfg task msg st a Ha).
    eexists. split; [reflexivity|]. simpl.
    destruct (Z.leb_spec 5 (errors a + 1)); repeat split; auto; lia.
  - intros st k a H.
    now destruct (selectBestAccount_least st (k, a) H) as (_ & Hs & _).
  - intros cfg ops st k a a' Ha He Ha'.
    destruct (evolves_get _ _ k a' (run_evolves cfg ops st) Ha')
      as (a0 & Ha0 & Ht).
    rewrite Ha in Ha0. injection Ha0 as <-.
    eapply touch_keeps_error; eauto.
Qed.

Lemma demotion_is_permanent_witness :
  get (activeAccounts worn) (accountId (task_on "a" "t" 0))
  = Some (mkAccount Active None 1 0 4 1) /\
  (exists a',
     get (activeAccounts
            (fst (handleTaskError defaults (task_on "a" "t" 0) "boom" worn)))
       "a" = Some a' /\ status a' = Errored /\ workload a' = 0) /\
  option_map fst
    (selectBestAccount
       (fst (handleTaskError defaults (task_on "a" "t" 0) "boom" worn)))
  = Some "b".
Proof.
  assert (H : get (activeAccounts worn) (accountId (task_on "a" "t" 0))
              = Some (mkAccount Active None 1 0 4 1)) by reflexivity.
  split; [exact H|]. split; [|reflexivity].
  destruct (proj1 demotion_is_permanent defaults (task_on "a" "t" 0) "boom"
              worn _ H) as (a' & Ha' & He & Hs & _).
  exists a'. split; [exact Ha'|]. split.
  - apply Hs. rewrite He. simpl. lia.
  - vm_compute in Ha'. injection Ha' as <-. reflexivity.
Defined.

(** ** Workload *)

Lemma touch_keeps_nonneg (a b : Account) :
  touch a b -> 0 <= workload a -> 0 <= workload b.
Proof. induction 1; simpl; auto; lia. Qed.

Lemma set_Forall {V : Type} (P : string * V -> Prop) (m : list (string * V))
  (k : string) (v : V) :
  Forall P m -> P (k, v) -> Forall P (set m k v).
Proof.
  intros Hm Hv. induction m as [|[k0 v0] m IH]; simpl.
  - now constructor.
  - inversion Hm; subst. destruct (String.eqb k0 k); constructor; auto.
Qed.

Lemma initialize_fresh (sessions : list (string * Session)) (st : State) :
  Forall (fun e => workload (snd e) = 0) (activeAccounts st) ->
  Forall (fun e => workload (snd e) = 0)
    (activeAccounts (fold_left init_account sessions st)).
Proof.
  revert st. induction sessions as [|[k s] ss IH]; intros st H; simpl; auto.
  apply IH. unfold init_account. simpl.
  destruct s; simpl; auto. now apply set_Forall.
Qed.

(** C10.  Every account starts with workload 0, and after any run of the
    dispatcher the workload of every account is a non-negative integer;
    [decreaseWorkload] leaves a workload that is not positive as it is. *)
Theorem workload_never_negative (cfg : Settings)
  (sessions : list (string * Session)) (ops : list Op) :
  Forall (fun e => workload (snd e) = 0) (activeAccounts (initialized sessions))
  /\
  Forall (fun e => 0 <= workload (snd e))
    (activeAccounts (fst (run cfg ops (initialized sessions)))) /\
  (forall st k a,
     get (activeAccounts st) k = Some a ->
     get (activeAccounts (decreaseWorkload k st)) k =
     Some (set_workload
             (if 0 <? workload a then workload a - 1 else workload a) a)).
Proof.
  assert (H0 : Forall (fun e => workload (snd e) = 0)
                 (activeAccounts (initialized sessions))).
  { apply initialize_fresh. constructor. }
  split; [exact H0|]. split.
  - apply (evolves_Forall (fun a => 0 <= workload a)
             (activeAccounts (initialized sessions))).
    + intros a b Ht. now apply touch_keeps_nonneg.
    + apply run_evolves.
    + eapply Forall_impl; [|exact H0]. simpl. intros e He. lia.
  - intros st k a Ha. simpl. rewrite get_update, String.eqb_refl, Ha. simpl.
    destruct a; simpl. now destruct (0 <? _).
Qed.

Lemma workload_never_negative_witness :
  get (activeAccounts (pool [("a", 0, None)])) "a"
  = Some (mkAccount Active None 0 0 0 0) /\
  get (activeAccounts (decreaseWorkload "a" (pool [("a", 0, None)]))) "a"
  = Some (mkAccount Active None 0 0 0 0).
Proof.
  assert (H : get (activeAccounts (pool [("a", 0, None)])) "a"
              = Some (mkAccount Active None 0 0 0 0)) by reflexivity.
  split; [exact H|].
  exact (proj2 (proj2 (workload_never_negative defaults [] []))
           (pool [("a", 0, None)]) "a" _ H).
Defined.

End AssignerSpec.

(* ================================================================= *)
(** * AccountAssigner: retries, reassignment and the workload count *)

Module DispatchSpec.
Import Js Assigner AssignerMore AssignerFacts SelectFacts QueueFacts RetryFacts.

Local Open Scope Z_scope.

(** C2 (amended).  Every failed attempt increases [retryCount] by one:
    [processTask] hands the task to [handleTaskError], and while the
    increased count is below [maxRetries] no "taskFailed" event is emitted
    and the queue is left as it is or receives the task, with the increased
    count, at its end; once the count reaches [maxRetries] exactly one
    "taskFailed" event is emitted, carrying the task with the increased
    count, and the task is not queued again.  An attempt that does not fail
    leaves the queue as it is and reports no failure.  Hence, in every run
    from an initialized dispatcher, every attempt is made on a task that has
    failed fewer than [maxRetries] times, a tweet is attempted at most
    [maxRetries] times, and reported as failed at most once, for each time
    it is handed to [assignTweets]; a waiting task has failed fewer than
    [maxRetries] times and every task reported as failed has been attempted
    exactly [maxRetries] times. *)
Theorem retry_budget (cfg : Settings) :
  0 < maxRetries cfg ->
  (forall task msg st,
     let r := handleTaskError cfg task msg st in
     (retryCount task + 1 < maxRetries cfg ->
      failed_tasks (snd r) = [] /\
      (taskQueue (fst r) = taskQueue st \/
       exists k', taskQueue (fst r) =
                  taskQueue st ++ [mkTask (tweetInfo task) k' (createdAt task)
                                     (retryCount task + 1)])) /\
     (maxRetries cfg <= retryCount task + 1 ->
      failed_tasks (snd r) = [set_retryCount (retryCount task + 1) task] /\
      taskQueue (fst r) = taskQueue st)) /\
  (forall now o task st,
     let r := processTask_resume cfg now o task st in
     match failure cfg o task st with
     | Some _ =>
         (retryCount task + 1 < maxRetries cfg ->
          failed_tasks (snd r) = [] /\
          (taskQueue (fst r) = taskQueue st \/
           exists k', taskQueue (fst r) =
                      taskQueue st ++
                        [mkTask (tweetInfo task) k' (createdAt task)
                           (retryCount task + 1)])) /\
         (maxRetries cfg <= retryCount task + 1 ->
          failed_tasks (snd r) = [set_retryCount (retryCount task + 1) task] /\
          taskQueue (fst r) = taskQueue st)
     | None => failed_tasks (snd r) = [] /\ taskQueue (fst r) = taskQueue st
     end) /\
  (forall sessions ops,
     let r := run cfg ops (initialized sessions) in
     let tried := attempts cfg ops (initialized sessions) in
     Forall (fun t => 0 <= retryCount t < maxRetries cfg) tried /\
     (forall s,
        Z.of_nat (length (attempts_on s tried))
        <= maxRetries cfg
           * Z.of_nat (count_occ string_dec (assigned_ids ops) s) /\
        (length (failures_on s (snd r))
         <= count_occ string_dec (assigned_ids ops) s)%nat) /\
     Forall (fun t => 0 <= retryCount t < maxRetries cfg) (taskQueue (fst r))
     /\
     Forall (fun t => retryCount t = maxRetries cfg) (failed_tasks (snd r))).
Proof.
  intros Hmax. split; [|split].
  - intros task msg st.
    destruct (handleTaskError_queue cfg task msg st) as (_ & H1 & H2).
    split; assumption.
  - intros now o task st.
    exact (proj2 (processTask_resume_queue cfg now o task st)).
  - intros sessions ops.
    pose proof (initialized_ok cfg sessions) as Hq.
    destruct (run_ok cfg ops (initialized sessions) Hmax Hq) as [[Hw _] Hf].
    split; [exact (attempts_ok cfg ops Hmax _ Hq)|].
    split; [|split; assumption].
    intros s.
    pose proof (run_attempts cfg s ops Hmax _ Hq) as Ha.
    pose proof (run_failures cfg s ops Hmax _ Hq) as Hn.
    rewrite initialized_pending in Ha, Hn. simpl in Ha, Hn.
    split; lia.
Qed.

Lemma retry_budget_witness :
  0 < maxRetries defaults /\
  Z.of_nat (length (attempts_on "T"
                      (attempts defaults always_failing two_accounts)))
  <= maxRetries defaults
     * Z.of_nat (count_occ string_dec (assigned_ids always_failing) "T") /\
  Forall (fun t => retryCount t = maxRetries defaults)
    (failed_tasks (snd (run defaults always_failing two_accounts))).
Proof.
  assert (H : 0 < maxRetries defaults) by reflexivity.
  split; [exact H|].
  destruct (proj2 (proj2 (retry_budget defaults H))
              [("A", SessionOk); ("B", SessionOk)] always_failing)
    as (_ & Hs & _ & Hf).
  split; [exact (proj1 (Hs "T")) | exact Hf].
Defined.

(** C2 as stated fails: with [maxRetries] 3 the task is attempted three
    times, that is retried twice, and it is reported as failed with a
    [retryCount] of 3, which does not exceed the maximum. *)
Lemma always_failing_task_is_retried_twice :
  let r := run defaults always_failing two_accounts in
  maxRetries defaults = 3 /\
  map (fun t => (accountId t, retryCount t))
    (attempts_on "T" (attempts defaults always_failing two_accounts))
  = [("B", 0); ("A", 1); ("B", 2)] /\
  map retryCount (failed_tasks (snd r)) = [3] /\
  taskQueue (fst r) = [] /\
  (length (attempts_on "T" (attempts defaults always_failing two_accounts))
   - 1 <> 3)%nat /\
  ~ (exists t, In t (failed_tasks (snd r)) /\ maxRetries defaults < retryCount t).
Proof.
  vm_compute. repeat split; try congruence.
  intros [t [[<- | []] H]]. discriminate.
Qed.

(** C5: the workload of an account falls below the number of its pending
    tasks.  One account, two tweets; the reply generator reports a failure
    for the first.  [handleTaskError] decreases the workload, and so does
    the end of [processTask]: the workload is 0 while the second task still
    waits for that account. *)
Lemma workload_decreased_twice_on_generator_failure :
  let st :=
    fst (run defaults
           [ Assign 5 [tweet "t1"; tweet "t2"];
             Settle 100000 (Details 100000 old_enough (GenerateFailed "bad")) ]
           (initialized [("A", SessionOk)])) in
  option_map workload (get (activeAccounts st) "A") = Some 0 /\
  outstanding "A" st = 1 /\
  map (fun t => (tweet_id (tweetInfo t), accountId t)) (taskQueue st)
  = [("t2", "A")].
Proof. vm_compute. repeat split. Qed.

(** The same tweets when [getTweetDetails] throws instead: the workload is
    decreased once and agrees with the number of pending tasks. *)
Lemma workload_decreased_once_on_exception :
  let st :=
    fst (run defaults
           [ Assign 5 [tweet "t1"; tweet "t2"];
             Settle 100000 (DetailsThrew "boom") ]
           (initialized [("A", SessionOk)])) in
  option_map workload (get (activeAccounts st) "A") = Some 1 /\
  outstanding "A" st = 1.
Proof. vm_compute. repeat split. Qed.

(** A task whose account is no longer active is taken from the queue and
    dropped without a change to the workload of that account. *)
Lemma workload_kept_when_task_skipped :
  let st := fst (run defaults five_failures (initialized [("A", SessionOk)])) in
  option_map (fun a => (status a, workload a)) (get (activeAccounts st) "A")
  = Some (Errored, 1) /\
  taskQueue st = [] /\ inflight st = None /\ outstanding "A" st = 0.
Proof. vm_compute. repeat split. Qed.

(** C6: a failed task is lost although another active account exists.  Two
    fresh accounts, one tweet, assigned to "A"; the attempt throws.  The
    workload of "A" drops to 0, [selectBestAccount] returns "A" again, and
    the task is neither queued again nor reported as failed, although its
    [retryCount] (1) is below [maxRetries] (3) and "B" is active. *)
Lemma failed_task_dropped_despite_other_account :
  let before := fst (run defaults [Assign 5 [tweet "T"]] two_accounts) in
  let r := run defaults [Assign 5 [tweet "T"]; Settle 6 (DetailsThrew "boom")]
             two_accounts in
  option_map (fun t => (accountId t, retryCount t)) (inflight before)
  = Some ("A", 0) /\
  taskQueue (fst r) = [] /\ inflight (fst r) = None /\ snd r = [] /\
  option_map status (get (activeAccounts (fst r)) "B") = Some Active /\
  option_map fst (selectBestAccount (fst r)) = Some "A".
Proof. vm_compute. repeat split. Qed.

End DispatchSpec.

(* ================================================================= *)
(** * Initialization of the dispatcher *)

Module FacadeSpec.
Import Js Assigner AssignerFacts Facade.

Lemma initialize_keys (sessions : list (string * Session)) (st : State)
  (k : string) :
  In k (keys (activeAccounts (fold_left init_account sessions st))) <->
  In k (keys (activeAccounts st)) \/ In (k, SessionOk) sessions.
Proof.
  revert st. induction sessions as [|[k0 s] ss IH]; intros st; simpl.
  - tauto.
  - rewrite IH. unfold init_account. simpl.
    destruct s; simpl; rewrite ?keys_set;
      split; intros H; intuition (try congruence).
Qed.

(** C8 (amended).  [initializeAccountAssigner] throws exactly when no
    enabled account is configured.  Otherwise it completes, whatever the
    sessions do: the pool holds exactly the enabled accounts whose session
    was established, and the "accountsInitialized" event reports their
    number, which may be 0. *)
Theorem initialization_fails_only_without_enabled_accounts
  (sessions : list (AccountConfig * Session)) :
  ((exists msg, initializeAccountAssigner sessions = Throws msg) <->
   forall c, In c sessions -> enabled (fst c) = false) /\
  (forall st evs,
     initializeAccountAssigner sessions = Ok (st, evs) ->
     (forall k, In k (keys (activeAccounts st)) <->
        exists c, In (c, SessionOk) sessions /\ enabled c = true /\
                  cfg_id c = k) /\
     evs = [AccountsInitialized (length (activeAccounts st))]).
Proof.
  unfold initializeAccountAssigner.
  set (commentAccounts := filter (fun c => enabled (fst c)) sessions).
  destruct (Nat.eqb_spec (length commentAccounts) 0) as [Hz | Hnz].
  - apply length_zero_iff_nil in Hz. split.
    + split; [|eauto]. intros _ c Hc.
      destruct (enabled (fst c)) eqn:E; [|reflexivity].
      assert (H : In c commentAccounts) by (apply filter_In; auto).
      rewrite Hz in H. destruct H.
    + discriminate.
  - split.
    + split; [intros [msg H]; discriminate|].
      intros H. exfalso. apply Hnz.
      destruct commentAccounts as [|c cs] eqn:E; [reflexivity|].
      assert (Hc : In c commentAccounts) by (rewrite E; now left).
      apply filter_In in Hc. destruct Hc as [Hin He].
      rewrite (H c Hin) in He. discriminate.
    + intros st evs [= <- <-]. split; [|reflexivity].
      intros k. simpl. rewrite initialize_keys. simpl. split.
      * intros [[] | H]. apply in_map_iff in H.
        destruct H as [[c s] [[= <- <-] Hc]].
        apply filter_In in Hc. destruct Hc as [Hin He]. simpl in *.
        exists c. auto.
      * intros [c (Hin & He & <-)]. right.
        apply in_map_iff. exists (c, SessionOk). split; [reflexivity|].
        apply filter_In. auto.
Qed.

Lemma initialization_fails_only_without_enabled_accounts_witness :
  (forall c, In c [(mkAccountConfig "a" false, SessionOk)] ->
             enabled (fst c) = false) /\
  exists msg,
    initializeAccountAssigner [(mkAccountConfig "a" false, SessionOk)]
    = Throws msg.
Proof.
  assert (H : forall c, In c [(mkAccountConfig "a" false, SessionOk)] ->
                        enabled (fst c) = false).
  { intros c [<- | []]. reflexivity. }
  split; [exact H|].
  exact (proj2 (proj1 (initialization_fails_only_without_enabled_accounts
                         [(mkAccountConfig "a" false, SessionOk)])) H).
Defined.

(** C8 as stated fails: one enabled account whose session is refused, and
    one whose session throws; no account is active, and the initialization
    completes without an error. *)
Lemma initialization_completes_with_no_active_account :
  initializeAccountAssigner
    [(mkAccountConfig "a" true, SessionRefused);
     (mkAccountConfig "b" true, SessionThrew)]
  = Ok (Assigner.new, [AccountsInitialized 0]) /\
  activeAccounts Assigner.new = [].
Proof. split; reflexivity. Qed.

End FacadeSpec.

(* ================================================================= *)
(** * MultiGroupListener: unknown group ids *)

Module MultiSpec.
Import Js Multi.

(** C7 (amended).  For an id that is not in the registry of listeners,
    [restartGroup] throws and changes nothing, whereas [removeGroup]
    returns normally: it drops the configurations and the statistics entry
    of that id, recomputes the two group counts, leaves the registry as it
    is and emits "groupRemoved". *)
Theorem unknown_group_restart_throws_remove_returns (groupId : string)
  (stop : Stop) (start : Start) (now : Z) (st : State) :
  get (groupListeners st) groupId = None ->
  (exists msg,
     restartGroup groupId stop start now st = (st, [], Threw msg)) /\
  removeGroup groupId stop st =
    (mkState
       (filter (fun c => negb (String.eqb (id c) groupId)) (groupConfigs st))
       (groupListeners st) (isRunning st)
       (mkStats
          (Z.of_nat
             (length (filter (fun c => negb (String.eqb (id c) groupId))
                        (groupConfigs st))))
          (Z.of_nat (length (groupListeners st)))
          (totalTweetsFound (stats st)) (totalErrors (stats st))
          (remove (groupStats (stats st)) groupId)
          (statsStartTime (stats st))),
     [GroupRemoved groupId], Returned).
Proof.
  intros H. unfold restartGroup, removeGroup. rewrite H. split.
  - eexists. reflexivity.
  - reflexivity.
Qed.

Lemma unknown_group_restart_throws_remove_returns_witness :
  get (groupListeners running) "g2" = None /\
  exists msg,
    restartGroup "g2" Stopped Started 30 running = (running, [], Threw msg).
Proof.
  assert (H : get (groupListeners running) "g2" = None) by reflexivity.
  split; [exact H|].
  exact (proj1 (unknown_group_restart_throws_remove_returns "g2" Stopped
                  Started 30 running H)).
Defined.

(** C7 as stated fails: "g2" is not in the registry, yet [removeGroup]
    returns normally, emits "groupRemoved" and changes the configuration
    list, the statistics and the group counts. *)
Lemma remove_unknown_group_returns_and_changes_state :
  get (groupListeners running) "g2" = None /\
  snd (removeGroup "g2" Stopped running) = Returned /\
  snd (fst (removeGroup "g2" Stopped running)) = [GroupRemoved "g2"] /\
  map id (groupConfigs running) = ["g1"; "g2"] /\
  map id (groupConfigs (fst (fst (removeGroup "g2" Stopped running))))
  = ["g1"] /\
  keys (groupStats (stats running)) = ["g1"; "g2"] /\
  keys (groupStats (stats (fst (fst (removeGroup "g2" Stopped running)))))
  = ["g1"] /\
  activeGroups (stats running) = 0%Z /\
  activeGroups (stats (fst (fst (removeGroup "g2" Stopped running)))) = 1%Z.
Proof. vm_compute. repeat split. Qed.

End MultiSpec.

(* ================================================================= *)
(** * Further properties of the shared helpers *)

Module JsMore.
Import Js JsFacts.

Lemma fold_add_length (a acc : list string) :
  (length (fold_left add a acc) <= length acc + length a)%nat.
Proof.
  revert acc. induction a as [|x a IH]; intros acc; simpl; [lia|].
  specialize (IH (add acc x)).
  assert (H : (length (add acc x) <= S (length acc))%nat).
  { unfold add. destruct (has acc x); [lia|].
    rewrite length_app. simpl. lia. }
  lia.
Qed.

Lemma set_of_array_length (a : list string) :
  (length (set_of_array a) <= length a)%nat.
Proof. apply (fold_add_length a []). Qed.

Lemma set_of_array_incl (a : list string) : incl (set_of_array a) a.
Proof.
  unfold set_of_array.
  assert (H : forall acc x, In x (fold_left add a acc) -> In x acc \/ In x a).
  { induction a as [|y a IH]; intros acc x Hx; simpl in *; [auto|].
    apply IH in Hx. destruct Hx as [Hx | Hx]; [|auto].
    unfold add in Hx. destruct (has acc y); [auto|].
    apply in_app_or in Hx. destruct Hx as [Hx | [Hx | []]]; auto. }
  intros x Hx. apply H in Hx. destruct Hx as [[] | Hx]. exact Hx.
Qed.

Lemma slice_incl {A : Type} (k : Z) (l : list A) : incl (slice k l) l.
Proof.
  destruct (slice_suffix k l) as [dropped E].
  intros x Hx. rewrite E. apply in_or_app. now right.
Qed.

Lemma slice_length_le {A : Type} (n : Z) (l : list A) :
  (0 < n)%Z -> (length (slice (- n) l) <= Z.to_nat n)%nat.
Proof.
  intros Hn. unfold slice. rewrite length_skipn.
  destruct (Z.ltb_spec (- n) 0); lia.
Qed.

Lemma slice_all {A : Type} (n : Z) (l : list A) :
  (Z.of_nat (length l) <= n)%Z -> slice (- n) l = l.
Proof.
  intros Hn. unfold slice.
  destruct (Z.ltb_spec (- n) 0) as [Hlt|Hge].
  - replace (Z.to_nat _) with 0%nat by lia. reflexivity.
  - assert (length l = 0%nat) by lia.
    destruct l; [|discriminate]. now rewrite skipn_nil.
Qed.

Lemma get_set {V : Type} (m : list (string * V)) (k : string) (v : V)
  (k' : string) :
  get (set m k v) k' = if String.eqb k k' then Some v else get m k'.
Proof.
  induction m as [|[k0 v0] m IH]; simpl.
  - reflexivity.
  - destruct (String.eqb_spec k0 k) as [-> | Hk]; simpl.
    + now destruct (String.eqb k k').
    + destruct (String.eqb_spec k0 k') as [-> | Hk'].
      * destruct (String.eqb_spec k k'); [congruence | reflexivity].
      * exact IH.
Qed.

End JsMore.

(* ================================================================= *)
(** * AccountAssigner: assignment *)

Module AssignExtra.
Import Js Assigner AssignerMore AssignerFacts SelectFacts.

Local Open Scope Z_scope.

Lemma selectBestAccount_none (st : State) :
  none_active st -> selectBestAccount st = None.
Proof.
  intros H. unfold selectBestAccount, availableAccounts.
  replace (filter _ (activeAccounts st)) with (@nil (string * Account));
    [reflexivity|].
  symmetry. unfold none_active in H.
  induction (activeAccounts st) as [|e m IH]; [reflexivity|].
  inversion H as [|? ? He Hm]; subst. simpl.
  destruct (status (snd e)); [congruence | auto].
Qed.

Lemma assign_loop_none (now : Z) (tweets : list Tweet) (st : State) :
  none_active st -> fold_left (assign_one now) tweets st = st.
Proof.
  intros H. induction tweets as [|t ts IH]; simpl; [reflexivity|].
  unfold assign_one at 2. now rewrite (selectBestAccount_none st H).
Qed.

(** X1.  Without an active account [assignTweets] creates no task: the pool,
    the statistics and the task in flight stay as they are, and the queue does
    not grow (the loop of [processTaskQueue], if it starts, only drops the
    task at the head of the queue, whose account is not active). *)
Theorem assign_without_active_account (now : Z) (tweets : list Tweet)
  (st : State) :
  none_active st ->
  let st' := assignTweets now tweets st in
  activeAccounts st' = activeAccounts st /\ stats st' = stats st /\
  inflight st' = inflight st /\
  (taskQueue st' = taskQueue st \/ taskQueue st' = tl (taskQueue st)).
Proof.
  intros H. unfold assignTweets. rewrite (assign_loop_none now tweets st H).
  unfold processTaskQueue.
  destruct (processingQueue st || _); [simpl; tauto|].
  unfold loop_head. simpl.
  destruct (taskQueue st) as [|t q] eqn:E; simpl; [rewrite E; tauto|].
  unfold processTask_begin. simpl.
  destruct (get (activeAccounts st) (accountId t)) as [a|] eqn:G;
    [|simpl; tauto].
  apply AssignerFacts.get_In in G.
  unfold none_active in H. rewrite Forall_forall in H.
  specialize (H _ G). simpl in H.
  destruct (status a); [congruence | simpl; tauto].
Qed.

Lemma assign_without_active_account_witness :
  none_active (cleanup two_accounts) /\
  taskQueue (assignTweets 5 [tweet "T"] (cleanup two_accounts)) = [].
Proof.
  assert (H : none_active (cleanup two_accounts)) by constructor.
  split; [exact H|].
  destruct (assign_without_active_account 5 [tweet "T"] _ H)
    as (_ & _ & _ & [Hq | Hq]); exact Hq.
Defined.

(** ** Balance *)

Lemma NoDup_keys_same {V : Type} (m : list (string * V)) (k : string)
  (v v' : V) :
  NoDup (keys m) -> In (k, v) m -> In (k, v') m -> v = v'.
Proof.
  induction m as [|[k0 v0] m IH]; simpl; [tauto|].
  intros Hnd [H1 | H1] [H2 | H2]; inversion Hnd as [|? ? Hn Hm]; subst.
  - congruence.
  - injection H1 as -> ->. exfalso. apply Hn.
    apply in_map_iff. exists (k, v'). auto.
  - injection H2 as -> ->. exfalso. apply Hn.
    apply in_map_iff. exists (k, v). auto.
  - auto.
Qed.

Lemma In_update {V : Type} (m : list (string * V)) (k : string) (f : V -> V)
  (e' : string * V) :
  In e' (update m k f) ->
  exists e, In e m /\
            e' = if String.eqb (fst e) k then (fst e, f (snd e)) else e.
Proof.
  unfold update. intros H. apply in_map_iff in H.
  destruct H as [e [He Hin]]. exists e. auto.
Qed.

Lemma filter_update (m : list (string * Account)) (k : string)
  (f : Account -> Account) :
  (forall a, status (f a) = status a) ->
  filter (fun e => status_eqb (status (snd e)) Active) (update m k f)
  = update (filter (fun e => status_eqb (status (snd e)) Active) m) k f.
Proof.
  intros Hf. unfold update.
  induction m as [|[k0 a] m IH]; simpl; [reflexivity|].
  destruct (String.eqb k0 k) eqn:E; simpl; rewrite ?Hf;
    destruct (status_eqb (status a) Active); simpl; rewrite ?E, IH;
    reflexivity.
Qed.

Lemma assign_one_accounts (now : Z) (st : State) (tw : Tweet) (k : string)
  (a : Account) :
  selectBestAccount st = Some (k, a) ->
  activeAccounts (assign_one now st tw) =
  update (activeAccounts st) k
    (fun a => set_workload (workload a + 1)
                (set_tasksAssigned (tasksAssigned a + 1) a)).
Proof. intros H. unfold assign_one. rewrite H. reflexivity. Qed.

Lemma assign_one_unique (now : Z) (st : State) (tw : Tweet) :
  unique_ids st -> unique_ids (assign_one now st tw).
Proof.
  unfold unique_ids. intros H.
  destruct (selectBestAccount st) as [[k a]|] eqn:E.
  - rewrite (assign_one_accounts now st tw k a E), keys_update. exact H.
  - unfold assign_one. now rewrite E.
Qed.

Lemma assign_one_balanced (now : Z) (st : State) (tw : Tweet) :
  unique_ids st -> balanced st -> balanced (assign_one now st tw).
Proof.
  intros Hu Hb.
  destruct (selectBestAccount st) as [[k a]|] eqn:E;
    [|unfold assign_one; now rewrite E].
  destruct (selectBestAccount_least st (k, a) E) as (Hin & _ & Hmin).
  simpl in *.
  assert (Hleast : forall e, In e (availableAccounts st) ->
                             workload a <= workload (snd e)).
  { intros e He. apply filter_In in He. destruct He as [He Hs].
    assert (Hact : status (snd e) = Active)
      by (destruct (status (snd e)); [reflexivity | discriminate]).
    specialize (Hmin e He Hact). apply compareAccounts_le in Hmin.
    simpl in Hmin. lia. }
  assert (Hsame : forall e, In e (availableAccounts st) -> fst e = k ->
                            snd e = a).
  { intros [k0 a0] He Hk. simpl in *. subst k0.
    apply filter_In in He. destruct He as [He _].
    exact (NoDup_keys_same _ _ _ _ Hu He Hin). }
  unfold balanced, availableAccounts.
  rewrite (assign_one_accounts now st tw k a E).
  rewrite filter_update by reflexivity.
  fold (availableAccounts st).
  intros x' y' Hx Hy.
  apply In_update in Hx. destruct Hx as [x [Hx ->]].
  apply In_update in Hy. destruct Hy as [y [Hy ->]].
  pose proof (Hb x y Hx Hy) as Hxy.
  pose proof (Hleast y Hy) as Hly.
  destruct (String.eqb_spec (fst x) k) as [Ekx | Ekx];
    destruct (String.eqb_spec (fst y) k) as [Eky | Eky]; simpl.
  - lia.
  - rewrite (Hsame x Hx Ekx). lia.
  - rewrite (Hsame y Hy Eky). rewrite (Hsame y Hy Eky) in Hxy. lia.
  - exact Hxy.
Qed.

(** X2.  The workloads of the active accounts stay within one of each other:
    when the ids of the pool are pairwise different and no two active accounts
    differ by more than one in workload, the same holds after [assignTweets],
    however many tweets it assigns. *)
Theorem assignment_keeps_balance (now : Z) (tweets : list Tweet) (st : State) :
  unique_ids st -> balanced st ->
  unique_ids (assignTweets now tweets st) /\
  balanced (assignTweets now tweets st).
Proof.
  intros Hu Hb. unfold assignTweets.
  assert (H : unique_ids (fold_left (assign_one now) tweets st) /\
              balanced (fold_left (assign_one now) tweets st)).
  { revert st Hu Hb. induction tweets as [|t ts IH]; intros st Hu Hb; simpl.
    - now split.
    - apply IH; [now apply assign_one_unique | now apply assign_one_balanced]. }
  unfold unique_ids, balanced, availableAccounts in *.
  now rewrite processTaskQueue_accounts.
Qed.

Lemma assignment_keeps_balance_witness :
  unique_ids two_accounts /\ balanced two_accounts /\
  balanced three_tweets /\
  map (fun e => workload (snd e)) (activeAccounts three_tweets) = [2; 1].
Proof.
  assert (Hu : unique_ids two_accounts).
  { unfold unique_ids. simpl. repeat constructor; simpl; intuition congruence. }
  assert (Hb : balanced two_accounts).
  { intros e e' [<- | [<- | []]] [<- | [<- | []]]; simpl; lia. }
  split; [exact Hu|]. split; [exact Hb|]. split; [|reflexivity].
  exact (proj2 (assignment_keeps_balance 7
                  [tweet "1"; tweet "2"; tweet "3"] two_accounts Hu Hb)).
Defined.

(** ** Order of the queue *)

Lemma assign_one_available_keys (now : Z) (st : State) (tw : Tweet) :
  keys (availableAccounts (assign_one now st tw))
  = keys (availableAccounts st).
Proof.
  destruct (selectBestAccount st) as [[k a]|] eqn:E;
    [|unfold assign_one; now rewrite E].
  unfold availableAccounts.
  rewrite (assign_one_accounts now st tw k a E), filter_update by reflexivity.
  apply keys_update.
Qed.

Lemma selectBestAccount_available (st : State) :
  availableAccounts st <> [] ->
  exists k a, selectBestAccount st = Some (k, a) /\
              In k (keys (availableAccounts st)).
Proof.
  intros H.
  destruct (hd_sort_some _ compareAccounts (availableAccounts st) H)
    as [[k a] Hm].
  exists k, a. split; [exact Hm|].
  apply (hd_sort_least _ _ compareAccounts_total compareAccounts_trans) in Hm.
  destruct Hm as [Hin _]. apply in_map_iff. exists (k, a). auto.
Qed.

Lemma assign_loop_appends (now : Z) (tweets : list Tweet) (st : State) :
  availableAccounts st <> [] ->
  exists added,
    taskQueue (fold_left (assign_one now) tweets st) = taskQueue st ++ added /\
    map tweetInfo added = tweets /\
    Forall (fun t => retryCount t = 0 /\ createdAt t = now /\
                     In (accountId t) (keys (availableAccounts st))) added /\
    inflight (fold_left (assign_one now) tweets st) = inflight st /\
    processingQueue (fold_left (assign_one now) tweets st)
    = processingQueue st /\
    totalAssignments (stats (fold_left (assign_one now) tweets st))
    = totalAssignments (stats st) + Z.of_nat (length tweets).
Proof.
  revert st. induction tweets as [|tw ts IH]; intros st Hne; simpl fold_left.
  - exists []. rewrite app_nil_r. simpl. repeat split; auto. lia.
  - destruct (selectBestAccount_available st Hne) as (k & a & Hsel & Hk).
    assert (Hkeys := assign_one_available_keys now st tw).
    assert (Hne' : availableAccounts (assign_one now st tw) <> []).
    { intros Hnil. rewrite Hnil in Hkeys. simpl in Hkeys.
      destruct (availableAccounts st); [congruence | discriminate]. }
    destruct (IH (assign_one now st tw) Hne')
      as (added & Hq & Hm & Hf & Hi & Hp & Ht).
    exists (mkTask tw k now 0 :: added).
    rewrite Hq, Hi, Hp, Ht. unfold assign_one. rewrite Hsel. simpl.
    rewrite <- app_assoc. simpl. rewrite Hm.
    repeat split; auto; [|lia].
    constructor; [simpl; auto|].
    eapply Forall_impl; [|exact Hf]. simpl. intros t (H1 & H2 & H3).
    rewrite Hkeys in H3. auto.
Qed.

(** X3.  When some account is active, [assignTweets] creates one task for
    every tweet and appends the tasks to the back of the queue in the order of
    the tweets, each with [retryCount] 0 and an account that is active.
    Nothing that waited is overtaken: at most, the loop of [processTaskQueue]
    takes the task at the head of the queue. *)
Theorem assignment_appends_in_order (now : Z) (tweets : list Tweet)
  (st : State) :
  availableAccounts st <> [] ->
  exists added,
    map tweetInfo added = tweets /\
    Forall (fun t => retryCount t = 0 /\ createdAt t = now /\
                     In (accountId t) (keys (availableAccounts st))) added /\
    totalAssignments (stats (assignTweets now tweets st))
    = totalAssignments (stats st) + Z.of_nat (length tweets) /\
    let st' := assignTweets now tweets st in
    (taskQueue st' = taskQueue st ++ added /\ inflight st' = inflight st) \/
    (exists t rest,
       taskQueue st ++ added = t :: rest /\ taskQueue st' = rest /\
       (inflight st' = Some t \/ inflight st' = inflight st)).
Proof.
  intros Hne.
  destruct (assign_loop_appends now tweets st Hne)
    as (added & Hq & Hm & Hf & Hi & Hp & Ht).
  exists added. split; [exact Hm|]. split; [exact Hf|].
  unfold assignTweets, processTaskQueue.
  set (st1 := fold_left (assign_one now) tweets st) in *.
  destruct (processingQueue st1 || _) eqn:E.
  - split; [exact Ht|]. left. now split.
  - rewrite loop_head_stats. simpl. split; [exact Ht|].
    unfold loop_head. simpl. rewrite Hq.
    destruct (taskQueue st ++ added) as [|t rest] eqn:Eq.
    + left. simpl. now split.
    + right. exists t, rest. split; [reflexivity|].
      unfold processTask_begin. simpl.
      destruct (get _ _) as [a|]; [destruct (status_eqb _ _)|]; simpl;
        rewrite ?Hi; auto.
Qed.

Lemma assignment_appends_in_order_witness :
  availableAccounts two_accounts <> [] /\
  exists added,
    map tweetInfo added = [tweet "1"; tweet "2"; tweet "3"] /\
    exists t rest, taskQueue two_accounts ++ added = t :: rest /\
                   taskQueue three_tweets = rest.
Proof.
  assert (H : availableAccounts two_accounts <> []) by discriminate.
  split; [exact H|].
  destruct (assignment_appends_in_order 7 [tweet "1"; tweet "2"; tweet "3"]
              two_accounts H) as (added & Hm & _ & _ & Hq).
  exists added. split; [exact Hm|].
  destruct Hq as [[Hq _] | (t & rest & H1 & H2 & _)].
  - exfalso. apply (f_equal (@length Task)) in Hq.
    apply (f_equal (@length Tweet)) in Hm.
    rewrite length_map in Hm. rewrite length_app, Hm in Hq.
    vm_compute in Hq. discriminate Hq.
  - exists t, rest. split; assumption.
Defined.

End AssignExtra.

(* ================================================================= *)
(** * AccountAssigner: statistics, reset and reassignment *)

Module DispatchExtra.
Import Js JsMore Assigner AssignerMore AssignerFacts SelectFacts QueueFacts.

Local Open Scope Z_scope.

Lemma get_map_values {V W : Type} (g : string * V -> W)
  (m : list (string * V)) (k : string) :
  get (map (fun e => (fst e, g e)) m) k =
  match get m k with Some v => Some (g (k, v)) | None => None end.
Proof.
  induction m as [|[k0 v0] m IH]; simpl; [reflexivity|].
  destruct (String.eqb_spec k0 k) as [-> | Hk]; [reflexivity | exact IH].
Qed.

(** ** The statistics mirror the pool *)

Lemma mir_both (ma : list (string * Account))
  (ms : list (string * AccountStat)) (k : string) (f : Account -> Account)
  (g : AccountStat -> AccountStat) :
  mir ma ms -> (forall a s, agrees a s -> agrees (f a) (g s)) ->
  mir (update ma k f) (update ms k g).
Proof.
  intros H Hfg k' a'. rewrite !get_update.
  destruct (String.eqb k k').
  - destruct (get ma k') as [a|] eqn:E; [|discriminate].
    intros [= <-]. destruct (H k' a E) as (s & -> & Hs).
    exists (g s). split; [reflexivity | auto].
  - apply H.
Qed.

Lemma mir_account (ma : list (string * Account))
  (ms : list (string * AccountStat)) (k : string) (f : Account -> Account) :
  mir ma ms -> (forall a s, agrees a s -> agrees (f a) s) ->
  mir (update ma k f) ms.
Proof.
  intros H Hf k' a'. rewrite get_update.
  destruct (String.eqb k k'); [|apply H].
  destruct (get ma k') as [a|] eqn:E; [|discriminate].
  intros [= <-]. destruct (H k' a E) as (s & Hs & Ha). eauto.
Qed.

(** Solves [mir] goals on pools and statistics built with [update]. *)
Ltac mirror :=
  repeat first
    [ assumption
    | apply mir_both; [| intros ? ? (? & ? & ? & ?);
                         unfold agrees; simpl; repeat split; congruence]
    | apply mir_account;
        [| intros a0 ? (? & ? & ? & ?); unfold agrees; simpl;
           try destruct (0 <? workload a0); simpl; repeat split; congruence] ].

Lemma handleTaskError_mirrored (cfg : Settings) (task : Task) (msg : string)
  (st : State) :
  mirrored st -> mirrored (fst (handleTaskError cfg task msg st)).
Proof.
  intros H. change (mir (activeAccounts st) (accountStats (stats st))) in H.
  unfold handleTaskError.
  set (k := accountId task).
  set (st2 := bump_totalErrors _).
  assert (H2 : mir (activeAccounts st2) (accountStats (stats st2))).
  { subst st2. destruct (get (activeAccounts st) k); simpl; mirror. }
  clearbody st2.
  match goal with
  | |- context [let '(_, _) := ?x in _] =>
      assert (H3 : mir (activeAccounts (fst x)) (accountStats (stats (fst x))));
      [| destruct x as [st3 evs] ]
  end.
  { destruct (retryCount _ <? maxRetries cfg); [|exact H2].
    destruct (selectBestAccount st2) as [[k' a']|]; [|exact H2].
    destruct (negb _); [|exact H2]. simpl. mirror. }
  simpl in H3.
  destruct (get (activeAccounts st3) k) as [a|]; [|exact H3].
  destruct (5 <=? errors a); [|exact H3].
  unfold mirrored. simpl. mirror.
Qed.

Lemma assign_loop_mirrored (now : Z) (tweets : list Tweet) (st : State) :
  mirrored st -> mirrored (fold_left (assign_one now) tweets st).
Proof.
  revert st. induction tweets as [|t ts IH]; intros st H; simpl; [exact H|].
  apply IH. unfold assign_one.
  destruct (selectBestAccount st) as [[k a]|]; [|exact H].
  unfold mirrored. simpl. mirror.
Qed.

Lemma loop_head_mirrored (st : State) : mirrored st -> mirrored (loop_head st).
Proof.
  unfold mirrored. now rewrite loop_head_accounts, loop_head_stats.
Qed.

Lemma processTask_resume_mirrored (cfg : Settings) (now : Z) (o : Outcome)
  (task : Task) (st : State) :
  mirrored st -> mirrored (fst (processTask_resume cfg now o task st)).
Proof.
  intros H. unfold processTask_resume.
  destruct o as [msg | clock d r]; [now apply handleTaskError_mirrored|].
  destruct (negb _); [unfold mirrored; simpl; mirror|].
  destruct r as [msg | err | reply [msg | | rid]];
    try (now apply handleTaskError_mirrored);
    try (unfold mirrored; simpl; mirror; fail).
  - pose proof (handleTaskError_mirrored cfg task err st H) as H1.
    destruct (handleTaskError cfg task err st) as [st1 evs]. simpl in *.
    unfold mirrored. simpl. mirror.
  - destruct (get _ _) eqn:E.
    + unfold mirrored. simpl. mirror.
    + apply handleTaskError_mirrored. unfold mirrored. simpl.
      (* the entry is missing, hence so is the account *)
      intros k' a'. rewrite get_update.
      destruct (String.eqb_spec (accountId task) k') as [<- | Hk];
        [|apply H].
      destruct (get (activeAccounts st) (accountId task)) as [a|] eqn:Ea;
        [|discriminate].
      destruct (H _ _ Ea) as (s & Hs & _). simpl in E. congruence.
Qed.

Lemma resetStats_mirrored (st : State) : mirrored (resetStats st).
Proof.
  intros k a. simpl.
  rewrite (get_map_values (fun e => cleared (snd e))).
  rewrite (get_map_values
             (fun e => mkAccountStat 0 0 0 (status (snd e)))).
  destruct (get (activeAccounts st) k) as [a0|]; [|discriminate].
  intros [= <-]. eexists. split; [reflexivity|].
  unfold agrees. simpl. auto.
Qed.

Lemma step_mirrored (cfg : Settings) (op : Op) (st : State) :
  mirrored st -> mirrored (fst (step cfg op st)).
Proof.
  intros H. destruct op as [now tweets | now o | | |]; simpl.
  - unfold assignTweets, processTaskQueue.
    destruct (_ || _); [|apply loop_head_mirrored];
      now apply assign_loop_mirrored.
  - destruct (inflight st) as [task|]; [|exact H].
    now apply processTask_resume_mirrored.
  - destruct (inflight st); [exact H|].
    destruct (processingQueue st); [now apply loop_head_mirrored | exact H].
  - apply resetStats_mirrored.
  - intros k a. discriminate.
Qed.

Lemma initialized_mirrored (sessions : list (string * Session)) :
  mirrored (initialized sessions).
Proof.
  unfold initialized, initialize. simpl.
  assert (H : forall st, mirrored st ->
                         mirrored (fold_left init_account sessions st)).
  { induction sessions as [|[k s] ss IH]; intros st Hst; simpl; [exact Hst|].
    apply IH. unfold init_account. simpl.
    destruct s; simpl; [|exact Hst|exact Hst].
    intros k' a'. simpl. rewrite !get_set.
    destruct (String.eqb k k'); [|apply Hst].
    intros [= <-]. eexists. split; [reflexivity|].
    unfold agrees. simpl. auto. }
  apply H. intros k a. discriminate.
Qed.

(** X4.  In every state that an initialized dispatcher reaches, each account
    of the pool has an entry in [stats.accountStats] whose [tasksAssigned],
    [repliesSent], [errors] and [status] equal those of the account: the two
    sets of counters that the code updates side by side never drift apart. *)
Theorem statistics_mirror_the_pool (cfg : Settings)
  (sessions : list (string * Session)) (ops : list Op) :
  mirrored (fst (run cfg ops (initialized sessions))).
Proof.
  assert (H : forall st, mirrored st -> mirrored (fst (run cfg ops st))).
  { induction ops as [|op ops IH]; intros st Hst; simpl; [exact Hst|].
    pose proof (step_mirrored cfg op st Hst) as H1.
    destruct (step cfg op st) as [st1 evs1].
    specialize (IH st1 H1). now destruct (run cfg ops st1). }
  apply H, initialized_mirrored.
Qed.

(** ** [resetStats] *)

Section SortMap.

Variables A : Type.
Variable cmp : A -> A -> Z.
Variable f : A -> A.
Hypothesis cmp_f : forall x y, cmp (f x) (f y) = cmp x y.

Lemma insert_sorted_map (x : A) (l : list A) :
  insert_sorted cmp (f x) (map f l) = map f (insert_sorted cmp x l).
Proof.
  induction l as [|y l IH]; simpl; [reflexivity|].
  rewrite cmp_f. destruct (cmp x y <=? 0); simpl; [reflexivity|].
  now rewrite IH.
Qed.

Lemma sort_map (l : list A) : sort cmp (map f l) = map f (sort cmp l).
Proof.
  induction l as [|x l IH]; simpl; [reflexivity|].
  now rewrite IH, insert_sorted_map.
Qed.

End SortMap.

Lemma filter_map_same {A : Type} (p : A -> bool) (f : A -> A) (l : list A) :
  (forall x, p (f x) = p x) -> filter p (map f l) = map f (filter p l).
Proof.
  intros H. induction l as [|x l IH]; simpl; [reflexivity|].
  rewrite H. destruct (p x); simpl; now rewrite IH.
Qed.

(** X5.  [resetStats] clears the three counters of every account and leaves
    its status, workload and time of last use alone; the next selection
    therefore picks the same account as it would have without the reset, and
    an account in the error status stays excluded. *)
Theorem reset_keeps_selection (st : State) :
  activeAccounts (resetStats st)
  = map (fun e => (fst e, cleared (snd e))) (activeAccounts st) /\
  selectBestAccount (resetStats st)
  = option_map (fun e => (fst e, cleared (snd e))) (selectBestAccount st) /\
  Forall (fun e => tasksAssigned (snd e) = 0 /\ repliesSent (snd e) = 0 /\
                   errors (snd e) = 0)
    (activeAccounts (resetStats st)) /\
  taskQueue (resetStats st) = taskQueue st /\
  inflight (resetStats st) = inflight st.
Proof.
  split; [reflexivity|]. split; [|split; [|split; reflexivity]].
  - unfold selectBestAccount, availableAccounts. simpl.
    rewrite (filter_map_same
               (fun e : string * Account => status_eqb (status (snd e)) Active)
               (fun e => (fst e, cleared (snd e)))) by reflexivity.
    rewrite sort_map by reflexivity.
    now destruct (sort compareAccounts _).
  - simpl. induction (activeAccounts st) as [|e m IH]; simpl; constructor;
      simpl; auto.
Qed.

(** ** Reassignment *)

Lemma In_update_other {V : Type} (m : list (string * V)) (k k' : string)
  (f : V -> V) (v : V) :
  k' <> k -> In (k', v) m -> In (k', v) (update m k f).
Proof.
  intros Hk Hin. unfold update. apply in_map_iff. exists (k', v). simpl.
  destruct (String.eqb_spec k' k); [congruence | auto].
Qed.

Lemma In_update_same {V : Type} (m : list (string * V)) (k : string)
  (f : V -> V) (v : V) :
  In (k, v) m -> In (k, f v) (update m k f).
Proof.
  intros Hin. unfold update. apply in_map_iff. exists (k, v). simpl.
  now rewrite String.eqb_refl.
Qed.

(** X6.  [handleTaskError] either leaves the queue as it is, or appends the
    failed task once, with its [retryCount] increased by one, for an account
    that is not the one it failed on, that is in the pool and that is active
    after the call. *)
Theorem retry_goes_to_another_active_account (cfg : Settings) (task : Task)
  (msg : string) (st : State) :
  let r := handleTaskError cfg task msg st in
  taskQueue (fst r) = taskQueue st \/
  exists k' a',
    taskQueue (fst r) =
      taskQueue st ++ [mkTask (tweetInfo task) k' (createdAt task)
                         (retryCount task + 1)] /\
    k' <> accountId task /\
    retryCount task + 1 < maxRetries cfg /\
    In (k', a') (activeAccounts (fst r)) /\ status a' = Active.
Proof.
  unfold handleTaskError.
  set (k := accountId task).
  set (st2 := bump_totalErrors _).
  assert (Hq : taskQueue st2 = taskQueue st).
  { subst st2. destruct (get (activeAccounts st) k); reflexivity. }
  clearbody st2.
  match goal with
  | |- context [let '(_, _) := ?x in _] => set (x3 := x)
  end.
  assert (H3 : taskQueue (fst x3) = taskQueue st \/
               exists k' a',
                 taskQueue (fst x3) =
                   taskQueue st ++ [mkTask (tweetInfo task) k' (createdAt task)
                                      (retryCount task + 1)] /\
                 k' <> k /\ retryCount task + 1 < maxRetries cfg /\
                 In (k', a') (activeAccounts (fst x3)) /\ status a' = Active).
  { subst x3. simpl retryCount.
    destruct (Z.ltb_spec (retryCount task + 1) (maxRetries cfg)) as [Hlt|Hge];
      [|now left].
    destruct (selectBestAccount st2) as [[k' a']|] eqn:E; [|now left].
    destruct (String.eqb_spec k' k) as [-> | Hk]; simpl; [now left|].
    right. exists k', (set_workload (workload a' + 1) a').
    destruct (selectBestAccount_least st2 (k', a') E) as (Hin & Hact & _).
    rewrite Hq. repeat split; auto.
    apply (In_update_same (activeAccounts st2) k'
             (fun a => set_workload (workload a + 1) a) a' Hin). }
  clearbody x3. destruct x3 as [st3 evs]. simpl in H3.
  destruct (get (activeAccounts st3) k) as [a|]; [|exact H3].
  destruct (5 <=? errors a); [|exact H3]. simpl.
  destruct H3 as [H3 | (k' & a' & H3 & Hk & Hlt & Hin & Hact)]; [now left|].
  right. exists k', a'. repeat split; auto.
  now apply In_update_other.
Qed.

(** ** The "accountError" event *)

Lemma error_reports_app (k : string) (e1 e2 : list Event) :
  error_reports k (e1 ++ e2) = (error_reports k e1 + error_reports k e2)%nat.
Proof. unfold error_reports. now rewrite filter_app, length_app. Qed.

(** The events of [handleTaskError]: "taskFailed" when the retries are used
    up, then "accountError" when the account has five errors or more. *)
Lemma handleTaskError_events (cfg : Settings) (task : Task) (msg : string)
  (st : State) :
  snd (handleTaskError cfg task msg st) =
  (if retryCount task + 1 <? maxRetries cfg then []
   else [TaskFailed (set_retryCount (retryCount task + 1) task) msg]) ++
  match get (activeAccounts st) (accountId task) with
  | Some a => if 5 <=? errors a + 1
              then [AccountError (accountId task) (errors a + 1)] else []
  | None => []
  end.
Proof.
  unfold handleTaskError.
  set (k := accountId task).
  set (st2 := bump_totalErrors _).
  assert (H2 : get (activeAccounts st2) k =
               option_map (fun a => mkAccount (status a) (lastUsed a)
                                      (tasksAssigned a) (repliesSent a)
                                      (errors a + 1)
                                      (if 0 <? workload a then workload a - 1
                                       else workload a))
                 (get (activeAccounts st) k)).
  { subst st2. destruct (get (activeAccounts st) k) as [a|] eqn:Ha; simpl.
    - rewrite !get_update, String.eqb_refl, Ha. simpl.
      now destruct (0 <? workload a).
    - exact Ha. }
  clearbody st2.
  match goal with
  | |- context [let '(_, _) := ?x in _] => set (x3 := x)
  end.
  assert (H3 : get (activeAccounts (fst x3)) k = get (activeAccounts st2) k /\
               snd x3 = if retryCount task + 1 <? maxRetries cfg then []
                        else [TaskFailed
                                (set_retryCount (retryCount task + 1) task)
                                msg]).
  { subst x3. simpl retryCount.
    destruct (retryCount task + 1 <? maxRetries cfg); [|now split].
    destruct (selectBestAccount st2) as [[k' a']|]; [|now split].
    destruct (String.eqb k' k) eqn:E; simpl; [now split|].
    now rewrite get_update, E. }
  clearbody x3. destruct x3 as [st3 evs]. simpl in H3.
  destruct H3 as [H3 ->]. rewrite H3, H2.
  destruct (get (activeAccounts st) k) as [a|]; simpl;
    [|now rewrite app_nil_r].
  destruct (5 <=? errors a + 1); simpl; [reflexivity | now rewrite app_nil_r].
Qed.

Lemma error_reports_handleTaskError (cfg : Settings) (task : Task)
  (msg : string) (st : State) (k : string) :
  (error_reports k (snd (handleTaskError cfg task msg st)) <= 1)%nat /\
  (error_reports k (snd (handleTaskError cfg task msg st)) = 1%nat ->
   k = accountId task /\
   (exists a, get (activeAccounts st) k = Some a) /\
   ~ alive k (fst (handleTaskError cfg task msg st))).
Proof.
  rewrite handleTaskError_events, error_reports_app.
  assert (H0 : error_reports k
                 (if retryCount task + 1 <? maxRetries cfg then []
                  else [TaskFailed (set_retryCount (retryCount task + 1) task)
                          msg]) = 0%nat)
    by (destruct (_ <? _); reflexivity).
  rewrite H0. simpl.
  destruct (get (activeAccounts st) (accountId task)) as [a|] eqn:Ha;
    [|split; [auto | discriminate]].
  destruct (Z.leb_spec 5 (errors a + 1)) as [H5|H5];
    [|split; [auto | discriminate]].
  unfold error_reports. simpl.
  destruct (String.eqb_spec (accountId task) k) as [<- | Hk];
    [|split; [auto | discriminate]].
  split; [auto|]. intros _. split; [reflexivity|]. split; [eauto|].
  intros (a' & Ha' & Hact).
  rewrite (handleTaskError_failed_account cfg task msg st a Ha) in Ha'.
  injection Ha' as <-. simpl in Hact.
  destruct (Z.leb_spec 5 (errors a + 1)); [discriminate | lia].
Qed.

Lemma touch_from_active (a b : Account) :
  touch a b -> status b = Active -> status a = Active.
Proof.
  induction 1; simpl; auto; try discriminate.
Qed.

Lemma alive_before (m m' : list (string * Account)) (k : string)
  (a' : Account) :
  evolves m m' -> get m' k = Some a' -> status a' = Active ->
  exists a, get m k = Some a /\ status a = Active.
Proof.
  intros He Hg Hs. destruct (evolves_get m m' k a' He Hg) as (a & Ha & Ht).
  exists a. split; [exact Ha|]. eapply touch_from_active; eauto.
Qed.

Lemma finish_task_alive (now : Z) (k k0 : string) (st : State) :
  alive k (finish_task now k0 st) -> alive k st.
Proof.
  intros (a' & Ha' & Hs). simpl in Ha'.
  assert (He : evolves (activeAccounts st)
                 (activeAccounts (finish_task now k0 st))).
  { simpl. apply evolves_update; [|intros; apply touch_decrease].
    apply evolves_update; [apply evolves_refl | intros; apply touch_lastUsed]. }
  exact (alive_before _ _ k a' He Ha' Hs).
Qed.

Lemma processTask_resume_reports (cfg : Settings) (now : Z) (o : Outcome)
  (task : Task) (st : State) (k : string) :
  let r := processTask_resume cfg now o task st in
  (error_reports k (snd r) <= 1)%nat /\
  (error_reports k (snd r) = 1%nat ->
   k = accountId task /\ (exists a, get (activeAccounts st) k = Some a) /\
   ~ alive k (fst r)) /\
  inflight (fst r) = inflight st.
Proof.
  unfold processTask_resume.
  assert (Hh : forall m s,
             inflight s = inflight st ->
             let r := handleTaskError cfg task m s in
             (error_reports k (snd r) <= 1)%nat /\
             (error_reports k (snd r) = 1%nat ->
              k = accountId task /\
              (exists a, get (activeAccounts s) k = Some a) /\
              ~ alive k (fst r)) /\
             inflight (fst r) = inflight st).
  { intros m s Hi.
    destruct (error_reports_handleTaskError cfg task m s k) as [H1 H2].
    destruct (handleTaskError_queue cfg task m s) as (Hin & _).
    simpl. rewrite Hin. auto. }
  assert (Hquiet : forall s : State,
             inflight s = inflight st ->
             (error_reports k [] <= 1)%nat /\
             (error_reports k [] = 1%nat ->
              k = accountId task /\
              (exists a, get (activeAccounts st) k = Some a) /\
              ~ alive k s) /\
             inflight s = inflight st).
  { intros s Hi. split; [auto|]. split; [discriminate | exact Hi]. }
  destruct o as [msg | clock d r].
  { apply (Hh msg st). reflexivity. }
  destruct (negb _); [apply (Hquiet (decreaseWorkload (accountId task) st));
                      reflexivity|].
  destruct r as [msg | err | reply [msg | | rid]].
  - apply (Hh msg st). reflexivity.
  - destruct (Hh err st) as (H1 & H2 & H3); [reflexivity|].
    destruct (handleTaskError cfg task err st) as [st1 evs]. simpl in *.
    split; [exact H1|]. split; [|exact H3].
    intros E. destruct (H2 E) as (Hk & Ha & Hn).
    split; [exact Hk|]. split; [exact Ha|].
    intros Hal. apply Hn. eapply finish_task_alive; eauto.
  - apply (Hh msg st). reflexivity.
  - apply (Hquiet (finish_task now (accountId task) st)). reflexivity.
  - destruct (get (accountStats _) _).
    + split; [unfold error_reports; simpl; auto|].
      split; [discriminate | reflexivity].
    + match goal with
      | |- context [handleTaskError cfg task ?m ?s] =>
          destruct (Hh m s) as (H1 & H2 & H3); [reflexivity|]
      end.
      split; [exact H1|]. split; [|exact H3].
      intros E. destruct (H2 E) as (Hk & [a Ha] & Hn).
      split; [exact Hk|]. split; [|exact Hn].
      simpl in Ha. rewrite get_update in Ha.
      destruct (String.eqb (accountId task) k);
        destruct (get (activeAccounts st) k); simpl in Ha;
        try discriminate; eauto.
Qed.

Lemma assign_loop_appends_or_not (now : Z) (tweets : list Tweet) (st : State) :
  inflight (fold_left (assign_one now) tweets st) = inflight st /\
  processingQueue (fold_left (assign_one now) tweets st) = processingQueue st.
Proof.
  revert st. induction tweets as [|t ts IH]; intros st; simpl; [auto|].
  destruct (IH (assign_one now st t)) as [-> ->].
  unfold assign_one. destruct (selectBestAccount st) as [[k a]|]; auto.
Qed.

Lemma assign_loop_status (now : Z) (tweets : list Tweet) (st : State)
  (k : string) (a' : Account) :
  get (activeAccounts (fold_left (assign_one now) tweets st)) k = Some a' ->
  exists a, get (activeAccounts st) k = Some a /\ status a = status a'.
Proof.
  revert st. induction tweets as [|t ts IH]; intros st; simpl; [eauto|].
  intros H. destruct (IH _ H) as (a1 & H1 & Hs). clear IH H.
  unfold assign_one in H1.
  destruct (selectBestAccount st) as [[k0 a0]|]; [|eauto].
  simpl in H1. rewrite get_update in H1.
  destruct (String.eqb k0 k); [|eauto].
  destruct (get (activeAccounts st) k) as [a|]; [|discriminate].
  injection H1 as <-. eauto.
Qed.

Lemma loop_head_in_flight (st : State) :
  in_flight_active st -> in_flight_active (loop_head st).
Proof.
  intros H. unfold loop_head.
  destruct (taskQueue st) as [|t q]; [exact H|].
  unfold processTask_begin. simpl.
  destruct (get (activeAccounts st) (accountId t)) as [a|] eqn:E;
    [|exact H].
  destruct (status_eqb (status a) Active) eqn:Es; [|exact H].
  intros t' a' [= <-] Ha'. simpl in Ha'. rewrite E in Ha'.
  injection Ha' as <-. now destruct (status a).
Qed.

Lemma step_in_flight (cfg : Settings) (op : Op) (st : State) :
  in_flight_active st -> in_flight_active (fst (step cfg op st)).
Proof.
  intros H. destruct op as [now tweets | now o | | |]; simpl.
  - unfold assignTweets.
    assert (H1 : in_flight_active (fold_left (assign_one now) tweets st)).
    { intros t a' Hi Ha'.
      destruct (assign_loop_appends_or_not now tweets st) as [Hfl _].
      rewrite Hfl in Hi.
      destruct (assign_loop_status now tweets st _ _ Ha') as (a & Ha & <-).
      eauto. }
    unfold processTaskQueue. destruct (_ || _); [exact H1|].
    now apply loop_head_in_flight.
  - destruct (inflight st) as [task|] eqn:E; [|exact H].
    destruct (processTask_resume_reports cfg now o task
                (with_inflight st None) "") as (_ & _ & Hi).
    intros t a Ht. rewrite Hi in Ht. discriminate.
  - destruct (inflight st) eqn:E; [exact H|].
    destruct (processingQueue st); [now apply loop_head_in_flight | exact H].
  - intros t a Hi Ha. simpl in *.
    rewrite (get_map_values (fun e => cleared (snd e))) in Ha.
    destruct (get (activeAccounts st) (accountId t)) as [a0|] eqn:Ea;
      [|discriminate].
    injection Ha as <-. simpl. eauto.
  - intros t a Hi Ha. discriminate.
Qed.

Lemma step_reports (cfg : Settings) (op : Op) (st : State) (k : string) :
  in_flight_active st ->
  (error_reports k (snd (step cfg op st)) <= 1)%nat /\
  (error_reports k (snd (step cfg op st)) = 1%nat ->
   alive k st /\ ~ alive k (fst (step cfg op st))).
Proof.
  intros J.
  destruct op as [now tweets | now o | | |]; simpl;
    try (split; [auto | discriminate]).
  - destruct (inflight st) as [task|] eqn:E; [|split; [auto | discriminate]].
    destruct (processTask_resume_reports cfg now o task
                (with_inflight st None) k) as (H1 & H2 & _).
    split; [exact H1|]. intros E1.
    destruct (H2 E1) as (-> & [a Ha] & Hn). split; [|exact Hn].
    exists a. split; [exact Ha|]. exact (J task a E Ha).
  - destruct (inflight st); [split; [auto | discriminate]|].
    destruct (processingQueue st); split; auto; discriminate.
Qed.

Lemma step_stays_dead (cfg : Settings) (op : Op) (st : State) (k : string) :
  ~ alive k st -> ~ alive k (fst (step cfg op st)).
Proof.
  intros Hn (a' & Ha' & Hs). apply Hn.
  exact (alive_before _ _ k a' (step_evolves cfg op st) Ha' Hs).
Qed.

Lemma run_reports (cfg : Settings) (ops : list Op) :
  forall st k,
    in_flight_active st ->
    (error_reports k (snd (run cfg ops st)) <= 1)%nat /\
    (~ alive k st -> error_reports k (snd (run cfg ops st)) = 0%nat).
Proof.
  induction ops as [|op ops IH]; intros st k J; simpl; [auto|].
  destruct (step_reports cfg op st k J) as [H1 H2].
  pose proof (step_in_flight cfg op st J) as J1.
  pose proof (step_stays_dead cfg op st k) as Hd.
  destruct (step cfg op st) as [st1 evs1].
  destruct (IH st1 k J1) as [H3 H4].
  destruct (run cfg ops st1) as [st2 evs2]. simpl in *.
  rewrite error_reports_app.
  assert (Hc : error_reports k evs1 = 0%nat \/ error_reports k evs1 = 1%nat)
    by lia.
  destruct Hc as [Hc | Hc].
  - rewrite Hc. simpl. split; [exact H3|]. auto.
  - destruct (H2 Hc) as [Hal Hdead]. rewrite (H4 Hdead), Hc.
    split; [lia|]. intros Hn. contradiction.
Qed.

(** X7.  In any run of an initialized dispatcher the "accountError" event is
    emitted at most once for each account: the event that reports the fifth
    error of an account also puts it in the error status, after which no task
    of that account is started. *)
Theorem account_error_reported_once (cfg : Settings)
  (sessions : list (string * Session)) (ops : list Op) (k : string) :
  (error_reports k (snd (run cfg ops (initialized sessions))) <= 1)%nat.
Proof.
  apply run_reports. intros t a Hi.
  unfold initialized, initialize in Hi. simpl in Hi.
  destruct (initialize_queue sessions new) as [_ Hn].
  rewrite Hn in Hi. discriminate.
Qed.

End DispatchExtra.

(* ================================================================= *)
(** * GroupMessageListener: the record, its file and the life cycle *)

Module ListenerExtra.
Import Js JsFacts JsMore Listener ListenerFacts ListenerLife.

(** X9.  With a positive load limit, [loadProcessedTweets] builds a set of
    at most that many ids, all of them from the file, and leaves flags and
    statistics alone; a file that holds a set of no more ids than the
    limit is loaded as it was saved. *)
Theorem load_gives_back_the_saved_record (cache : option Z)
  (file : list string) (st : State) :
  (0 < maxLoad cache)%Z ->
  let st' := loadProcessedTweets cache file st in
  NoDup (processedTweets st') /\
  incl (processedTweets st') file /\
  (length (processedTweets st') <= Z.to_nat (maxLoad cache))%nat /\
  (NoDup file -> (Z.of_nat (length file) <= maxLoad cache)%Z ->
   processedTweets st' = file) /\
  isListening st' = isListening st /\ hasAuth st' = hasAuth st /\
  stats st' = stats st.
Proof.
  intros Hpos. simpl.
  split; [apply set_of_array_is_set|].
  split.
  { intros x Hx. apply set_of_array_incl in Hx.
    now apply slice_incl in Hx. }
  split.
  { etransitivity; [apply set_of_array_length|].
    now apply slice_length_le. }
  split; [|auto].
  intros Hnd Hlen. rewrite slice_all by exact Hlen.
  now apply set_of_array_NoDup.
Qed.

Lemma load_gives_back_the_saved_record_witness :
  (length (processedTweets
             (loadProcessedTweets (Some 1000%Z) long_file (listening ["9"])))
   <= 1000)%nat.
Proof.
  apply (load_gives_back_the_saved_record (Some 1000%Z) long_file
           (listening ["9"])).
  reflexivity.
Defined.

(** The loop of [processTweetLinks] counts what it collects. *)
Lemma scan_found (now : Z) (links : list Link) (acc : Scan) :
  let acc' := fold_left (scan_link now) links acc in
  (found acc' - Z.of_nat (length (newTweets acc')) =
   found acc - Z.of_nat (length (newTweets acc)))%Z.
Proof.
  revert acc. induction links as [|l links IH]; intros acc; simpl;
    [reflexivity|].
  rewrite IH. unfold scan_link.
  destruct (negb (has (seen acc) (statusId l))); simpl; [|reflexivity].
  rewrite length_app. simpl. lia.
Qed.

Lemma completed_app (e1 e2 : list Listener.Event) :
  completed (e1 ++ e2) = (completed e1 + completed e2)%nat.
Proof. unfold completed. now rewrite filter_app, length_app. Qed.

Lemma failed_checks_app (e1 e2 : list Listener.Event) :
  failed_checks (e1 ++ e2) = (failed_checks e1 + failed_checks e2)%nat.
Proof. unfold failed_checks. now rewrite filter_app, length_app. Qed.

Lemma processTweetLinks_counts (now : Z) (links : list Link) (st : State) :
  let r := processTweetLinks now links st in
  isListening (fst r) = isListening st /\ hasAuth (fst r) = hasAuth st /\
  totalMessages (stats (fst r)) = totalMessages (stats st) /\
  errors (stats (fst r)) = errors (stats st) /\
  lastCheck (stats (fst r)) = lastCheck (stats st) /\
  tweetsFound (stats (fst r)) =
    (tweetsFound (stats st) + Z.of_nat (length (emitted_ids (snd r))))%Z /\
  completed (snd r) = 0%nat /\ failed_checks (snd r) = 0%nat.
Proof.
  pose proof (scan_found now links
                (mkScan (processedTweets st) [] (tweetsFound (stats st)) false))
    as Hf.
  simpl in Hf. fold (scan_links now links st) in Hf.
  unfold processTweetLinks.
  set (sc := scan_links now links st) in *.
  assert (He : forall tail,
    (forall e, In e tail -> exists s, e = SaveProcessedTweets s) ->
    length (emitted_ids
              ((if (0 <? length (newTweets sc))%nat
                then [SaveProcessedTweets (seen sc);
                      NewTweetsFound (newTweets sc)]
                else []) ++ tail)) = length (newTweets sc) /\
    completed ((if (0 <? length (newTweets sc))%nat
                then [SaveProcessedTweets (seen sc);
                      NewTweetsFound (newTweets sc)]
                else []) ++ tail) = 0%nat /\
    failed_checks ((if (0 <? length (newTweets sc))%nat
                    then [SaveProcessedTweets (seen sc);
                          NewTweetsFound (newTweets sc)]
                    else []) ++ tail) = 0%nat).
  { intros tail Ht.
    assert (Hz : emitted_ids tail = [] /\ completed tail = 0%nat /\
                 failed_checks tail = 0%nat).
    { clear - Ht. induction tail as [|e tail IH]; [auto|].
      destruct (Ht e (or_introl eq_refl)) as [s ->].
      apply IH. intros e' He'. apply Ht. now right. }
    destruct Hz as (Hz1 & Hz2 & Hz3).
    rewrite emitted_ids_app, completed_app, failed_checks_app, Hz1, Hz2, Hz3.
    destruct (Nat.ltb_spec 0 (length (newTweets sc))) as [Hlt|Hle]; simpl.
    - rewrite !app_nil_r, length_map. auto.
    - split; [lia | auto]. }
  destruct (1000 <? length (seen sc))%nat; simpl.
  - destruct (He (if hasNewTweets sc
                  then [SaveProcessedTweets
                          (set_of_array (slice (-800) (seen sc)))]
                  else [])) as (E1 & E2 & E3).
    { destruct (hasNewTweets sc); intros e He0;
        [destruct He0 as [<- | []]; eauto | destruct He0]. }
    rewrite E1, E2, E3. repeat split; try reflexivity. lia.
  - destruct (He []) as (E1 & E2 & E3); [intros e []|].
    rewrite E1, E2, E3. repeat split; try reflexivity. lia.
Qed.

(** X11.  After [stop] the listener does not poll: a later
    [checkGroupMessages] changes nothing and emits nothing, and a second
    [stop] does nothing.  A [stop] of a listening listener clears the
    timer, keeps the record and asks for exactly one save, of the whole
    record, before it reports the end. *)
Theorem stopped_listener_is_silent (cleanup : AuthCleanup) (l : Life) :
  let l' := fst (stop cleanup l) in
  isListening (core l') = false /\
  (forall now fetch,
     checkGroupMessages now fetch (core l') = (core l', [])) /\
  (forall cleanup', stop cleanup' l' = (l', [])) /\
  processedTweets (core l') = processedTweets (core l) /\
  stats (core l') = stats (core l) /\
  polled (snd (stop cleanup l)) =
    (if isListening (core l)
     then [SaveProcessedTweets (processedTweets (core l))] else []) /\
  (isListening (core l) = true -> ticking l' = false).
Proof.
  unfold stop.
  destruct (isListening (core l)) eqn:Hl; simpl.
  - destruct (hasAuth (core l)), cleanup; simpl; repeat split; reflexivity.
  - unfold checkGroupMessages. rewrite Hl. simpl.
    repeat split; try reflexivity. discriminate.
Qed.

(** X13.  A restart resumes where the listener was: when a live listener
    is stopped and started again on the file that [stop] wrote, the first
    poll of the new run is the poll the old run would have made, on the
    same record and the same statistics. *)
Theorem restart_resumes_from_the_saved_record (cache : option Z)
  (cleanup : AuthCleanup) (now : Z) (fetch : Fetch) (l : Life) :
  live (core l) = true ->
  NoDup (processedTweets (core l)) ->
  (Z.of_nat (length (processedTweets (core l))) <= maxLoad cache)%Z ->
  start cache (FileWith (processedTweets (core l))) AuthOk now fetch
    (fst (stop cleanup l)) =
  (mkLife (fst (checkGroupMessages now fetch (core l))) true,
   map Poll (snd (checkGroupMessages now fetch (core l)))
     ++ [ListenerStarted],
   Multi.Returned).
Proof.
  intros Hlive Hnd Hlen.
  unfold live in Hlive. apply andb_true_iff in Hlive.
  destruct Hlive as [Hl Ha].
  destruct l as [[i a p s] t]. simpl in *. subst i a.
  assert (E : set_of_array (slice (- maxLoad cache) p) = p).
  { rewrite slice_all by exact Hlen. now apply set_of_array_NoDup. }
  unfold stop, start, load, loadProcessedTweets, set_listening, set_auth.
  simpl.
  destruct cleanup; simpl; rewrite E;
    now destruct (checkGroupMessages now fetch (mkState true true p s)).
Qed.

Lemma restart_resumes_from_the_saved_record_witness :
  let l := mkLife (listening ["7"; "8"]) true in
  start None (FileWith (processedTweets (core l))) AuthOk 5 (Fetched None)
    (fst (stop CleanedUp l)) =
  (mkLife (fst (checkGroupMessages 5 (Fetched None) (core l))) true,
   map Poll (snd (checkGroupMessages 5 (Fetched None) (core l)))
     ++ [ListenerStarted],
   Multi.Returned).
Proof.
  apply (restart_resumes_from_the_saved_record None CleanedUp 5
           (Fetched None) (mkLife (listening ["7"; "8"]) true)).
  - reflexivity.
  - repeat constructor; simpl; intuition discriminate.
  - simpl. lia.
Defined.

(** X14.  An item is emitted only after its id has been handed to the
    save: when a poll cycle emits "new tweets found", the event is
    preceded at once by the request to save the record, and the snapshot
    saved is a set that holds the earlier record and the id of every item
    of the event. *)
Theorem new_tweets_are_saved_before_they_are_emitted (now : Z)
  (fetch : Fetch) (st : State) (tweets : list TweetInfo) :
  NoDup (processedTweets st) ->
  In (NewTweetsFound tweets) (snd (checkGroupMessages now fetch st)) ->
  exists snapshot rest,
    snd (checkGroupMessages now fetch st) =
      SaveProcessedTweets snapshot :: NewTweetsFound tweets :: rest /\
    NoDup snapshot /\
    snapshot = processedTweets st ++ map id tweets.
Proof.
  intros Hnd Hin.
  unfold checkGroupMessages in *.
  destruct (negb (isListening st) || negb (hasAuth st)); [destruct Hin|].
  destruct fetch as [[[|l ls]|]|message reconnect]; simpl in *.
  - destruct Hin as [Hin | []]. discriminate.
  - match type of Hin with
    | context [processTweetLinks ?n ?l ?s] =>
        destruct (scan_links_spec n l s) as (Hseen & Hd & Hiff & _);
        unfold processTweetLinks in *;
        set (sc := scan_links n l s) in *
    end.
    simpl in Hseen, Hiff.
    assert (Hsnap : NoDup (seen sc)).
    { rewrite Hseen. apply NoDup_app; auto.
      intros a Ha Hb. apply Hiff in Hb. tauto. }
    destruct (1000 <? length (seen sc))%nat; simpl in *;
      destruct (0 <? length (newTweets sc))%nat; simpl in *.
    + destruct Hin as [Hin | [Hin | Hin]]; try discriminate.
      * injection Hin as <-. eexists _, _. split; [reflexivity|]. auto.
      * exfalso. destruct (hasNewTweets sc); simpl in Hin;
          intuition discriminate.
    + exfalso. destruct (hasNewTweets sc); simpl in Hin;
        intuition discriminate.
    + destruct Hin as [Hin | [Hin | [Hin | []]]]; try discriminate.
      injection Hin as <-. eexists _, _. split; [reflexivity|]. auto.
    + destruct Hin as [Hin | []]. discriminate.
  - destruct Hin as [Hin | []]. discriminate.
  - destruct Hin as [Hin | Hin]; [discriminate|]. exfalso.
    destruct (includes message _ || includes message _); [|destruct Hin].
    unfold handleAuthError in Hin. simpl in Hin.
    destruct (hasAuth st); [|destruct Hin].
    destruct reconnect as [[|]|]; simpl in Hin; intuition discriminate.
Qed.

Lemma new_tweets_are_saved_before_they_are_emitted_witness :
  exists snapshot rest,
    snd (checkGroupMessages 0 (Fetched (Some (id_links 8 1)))
           (listening ["7"])) =
      SaveProcessedTweets snapshot ::
      NewTweetsFound
        [mkTweetInfo "8" "https://x.com/u/status/8" "u" "/u/status/8" 0
           "group_message"] :: rest /\
    NoDup snapshot /\
    snapshot = ["7"] ++ ["8"].
Proof.
  apply (new_tweets_are_saved_before_they_are_emitted 0
           (Fetched (Some (id_links 8 1))) (listening ["7"])
           [mkTweetInfo "8" "https://x.com/u/status/8" "u" "/u/status/8" 0
              "group_message"]).
  - repeat constructor; simpl; intuition.
  - vm_compute. right. left. reflexivity.
Defined.

End ListenerExtra.

(* ================================================================= *)
(** * The session of a listener: what a poll cycle receives *)

Module ScrapeFacts.
Import Js JsFacts Listener ListenerFacts Scrape.

Lemma append_assoc (a b c : string) :
  String.append (String.append a b) c = String.append a (String.append b c).
Proof. induction a as [|x a IH]; simpl; [reflexivity | now rewrite IH]. Qed.

Lemma append_empty (a : string) : String.append a "" = a.
Proof. induction a as [|x a IH]; simpl; [reflexivity | now rewrite IH]. Qed.

Lemma every_append (p : ascii -> bool) (a b : string) :
  every p (String.append a b) = every p a && every p b.
Proof.
  induction a as [|x a IH]; simpl; [reflexivity|].
  now rewrite IH, andb_assoc.
Qed.

(** The greedy run splits the text, holds only characters of the class and
    stops at the end of the text or at a character outside of the class. *)
Lemma span_spec (p : ascii -> bool) (s : string) :
  s = String.append (fst (span p s)) (snd (span p s)) /\
  every p (fst (span p s)) = true /\
  match snd (span p s) with
  | EmptyString => True
  | String c _ => p c = false
  end.
Proof.
  induction s as [|c s IH]; simpl; [auto|].
  destruct (p c) eqn:E.
  - destruct (span p s) as [a b]. simpl in *.
    destruct IH as (I1 & I2 & I3). rewrite E, I2, <- I1. auto.
  - simpl. auto.
Qed.

Lemma span_append (p : ascii -> bool) (a b : string) :
  every p a = true ->
  match b with EmptyString => True | String c _ => p c = false end ->
  span p (String.append a b) = (a, b).
Proof.
  intros Ha Hb. induction a as [|x a IH]; simpl in *.
  - destruct b as [|c b]; [reflexivity|]. simpl. now rewrite Hb.
  - apply andb_true_iff in Ha. destruct Ha as [Hx Ha].
    rewrite Hx, (IH Ha). reflexivity.
Qed.

Lemma literal_spec (lit s rest : string) :
  literal lit s = Some rest <-> s = String.append lit rest.
Proof.
  revert s. induction lit as [|a lit IH]; intros s; simpl.
  - split; [now intros [= ->] | now intros ->].
  - destruct s as [|b s]; [split; discriminate|].
    destruct (Ascii.eqb_spec a b) as [->|Hne].
    + rewrite IH. split; [now intros -> | now intros [= ->]].
    + split; [discriminate | intros H; congruence].
Qed.

Lemma eqb_empty (s : string) : String.eqb s "" = false <-> s <> "".
Proof. destruct (String.eqb_spec s ""); split; congruence. Qed.

(** What a match of the pattern says about the text, and conversely. *)
Lemma match_tweet_path_spec (href user digits : string) :
  match_tweet_path href = Some (user, digits) <->
  user <> "" /\ every not_slash user = true /\
  digits <> "" /\ every is_digit digits = true /\
  exists rest,
    no_digit_ahead rest /\
    href = String.append "/"
             (String.append user
                (String.append "/status/" (String.append digits rest))).
Proof.
  unfold match_tweet_path. split.
  - destruct (literal "/" href) as [rest|] eqn:E0; [|discriminate].
    apply literal_spec in E0.
    destruct (span_spec not_slash rest) as (S1 & S2 & _).
    destruct (span not_slash rest) as [u rest1]. cbn [fst snd] in *.
    destruct (String.eqb u "") eqn:Eu; [discriminate|].
    destruct (literal "/status/" rest1) as [rest2|] eqn:E1; [|discriminate].
    apply literal_spec in E1.
    destruct (span_spec is_digit rest2) as (D1 & D2 & D3).
    destruct (span is_digit rest2) as [d rest3]. cbn [fst snd] in *.
    destruct (String.eqb d "") eqn:Ed; [discriminate|].
    intros [= <- <-].
    apply eqb_empty in Eu. apply eqb_empty in Ed.
    repeat (split; [assumption|]).
    exists rest3. split; [exact D3|].
    rewrite E0, S1, E1, D1. reflexivity.
  - intros (Hu & Hus & Hd & Hds & rest & Hrest & ->).
    simpl.
    rewrite (span_append not_slash user); [| exact Hus | reflexivity].
    apply eqb_empty in Hu. rewrite Hu. simpl.
    rewrite (span_append is_digit digits); [| exact Hds | exact Hrest].
    apply eqb_empty in Hd. now rewrite Hd.
Qed.

Lemma prefix_append (a b : string) : String.prefix a (String.append a b) = true.
Proof.
  induction a as [|x a IH]; simpl; [now destruct b|].
  destruct (ascii_dec x x); [exact IH | contradiction].
Qed.

Lemma extract_canonical (href : option string) :
  Forall canonical (extract href) /\
  Forall (fun e => valid e = true) (extract href) /\
  (length (extract href) <= 1)%nat.
Proof.
  unfold extract. destruct href as [h|]; [|simpl; auto].
  destruct (match_tweet_path h) as [[user digits]|] eqn:E; [|simpl; auto].
  pose proof E as E'.
  apply match_tweet_path_spec in E.
  destruct E as (Hu & Hus & Hd & Hds & rest & Hrest & ->).
  split; [|split; [|simpl; lia]].
  - constructor; [|constructor]. unfold canonical. simpl link.
    cbn [username statusId tweetPath fullUrl originalHref].
    repeat (split; [first [assumption | reflexivity]|]).
    split.
    + replace (String.append "/"
                 (String.append user
                    (String.append "/status/" (String.append digits rest))))
        with (String.append
                (String.append "/"
                   (String.append user (String.append "/status/" digits)))
                rest).
      * apply prefix_append.
      * simpl. f_equal. rewrite !append_assoc. reflexivity.
    + apply match_tweet_path_spec.
      repeat (split; [assumption|]).
      exists "". split; [exact I|].
      now rewrite append_empty.
  - constructor; [|constructor]. unfold valid. simpl.
    apply eqb_empty in Hd. now rewrite Hd, Hds.
Qed.

Lemma evaluate_canonical (hrefs : list (option string)) :
  Forall canonical (evaluate hrefs) /\
  Forall (fun e => valid e = true) (evaluate hrefs) /\
  (length (evaluate hrefs) <= length hrefs)%nat.
Proof.
  unfold evaluate. induction hrefs as [|h hrefs IH]; simpl.
  - repeat split; constructor.
  - destruct (extract_canonical h) as (E1 & E2 & E3).
    destruct IH as (I1 & I2 & I3).
    rewrite length_app. repeat split; try apply Forall_app; auto. lia.
Qed.

Lemma filter_all {A : Type} (f : A -> bool) (l : list A) :
  Forall (fun x => f x = true) l -> filter f l = l.
Proof.
  induction 1 as [|x l Hx _ IH]; simpl; [reflexivity|].
  now rewrite Hx, IH.
Qed.

End ScrapeFacts.

Module ScrapeSpec.
Import Js JsFacts JsMore Listener ListenerFacts ListenerLife Scrape ScrapeFacts.

(** X15.  Every link that [getTweetLinks] returns is in the form that the
    pattern fixes: a user name without slash, an id of decimal digits, the
    path [/user/status/id] and its address under [https://x.com]; the path
    is a prefix of the [href] it was read from and is matched by the
    pattern again, with the same groups.  The second filter therefore never
    drops a link: [invalid] is 0 and [valid] equals [total], which is at
    most the number of elements read; a call that failed returns no
    link. *)
Theorem extracted_links_are_canonical (account_id : string) (now : Z)
  (page : Page) :
  let r := getTweetLinks account_id now page in
  Forall canonical (tweetLinks r) /\
  invalid (lr_stats r) = 0%Z /\
  valid_links (lr_stats r) = total (lr_stats r) /\
  total (lr_stats r) = length (tweetLinks r) /\
  (uniqueTweets (lr_stats r) <= total (lr_stats r))%nat /\
  (uniqueUsers (lr_stats r) <= total (lr_stats r))%nat /\
  match page with
  | Loaded _ hrefs =>
      success r = true /\ tweetLinks r = evaluate hrefs /\
      (total (lr_stats r) <= length hrefs)%nat
  | PageThrew message =>
      success r = false /\ tweetLinks r = [] /\ error r = Some message
  end.
Proof.
  destruct page as [url hrefs|message]; simpl.
  - destruct (evaluate_canonical hrefs) as (H1 & H2 & H3).
    rewrite (filter_all valid _ H2).
    repeat split; try assumption; try lia.
    + etransitivity; [apply (fold_add_length _ [])|].
      simpl. now rewrite length_map.
    + etransitivity; [apply (fold_add_length _ [])|].
      simpl. now rewrite length_map.
  - repeat split; try constructor; lia.
Qed.

(** X16.  The pattern matches exactly the texts that start with
    [/user/status/id]: for a user name that is not empty and has no slash
    and an id of one or more decimal digits that no further digit follows,
    the match gives back the name and the id, whatever comes after. *)
Theorem tweet_path_is_recognized (user digits rest : string) :
  user <> "" -> every not_slash user = true ->
  digits <> "" -> every is_digit digits = true ->
  no_digit_ahead rest ->
  match_tweet_path
    (String.append "/"
       (String.append user
          (String.append "/status/" (String.append digits rest)))) =
  Some (user, digits).
Proof.
  intros Hu Hus Hd Hds Hrest. apply match_tweet_path_spec.
  repeat (split; [assumption|]). now exists rest.
Qed.

Lemma tweet_path_is_recognized_witness :
  match_tweet_path "/bob/status/77?s=20" = Some ("bob", "77").
Proof.
  apply (tweet_path_is_recognized "bob" "77" "?s=20");
    try discriminate; reflexivity.
Defined.

Lemma poll_spec (account_id : string) (now fetched : Z) (page : Page)
  (auth : Auth) (st : State) :
  let r := poll account_id now fetched page auth st in
  live (fst (fst r)) = live st /\
  processedTweets (fst (fst r)) = processedTweets st /\
  tweetsFound (stats (fst (fst r))) = tweetsFound (stats st) /\
  snd (fst r) =
    (if live st then [MessageCheckCompleted now 0] else []).
Proof.
  unfold poll. destruct (live st) eqn:Hl; [|simpl; rewrite Hl; auto].
  unfold getGroupNotifications. simpl.
  unfold live in Hl. apply andb_true_iff in Hl. destruct Hl as [Hl Ha].
  unfold checkGroupMessages, live. rewrite Hl, Ha. simpl. auto.
Qed.

(** X17.  A listener whose session is a [RettwitAuth] never receives a
    link: [getGroupNotifications] stores the whole answer of
    [getTweetLinks], an object, in [tweetLinks], where [checkGroupMessages]
    looks for an array.  Whatever the pages of a run of poll cycles hold,
    no "new tweets found" event is emitted, the record and [tweetsFound]
    stay as they are, and a live listener reports every cycle as completed
    with [linksFound] 0. *)
Theorem session_polls_never_find_a_link (account_id : string)
  (cycles : list (Z * Z * Page)) (auth : Auth) (st : State) :
  let r := polls account_id cycles auth st in
  emitted_ids (snd (fst r)) = [] /\
  processedTweets (fst (fst r)) = processedTweets st /\
  tweetsFound (stats (fst (fst r))) = tweetsFound (stats st) /\
  snd (fst r) =
    (if live st
     then map (fun c => MessageCheckCompleted (fst (fst c)) 0) cycles
     else []).
Proof.
  revert auth st. induction cycles as [|[[now fetched] page] cycles IH];
    intros auth st; simpl.
  - repeat split; try reflexivity. now destruct (live st).
  - pose proof (poll_spec account_id now fetched page auth st) as P.
    destruct (poll account_id now fetched page auth st) as [[st1 evs1] auth1].
    simpl in P. destruct P as (P1 & P2 & P3 & P4).
    specialize (IH auth1 st1).
    destruct (polls account_id cycles auth1 st1) as [[st2 evs2] auth2].
    simpl in *. destruct IH as (I1 & I2 & I3 & I4).
    rewrite emitted_ids_app, I1, I2, I3, I4, P1, P2, P3, P4.
    destruct (live st); simpl; auto.
Qed.

(** X18.  [getGroupNotifications] answers from its cache only when the
    caller allows it and the last fetch ended less than five minutes ago:
    then a second call with the same count and cursor returns the first
    answer and neither reads the page nor changes the cache.  With
    [useCache] false, as the listener calls it, every call reads the page
    and stores what it returns under the key, where a later call finds
    it. *)
Theorem notifications_are_cached_for_five_minutes (account_id : string)
  (count : nat) (cursor : option string) (useCache : bool)
  (now fetched now' fetched' : Z) (page page' : Page) (auth : Auth) :
  fetched <> 0%Z -> (now' - fetched < cacheExpiry)%Z ->
  let first :=
    getGroupNotifications account_id count cursor false now fetched page
      auth in
  let second :=
    getGroupNotifications account_id count cursor useCache now' fetched'
      page' (snd first) in
  n_tweetLinks (fst first) = getTweetLinks account_id fetched page /\
  Js.get (notificationCache (snd first)) (cacheKey count cursor) =
    Some (fst first) /\
  (if useCache
   then second = (fst first, snd first)
   else n_tweetLinks (fst second) = getTweetLinks account_id fetched' page').
Proof.
  intros Hf Hlt. simpl.
  split; [reflexivity|].
  split; [now rewrite get_set, String.eqb_refl|].
  destruct useCache; [|reflexivity].
  unfold getGroupNotifications at 1. simpl.
  unfold isNotificationCacheValid. simpl.
  apply Z.eqb_neq in Hf. rewrite Hf.
  apply Z.ltb_lt in Hlt. rewrite Hlt, get_set, String.eqb_refl. reflexivity.
Qed.

Lemma notifications_are_cached_for_five_minutes_witness :
  getGroupNotifications "g" 50 None true 200000 200500 (PageThrew "x")
    (snd (getGroupNotifications "g" 50 None false 1000 4000 sample_page
            (mkAuth [] None))) =
  (fst (getGroupNotifications "g" 50 None false 1000 4000 sample_page
          (mkAuth [] None)),
   snd (getGroupNotifications "g" 50 None false 1000 4000 sample_page
          (mkAuth [] None))).
Proof.
  apply (notifications_are_cached_for_five_minutes "g" 50 None true
           1000 4000 200000 200500 sample_page (PageThrew "x")
           (mkAuth [] None)).
  - discriminate.
  - reflexivity.
Defined.

End ScrapeSpec.

(* ================================================================= *)
(** * A listener under its handlers *)

Module WiredFacts.
Import Js JsMore ListenerLife Wired.

Section Returning.

Variables S E : Type.
Variable on : Event -> S -> S * list E * option string.

(** Handlers that return as long as the state of their owner satisfies
    [inv], which they keep. *)
Variable inv : S -> Prop.
Hypothesis on_returns :
  forall e s, inv s -> snd (on e s) = None /\ inv (fst (fst (on e s))).

Lemma emit_follows (e : Event) (o : Outcome S E) :
  inv (owner o) -> follows inv o (emit on e o) (listener o) [e].
Proof.
  intros Hi. unfold emit, follows.
  destruct (on_returns e (owner o) Hi) as [Ht Hi'].
  destruct (on e (owner o)) as [[s out] t]. simpl in *. now subst.
Qed.

Lemma follows_refl (o : Outcome S E) :
  thrown o = None -> inv (owner o) -> follows inv o o (listener o) [].
Proof. intros Ht Hi. repeat split; auto. now rewrite app_nil_r. Qed.

Lemma follows_trans (o o1 o2 : Outcome S E) (st1 st2 : Listener.State)
  (evs1 evs2 : list Event) :
  follows inv o o1 st1 evs1 -> follows inv o1 o2 st2 evs2 ->
  follows inv o o2 st2 (evs1 ++ evs2).
Proof.
  intros (A1 & A2 & A3 & A4) (B1 & B2 & B3 & B4).
  repeat split; auto. now rewrite B2, A2, app_assoc.
Qed.

Lemma processTweetLinks_follows (now : Z) (links : list Listener.Link)
  (o : Outcome S E) :
  inv (owner o) ->
  follows inv o (processTweetLinks on now links o)
    (fst (Listener.processTweetLinks now links (listener o)))
    (map Poll (snd (Listener.processTweetLinks now links (listener o)))).
Proof.
  intros Hi. unfold processTweetLinks.
  destruct (0 <? length _)%nat; [|now repeat split].
  match goal with
  | |- context [emit on ?e ?o1] =>
      destruct (emit_follows e o1 Hi) as (_ & _ & Ht & Hi')
  end.
  rewrite Ht. now repeat split.
Qed.

Lemma handleAuthError_follows (reconnect : option bool) (o : Outcome S E) :
  thrown o = None -> inv (owner o) ->
  follows inv o (handleAuthError on reconnect o) (listener o)
    (map Poll (Listener.handleAuthError (listener o) reconnect)).
Proof.
  intros Ht Hi. unfold handleAuthError, Listener.handleAuthError.
  destruct (Listener.hasAuth (listener o)); [|now apply follows_refl].
  destruct reconnect as [[|]|].
  - destruct (emit_follows (Poll Listener.AuthRecovered) o Hi)
      as (H1 & H2 & H3 & H4).
    simpl. rewrite H3. now repeat split.
  - destruct (emit_follows (Poll Listener.AuthFailed) o Hi)
      as (H1 & H2 & H3 & H4).
    simpl. rewrite H3. now repeat split.
  - now apply emit_follows.
Qed.

Lemma check_failed_follows (message : string) (reconnect : option bool)
  (o : Outcome S E) :
  inv (owner o) ->
  let st := listener o in
  let s := Listener.stats st in
  let counted :=
    Listener.mkState (Listener.isListening st) (Listener.hasAuth st)
      (Listener.processedTweets st)
      (Listener.mkStats (Listener.totalMessages s) (Listener.tweetsFound s)
         (Listener.lastCheck s) (Listener.errors s + 1)) in
  follows inv o (check_failed on message reconnect o) counted
    (Poll (Listener.MessageCheckError message) ::
     map Poll
       (if includes message "认证" || includes message "401"
        then Listener.handleAuthError counted reconnect else [])).
Proof.
  intros Hi st s counted. unfold check_failed. fold st s counted.
  pose proof (emit_follows (Poll (Listener.MessageCheckError message))
                (with_listener counted o) Hi) as F.
  simpl in F. destruct F as (F1 & F2 & F3 & F4).
  rewrite F3.
  destruct (includes message "认证" || includes message "401").
  - pose proof (handleAuthError_follows reconnect _ F3 F4) as G.
    rewrite F1 in G. destruct G as (G1 & G2 & G3 & G4).
    repeat split; auto.
    rewrite G2, F2. simpl. now rewrite <- app_assoc.
  - now repeat split.
Qed.

Lemma checkGroupMessages_follows (now : Z) (fetch : Listener.Fetch)
  (reconnect : option bool) (o : Outcome S E) :
  thrown o = None -> inv (owner o) ->
  follows inv o (checkGroupMessages on now fetch reconnect o)
    (fst (Listener.checkGroupMessages now fetch (listener o)))
    (map Poll (snd (Listener.checkGroupMessages now fetch (listener o)))).
Proof.
  intros Ht Hi.
  unfold checkGroupMessages, Listener.checkGroupMessages.
  destruct (negb (Listener.isListening (listener o)) ||
            negb (Listener.hasAuth (listener o)));
    [now apply follows_refl|].
  destruct fetch as [links|message reconnect'].
  - set (st2 := Listener.mkState _ _ _
                  (Listener.mkStats (_ + 1) _ _ _)).
    assert (F : exists o1,
      (match links with
       | Some (l :: ls) =>
           processTweetLinks on now (l :: ls) (with_listener st2 o)
       | _ => with_listener st2 o
       end) = o1 /\
      follows inv o o1
        (fst (match links with
              | Some (l :: ls) => Listener.processTweetLinks now (l :: ls) st2
              | _ => (st2, [])
              end))
        (map Poll
           (snd (match links with
                 | Some (l :: ls) =>
                     Listener.processTweetLinks now (l :: ls) st2
                 | _ => (st2, [])
                 end)))).
    { eexists. split; [reflexivity|].
      destruct links as [[|l ls]|];
        try (repeat split; simpl; auto; now rewrite app_nil_r).
      apply (processTweetLinks_follows now (l :: ls) (with_listener st2 o)).
      exact Hi. }
    destruct F as (o1 & -> & F1 & F2 & F3 & F4).
    rewrite F3.
    match goal with
    | |- context [emit on ?e o1] =>
        destruct (emit_follows e o1 F4) as (G1 & G2 & G3 & G4)
    end.
    rewrite G3.
    destruct (match links with
              | Some (l :: ls) => Listener.processTweetLinks now (l :: ls) st2
              | _ => (st2, [])
              end) as [st3 evs] eqn:E3.
    simpl in *. repeat split; auto; try congruence.
    rewrite G2, F2, map_app, app_assoc. reflexivity.
  - match goal with
    | |- context [check_failed on message reconnect' ?o1] =>
        pose proof (check_failed_follows message reconnect' o1 Hi) as F
    end.
    exact F.
Qed.

Lemma start_follows (cache : option Z) (f : File) (auth : AuthInit)
  (now : Z) (fetch : Listener.Fetch) (reconnect : option bool) (l : Life)
  (s : S) :
  inv s ->
  let r := start on cache f auth now fetch reconnect l s in
  let r0 := ListenerLife.start cache f auth now fetch l in
  fst r = fst (fst r0) /\
  listener (snd r) = core (fst (fst r0)) /\
  emitted (snd r) = snd (fst r0) /\
  thrown (snd r) =
    match snd r0 with
    | Multi.Returned => None
    | Multi.Threw message => Some message
    end /\
  inv (owner (snd r)).
Proof.
  intros Hi. unfold start, ListenerLife.start.
  destruct (Listener.isListening (core l)); [now repeat split|].
  destruct (load cache f (core l)) as [st1 loaded].
  assert (Hfail : forall ticks message (o : Outcome S E),
    inv (owner o) ->
    let o1 := emit on (ListenerError message)
                (with_listener (set_listening false (listener o)) o) in
    let r := (mkLife (listener o1) ticks,
              match thrown o1 with
              | Some _ => o1
              | None => mkOutcome (listener o1) (owner o1) (emitted o1)
                          (forwarded o1) (Some message)
              end) in
    fst r = mkLife (set_listening false (listener o)) ticks /\
    listener (snd r) = set_listening false (listener o) /\
    emitted (snd r) = emitted o ++ [ListenerError message] /\
    thrown (snd r) = Some message /\ inv (owner (snd r))).
  { intros ticks message o Ho.
    destruct (emit_follows (ListenerError message)
                (with_listener (set_listening false (listener o)) o) Ho)
      as (F1 & F2 & F3 & F4).
    simpl. rewrite F3. simpl in *. rewrite F1. now repeat split. }
  destruct auth as [| |message].
  - match goal with
    | |- context [checkGroupMessages on now fetch reconnect ?o0] =>
        destruct (checkGroupMessages_follows now fetch reconnect o0
                    eq_refl Hi) as (F1 & F2 & F3 & F4)
    end.
    simpl in F1, F2. rewrite F3.
    match goal with
    | |- context [emit on ListenerStarted ?o1] =>
        destruct (emit_follows ListenerStarted o1 F4) as (G1 & G2 & G3 & G4)
    end.
    rewrite G3.
    destruct (Listener.checkGroupMessages now fetch _) as [st3 evs].
    simpl in *. rewrite G1, G2, F1, F2. repeat split; auto.
    now rewrite <- app_assoc.
  - apply (Hfail (ticking l) "群组账号认证失败"
             (mkOutcome (set_auth true st1) s (map Poll loaded) [] None) Hi).
  - apply (Hfail (ticking l) message
             (mkOutcome (set_auth true st1) s (map Poll loaded) [] None) Hi).
Qed.

End Returning.

Import Multi.

Lemma on_entry_missing (groupId : string) (f : GroupStat -> GroupStat)
  (e : Forwarded) (message : string) (s : Stats) :
  inherited groupId = false -> Js.get (groupStats s) groupId = None ->
  on_entry groupId f e message s = (s, [], Some message).
Proof. intros Hi Hg. unfold on_entry. now rewrite Hg, Hi. Qed.

(** Without an entry for the group the [catch] block of
    [checkGroupMessages] is left by the [TypeError] of the handler of
    "messageCheckError", which has counted the error in the total. *)
Lemma check_failed_missing (c : GroupConfig) (message : string)
  (reconnect : option bool) (o : Outcome Stats Forwarded) :
  inherited (id c) = false ->
  Js.get (groupStats (owner o)) (id c) = None ->
  let o' := check_failed (setupGroupListenerEvents c) message reconnect o in
  thrown o' =
    Some "Cannot read properties of undefined (reading 'errors')" /\
  forwarded o' = forwarded o /\
  same_groups (owner o) (owner o') /\
  totalTweetsFound (owner o') = totalTweetsFound (owner o) /\
  totalErrors (owner o') = (totalErrors (owner o) + 1)%Z /\
  Listener.isListening (listener o') = Listener.isListening (listener o) /\
  Listener.hasAuth (listener o') = Listener.hasAuth (listener o).
Proof.
  intros Hi Hg. unfold check_failed, emit. simpl.
  rewrite on_entry_missing by assumption. simpl.
  rewrite app_nil_r. repeat split.
Qed.

Lemma checkGroupMessages_missing (c : GroupConfig) (now : Z)
  (fetch : Listener.Fetch) (reconnect : option bool)
  (o : Outcome Stats Forwarded) :
  inherited (id c) = false ->
  Js.get (groupStats (owner o)) (id c) = None ->
  Listener.live (listener o) = true -> thrown o = None ->
  let o' :=
    checkGroupMessages (setupGroupListenerEvents c) now fetch reconnect o in
  thrown o' =
    Some "Cannot read properties of undefined (reading 'errors')" /\
  forwarded o' = forwarded o /\
  same_groups (owner o) (owner o') /\
  (totalTweetsFound (owner o) <= totalTweetsFound (owner o'))%Z /\
  totalErrors (owner o') = (totalErrors (owner o) + 1)%Z.
Proof.
  intros Hi Hg Hl Ht. unfold Listener.live in Hl.
  apply andb_true_iff in Hl. destruct Hl as [Hl Ha].
  destruct o as [st s evs fw th]. simpl in Hg, Hl, Ha, Ht. subst th.
  cbn [owner forwarded].
  assert (K : forall (o1 : Outcome Stats Forwarded) message rc,
    same_groups s (owner o1) ->
    (totalTweetsFound s <= totalTweetsFound (owner o1))%Z ->
    totalErrors (owner o1) = totalErrors s ->
    forwarded o1 = fw ->
    let o' := check_failed (setupGroupListenerEvents c) message rc o1 in
    thrown o' =
      Some "Cannot read properties of undefined (reading 'errors')" /\
    forwarded o' = fw /\
    same_groups s (owner o') /\
    (totalTweetsFound s <= totalTweetsFound (owner o'))%Z /\
    totalErrors (owner o') = (totalErrors s + 1)%Z).
  { intros o1 message rc (S1 & S2 & S3 & S4) Hle He Hf.
    assert (Hg1 : Js.get (groupStats (owner o1)) (id c) = None)
      by now rewrite S3.
    destruct (check_failed_missing c message rc o1 Hi Hg1)
      as (C1 & C2 & (C3 & C4 & C5 & C6) & C7 & C8 & _).
    cbv zeta. rewrite C1, C2, C7, C8, He, Hf.
    repeat split; try congruence; lia. }
  assert (R : same_groups s s) by now repeat split.
  unfold checkGroupMessages. simpl listener. rewrite Hl, Ha.
  cbn [negb orb]. unfold with_listener. cbn [owner emitted forwarded thrown].
  destruct fetch as [links|message reconnect'].
  - assert (P : forall (o1 : Outcome Stats Forwarded),
      owner o1 = s -> forwarded o1 = fw ->
      let o2 :=
        emit (setupGroupListenerEvents c)
          (Poll (Listener.MessageCheckCompleted now
                   (match links with
                    | Some ls => length ls
                    | None => 0%nat
                    end))) o1 in
      let o' :=
        match thrown o2 with
        | Some message =>
            check_failed (setupGroupListenerEvents c) message reconnect o2
        | None => o2
        end in
      thrown o' =
        Some "Cannot read properties of undefined (reading 'errors')" /\
      forwarded o' = fw /\
      same_groups s (owner o') /\
      (totalTweetsFound s <= totalTweetsFound (owner o'))%Z /\
      totalErrors (owner o') = (totalErrors s + 1)%Z).
    { intros o1 Ho Hf. unfold emit. simpl. rewrite Ho.
      rewrite on_entry_missing by assumption. simpl.
      apply K; simpl; auto; try lia. now rewrite app_nil_r. }
    destruct links as [[|l ls]|]; try (apply P; reflexivity).
    unfold processTweetLinks. cbn [listener owner emitted forwarded thrown].
    match goal with
    | |- context [(0 <? ?n)%nat] => destruct (0 <? n)%nat
    end.
    + unfold emit. cbn [listener owner emitted forwarded thrown].
      cbn [setupGroupListenerEvents].
      rewrite on_entry_missing by assumption.
      cbn [listener owner emitted forwarded thrown].
      apply K; simpl; auto; try lia. now rewrite app_nil_r.
    + cbn [thrown]. apply P; reflexivity.
  - apply K; simpl; auto; lia.
Qed.

(** The entry of the group in the statistics of the aggregator is there,
    and stays there through every handler, which therefore returns. *)
Lemma handlers_return_with_entry (c : GroupConfig) (e : ListenerLife.Event)
  (s : Stats) :
  Js.get (groupStats s) (id c) <> None ->
  snd (setupGroupListenerEvents c e s) = None /\
  Js.get (groupStats (fst (fst (setupGroupListenerEvents c e s)))) (id c)
    <> None.
Proof.
  intros Hg.
  assert (U : forall f, Js.get (Js.update (groupStats s) (id c) f) (id c)
                        <> None).
  { intros f. rewrite AssignerFacts.get_update, String.eqb_refl.
    destruct (Js.get (groupStats s) (id c)); [discriminate|congruence]. }
  assert (O : forall f ev m s',
    groupStats s' = groupStats s ->
    snd (on_entry (id c) f ev m s') = None /\
    Js.get (groupStats (fst (fst (on_entry (id c) f ev m s')))) (id c)
      <> None).
  { intros f ev m s' Hs. unfold on_entry. rewrite Hs.
    destruct (Js.get (groupStats s) (id c)) eqn:G; [|congruence].
    simpl. split; [reflexivity | apply U]. }
  destruct e as [[]| | |]; simpl; try (apply O; reflexivity); now split.
Qed.

Section Ledger.

Variables S E : Type.
Variable on : ListenerLife.Event -> S -> S * list E * option string.

(** A relation between the state of the owner and what it has emitted
    that every handler keeps, whether it returns or throws. *)
Variable J : S -> list E -> Prop.
Hypothesis on_keeps :
  forall e s fw, J s fw -> J (fst (fst (on e s))) (fw ++ snd (fst (on e s))).

Lemma emit_kept (e : ListenerLife.Event) (o : Outcome S E) :
  kept J o -> kept J (emit on e o).
Proof.
  unfold Wired.kept, emit. intros H.
  specialize (on_keeps e (owner o) (forwarded o) H).
  now destruct (on e (owner o)) as [[s out] t].
Qed.

Lemma processTweetLinks_kept (now : Z) (links : list Listener.Link)
  (o : Outcome S E) :
  kept J o -> kept J (processTweetLinks on now links o).
Proof.
  intros H. unfold processTweetLinks.
  destruct (0 <? length _)%nat; [|exact H].
  match goal with
  | |- context [emit on ?e ?o1] =>
      pose proof (emit_kept e o1 H) as K; destruct (thrown (emit on e o1))
  end; exact K.
Qed.

Lemma handleAuthError_kept (reconnect : option bool) (o : Outcome S E) :
  kept J o -> kept J (handleAuthError on reconnect o).
Proof.
  intros H. unfold handleAuthError.
  destruct (Listener.hasAuth (listener o)); [|exact H].
  destruct reconnect as [success|]; [|now apply emit_kept].
  match goal with
  | |- context [emit on ?e o] =>
      pose proof (emit_kept e o H) as K; destruct (thrown (emit on e o))
  end; [now apply emit_kept | exact K].
Qed.

Lemma check_failed_kept (message : string) (reconnect : option bool)
  (o : Outcome S E) :
  kept J o -> kept J (check_failed on message reconnect o).
Proof.
  intros H. unfold check_failed.
  match goal with
  | |- context [emit on ?e ?o1] =>
      pose proof (emit_kept e o1 H) as K; destruct (thrown (emit on e o1))
  end; [exact K|].
  destruct (_ || _); [now apply handleAuthError_kept | exact K].
Qed.

Lemma checkGroupMessages_kept (now : Z) (fetch : Listener.Fetch)
  (reconnect : option bool) (o : Outcome S E) :
  kept J o -> kept J (checkGroupMessages on now fetch reconnect o).
Proof.
  intros H. unfold checkGroupMessages.
  destruct (_ || _); [exact H|].
  destruct fetch as [links|message reconnect'];
    [|now apply check_failed_kept].
  match goal with
  | |- context [thrown ?o1] =>
      assert (K : kept J o1);
      [destruct links as [[|l ls]|]; try exact H;
       now apply processTweetLinks_kept
      |destruct (thrown o1); [now apply check_failed_kept|]]
  end.
  match goal with
  | |- context [emit on ?e ?o1] =>
      pose proof (emit_kept e o1 K) as K2; destruct (thrown (emit on e o1))
  end; [now apply check_failed_kept | exact K2].
Qed.

Lemma start_kept (cache : option Z) (f : File) (auth : AuthInit) (now : Z)
  (fetch : Listener.Fetch) (reconnect : option bool) (l : Life) (s : S) :
  J s [] -> kept J (snd (start on cache f auth now fetch reconnect l s)).
Proof.
  intros H. unfold start.
  destruct (Listener.isListening (core l)); [exact H|].
  destruct (load cache f (core l)) as [st1 loaded].
  assert (F : forall ticks message (o : Outcome S E), kept J o ->
    kept J (snd (let o1 := emit on (ListenerError message)
                           (with_listener
                              (set_listening false (listener o)) o) in
               (mkLife (listener o1) ticks,
                match thrown o1 with
                | Some _ => o1
                | None => mkOutcome (listener o1) (owner o1) (emitted o1)
                            (forwarded o1) (Some message)
                end)))).
  { intros ticks message o Ho. cbv zeta. cbn [snd].
    match goal with
    | |- context [emit on ?e ?o1] =>
        pose proof (emit_kept e o1 Ho) as K; destruct (thrown (emit on e o1))
    end; exact K. }
  destruct auth as [| |message]; try (apply F; exact H).
  match goal with
  | |- context [checkGroupMessages on now fetch reconnect ?o0] =>
      pose proof (checkGroupMessages_kept now fetch reconnect o0 H) as K;
      destruct (thrown (checkGroupMessages on now fetch reconnect o0))
  end; [now apply F|].
  match goal with
  | |- context [emit on ?e ?o1] =>
      pose proof (emit_kept e o1 K) as K2; destruct (thrown (emit on e o1))
  end; [now apply F | exact K2].
Qed.

End Ledger.

Lemma forwarded_tweets_app (a b : list Forwarded) :
  forwarded_tweets (a ++ b) = (forwarded_tweets a + forwarded_tweets b)%Z.
Proof.
  induction a as [|e a IH]; simpl; [reflexivity|].
  destruct e; rewrite IH; lia.
Qed.

Lemma forwarded_errors_app (a b : list Forwarded) :
  forwarded_errors (a ++ b) = (forwarded_errors a + forwarded_errors b)%Z.
Proof.
  unfold forwarded_errors.
  induction a as [|e a IH]; cbn [app fold_right]; [reflexivity|].
  destruct e; rewrite IH; lia.
Qed.

(** With the entry of the group in place, its handlers keep the books. *)
Lemma handlers_keep_the_ledger (c : GroupConfig) (tweets errors : Z)
  (e : ListenerLife.Event) (s : Stats) (fw : list Forwarded) :
  ledger (id c) tweets errors s fw ->
  ledger (id c) tweets errors
    (fst (fst (setupGroupListenerEvents c e s)))
    (fw ++ snd (fst (setupGroupListenerEvents c e s))).
Proof.
  intros (Hg & Ht & He). unfold ledger.
  rewrite forwarded_tweets_app, forwarded_errors_app.
  destruct (handlers_return_with_entry c e s Hg) as [_ Hg'].
  split; [exact Hg'|]. clear Hg'.
  destruct (Js.get (groupStats s) (id c)) as [g|] eqn:G; [|congruence].
  destruct e as [[]| | |]; simpl; unfold on_entry; simpl; rewrite ?G; simpl;
    split; lia.
Qed.

(** [initializeGroupListener] for a group without entry. *)
Lemma initializeGroupListener_missing (c : GroupConfig) (w : World)
  (st : State) :
  inherited (id c) = false ->
  Js.get (groupStats (stats st)) (id c) = None ->
  let r := Wired.initializeGroupListener c w st in
  exists message,
    snd r = [Own (GroupInitError (id c) (groupName c) message)] /\
    groupListeners (fst r) = groupListeners st /\
    groupConfigs (fst r) = groupConfigs st /\
    isRunning (fst r) = isRunning st /\
    groupStats (stats (fst r)) =
      Js.set (groupStats (stats st)) (id c)
        (mkGroupStat (display_name c) 0 1 None GFailed (display_priority c)
           (Some message)) /\
    totalGroups (stats (fst r)) = totalGroups (stats st) /\
    activeGroups (stats (fst r)) = activeGroups (stats st) /\
    statsStartTime (stats (fst r)) = statsStartTime (stats st) /\
    (auth w = AuthOk ->
     message = "Cannot read properties of undefined (reading 'errors')" /\
     totalErrors (stats (fst r)) = (totalErrors (stats st) + 1)%Z).
Proof.
  intros Hi Hg. unfold Wired.initializeGroupListener, start.
  cbn [Listener.isListening Listener.new core].
  destruct (load (cache w) (file w) Listener.new) as [st1 loaded].
  assert (F : forall message (o : Outcome Stats Forwarded),
    emit (setupGroupListenerEvents c) (ListenerError message) o =
    mkOutcome (listener o) (owner o) (emitted o ++ [ListenerError message])
      (forwarded o) None).
  { intros message o. unfold emit. simpl. now rewrite app_nil_r. }
  destruct (auth w) as [| |message] eqn:Ea.
  - match goal with
    | |- context [checkGroupMessages _ (now w) (fetch w) (reconnect w) ?o0] =>
        destruct (checkGroupMessages_missing c (now w) (fetch w)
                    (reconnect w) o0 Hi Hg eq_refl eq_refl)
          as (C1 & C2 & (C3 & C4 & C5 & C6) & C7 & C8);
        destruct (checkGroupMessages _ (now w) (fetch w) (reconnect w) o0)
          as [st3 s3 evs3 fw3 t3]
    end.
    simpl in C1, C2, C3, C4, C5, C6, C7, C8. subst t3 fw3.
    cbn [thrown]. rewrite F. simpl.
    eexists. split; [reflexivity|]. rewrite C5.
    repeat split; auto.
  - rewrite F. simpl. eexists. split; [reflexivity|].
    repeat split; discriminate.
  - rewrite F. simpl. eexists. split; [reflexivity|].
    repeat split; discriminate.
Qed.

(** [initializeGroupListener] for a group with an entry, when the session
    is established. *)
Lemma initializeGroupListener_entry (c : GroupConfig) (w : World)
  (st : State) :
  Js.get (groupStats (stats st)) (id c) <> None ->
  auth w = AuthOk ->
  let r := Wired.initializeGroupListener c w st in
  groupListeners (fst r) =
    Js.set (groupListeners st) (id c)
      (mkGroupData true c GActive (started w)) /\
  Js.get (groupStats (stats (fst r))) (id c) =
    Some (mkGroupStat (display_name c) 0 0 None GActive (display_priority c)
            None) /\
  groupConfigs (fst r) = groupConfigs st /\
  isRunning (fst r) = isRunning st /\
  totalTweetsFound (stats (fst r)) =
    (totalTweetsFound (stats st) + forwarded_tweets (snd r))%Z /\
  totalErrors (stats (fst r)) =
    (totalErrors (stats st) + forwarded_errors (snd r))%Z.
Proof.
  intros Hg Ha. unfold Wired.initializeGroupListener.
  pose proof (start_follows Stats Forwarded (setupGroupListenerEvents c)
                (fun s => Js.get (groupStats s) (id c) <> None)
                (handlers_return_with_entry c) (cache w) (file w) (auth w)
                (now w) (fetch w) (reconnect w) (mkLife Listener.new false)
                (stats st) Hg) as F.
  pose proof (start_kept Stats Forwarded (setupGroupListenerEvents c)
                (ledger (id c) (totalTweetsFound (stats st))
                   (totalErrors (stats st)))
                (handlers_keep_the_ledger c _ _) (cache w) (file w) (auth w)
                (now w) (fetch w) (reconnect w) (mkLife Listener.new false)
                (stats st)) as K.
  destruct (start _ _ _ _ _ _ _ _ _) as [l' o].
  cbv zeta in F. cbn [fst snd] in F, K.
  destruct F as (_ & _ & _ & Ft & _).
  rewrite Ha in Ft. unfold ListenerLife.start in Ft.
  cbn [Listener.isListening Listener.new core] in Ft.
  destruct (load (cache w) (file w) Listener.new) as [st1 loaded].
  destruct (Listener.checkGroupMessages _ _ _) as [st3 polled_evs] in Ft.
  cbn [snd] in Ft. rewrite Ft.
  destruct K as (_ & Kt & Ke).
  { repeat split; simpl; auto; lia. }
  unfold kept in *. simpl.
  rewrite !get_set, String.eqb_refl.
  rewrite forwarded_tweets_app, forwarded_errors_app. simpl.
  repeat split; lia.
Qed.

End WiredFacts.

Module WiredSpec.
Import Js JsMore ListenerLife Multi Wired WiredFacts.

(** X19.  Handlers that return do not change what the listener does: under
    such handlers [start] leaves the listener in the state, emits the
    events and ends in the way that it does without handlers, and so does
    every later [checkGroupMessages]. *)
Theorem handlers_that_return_leave_the_listener_alone (S E : Type)
  (on : ListenerLife.Event -> S -> S * list E * option string)
  (cache : option Z) (f : File) (auth : AuthInit) (now : Z)
  (fetch : Listener.Fetch) (reconnect : option bool) (l : Life) (s : S) :
  quiet on ->
  let r := start on cache f auth now fetch reconnect l s in
  let r0 := ListenerLife.start cache f auth now fetch l in
  fst r = fst (fst r0) /\
  emitted (snd r) = snd (fst r0) /\
  thrown (snd r) =
    match snd r0 with
    | Returned => None
    | Threw message => Some message
    end /\
  forall now' fetch' reconnect' (o : Outcome S E),
    thrown o = None ->
    let o' := checkGroupMessages on now' fetch' reconnect' o in
    let r' := Listener.checkGroupMessages now' fetch' (listener o) in
    listener o' = fst r' /\ emitted o' = emitted o ++ map Poll (snd r') /\
    thrown o' = None.
Proof.
  intros Hq.
  assert (Hr : forall e s0, True ->
    snd (on e s0) = None /\ True) by (intros; split; [apply Hq | exact I]).
  destruct (start_follows S E on (fun _ => True) Hr cache f auth now fetch
              reconnect l s I) as (H1 & _ & H3 & H4 & _).
  repeat (split; [assumption|]).
  intros now' fetch' reconnect' o Ht.
  destruct (checkGroupMessages_follows S E on (fun _ => True) Hr now' fetch'
              reconnect' o Ht I) as (G1 & G2 & G3 & _).
  auto.
Qed.

Lemma handlers_that_return_leave_the_listener_alone_witness :
  emitted
    (snd (start counting None NoFile AuthOk 100
            (Listener.Fetched (Some (Listener.id_links 1 2))) None
            (mkLife Listener.new false) 0%nat)) =
  snd (fst (ListenerLife.start None NoFile AuthOk 100
              (Listener.Fetched (Some (Listener.id_links 1 2)))
              (mkLife Listener.new false))).
Proof.
  apply (handlers_that_return_leave_the_listener_alone nat
           ListenerLife.Event counting None NoFile AuthOk 100
           (Listener.Fetched (Some (Listener.id_links 1 2))) None
           (mkLife Listener.new false) 0%nat).
  intros e n. reflexivity.
Defined.

(** X20.  A group that has no entry in [stats.groupStats] is never
    registered: [initializeGroupListener] registers the handlers before it
    starts the listener and writes the entry afterwards, so the handlers
    of the first poll cycle, made inside [start], find no entry and throw.
    Whatever file, session and page the listener meets, the call ends in
    the "groupInitError" event and nothing else, leaves [groupListeners] as
    it was and records the group as failed; when the session was
    established, the message is that of the [TypeError] and the handlers
    have counted one error in [totalErrors]. *)
Theorem first_start_of_a_group_always_fails (c : GroupConfig) (w : World)
  (st : State) :
  inherited (id c) = false ->
  Js.get (groupStats (stats st)) (id c) = None ->
  let r := initializeGroupListener c w st in
  exists message,
    snd r = [Own (GroupInitError (id c) (groupName c) message)] /\
    groupListeners (fst r) = groupListeners st /\
    groupConfigs (fst r) = groupConfigs st /\
    isRunning (fst r) = isRunning st /\
    groupStats (stats (fst r)) =
      Js.set (groupStats (stats st)) (id c)
        (mkGroupStat (display_name c) 0 1 None GFailed (display_priority c)
           (Some message)) /\
    (auth w = AuthOk ->
     message = "Cannot read properties of undefined (reading 'errors')" /\
     totalErrors (stats (fst r)) = (totalErrors (stats st) + 1)%Z).
Proof.
  intros Hi Hg.
  destruct (initializeGroupListener_missing c w st Hi Hg)
    as (message & H1 & H2 & H3 & H4 & H5 & _ & _ & _ & H6).
  exists message. auto 10.
Qed.

Lemma first_start_of_a_group_always_fails_witness :
  exists message,
    snd (initializeGroupListener g1 first_world (Multi.new [g1])) =
      [Own (GroupInitError (id g1) (groupName g1) message)] /\
    groupListeners (fst (initializeGroupListener g1 first_world
                           (Multi.new [g1]))) =
      groupListeners (Multi.new [g1]) /\
    groupConfigs (fst (initializeGroupListener g1 first_world
                         (Multi.new [g1]))) =
      groupConfigs (Multi.new [g1]) /\
    isRunning (fst (initializeGroupListener g1 first_world
                      (Multi.new [g1]))) =
      isRunning (Multi.new [g1]) /\
    groupStats (stats (fst (initializeGroupListener g1 first_world
                              (Multi.new [g1])))) =
      Js.set (groupStats (stats (Multi.new [g1]))) (id g1)
        (mkGroupStat (display_name g1) 0 1 None GFailed
           (display_priority g1) (Some message)) /\
    (auth first_world = AuthOk ->
     message = "Cannot read properties of undefined (reading 'errors')" /\
     totalErrors (stats (fst (initializeGroupListener g1 first_world
                                (Multi.new [g1])))) =
       (totalErrors (stats (Multi.new [g1])) + 1)%Z).
Proof.
  apply (first_start_of_a_group_always_fails g1 first_world (Multi.new [g1]));
    reflexivity.
Defined.

(** X21.  When the group has an entry and the session is established,
    [initializeGroupListener] registers the group, and the entry is then
    written anew: what the first poll cycle found, made inside [start], is
    counted in the totals of the aggregator, which grow by what it passed
    on, while the entry of the group shows no tweet and no error. *)
Theorem first_batch_is_counted_for_no_group (c : GroupConfig) (w : World)
  (st : State) :
  Js.get (groupStats (stats st)) (id c) <> None ->
  auth w = AuthOk ->
  let r := initializeGroupListener c w st in
  Js.get (groupListeners (fst r)) (id c) =
    Some (mkGroupData true c GActive (started w)) /\
  Js.get (groupStats (stats (fst r))) (id c) =
    Some (mkGroupStat (display_name c) 0 0 None GActive (display_priority c)
            None) /\
  totalTweetsFound (stats (fst r)) =
    (totalTweetsFound (stats st) + forwarded_tweets (snd r))%Z /\
  totalErrors (stats (fst r)) =
    (totalErrors (stats st) + forwarded_errors (snd r))%Z.
Proof.
  intros Hg Ha.
  destruct (initializeGroupListener_entry c w st Hg Ha)
    as (H1 & H2 & _ & _ & H5 & H6).
  cbv zeta. rewrite H1, get_set, String.eqb_refl. auto.
Qed.

Lemma first_batch_is_counted_for_no_group_witness :
  totalTweetsFound
    (stats (fst (initializeGroupListener g1 first_world second_attempt))) =
  (totalTweetsFound (stats second_attempt) +
   forwarded_tweets
     (snd (initializeGroupListener g1 first_world second_attempt)))%Z.
Proof.
  apply (first_batch_is_counted_for_no_group g1 first_world second_attempt).
  - vm_compute. discriminate.
  - reflexivity.
Defined.

End WiredSpec.

(* ================================================================= *)
(** * GroupMessageListener under any handlers: the poll cycle, the record
      and the start *)

Module PollFacts.
Import Js JsFacts JsMore Listener ListenerFacts ListenerLife ListenerExtra.
Import Wired WiredFacts.

Lemma polled_app (e1 e2 : list ListenerLife.Event) :
  polled (e1 ++ e2) = polled e1 ++ polled e2.
Proof. apply flat_map_app. Qed.

Lemma polled_map_Poll (evs : list Listener.Event) :
  polled (map Poll evs) = evs.
Proof.
  induction evs as [|e evs IH]; [reflexivity|]. simpl. now rewrite IH.
Qed.

Section AnyHandlers.

Variables S E : Type.
Variable on : ListenerLife.Event -> S -> S * list E * option string.

Lemma grows_refl (o : Outcome S E) : grows o o [] 0 0.
Proof. exists []. simpl. now rewrite app_nil_r. Qed.

Lemma grows_same (o o' : Outcome S E) :
  emitted o' = emitted o -> grows o o' [] 0 0.
Proof. intros H. exists []. simpl. now rewrite app_nil_r. Qed.

Lemma grows_trans (o o1 o2 : Outcome S E)
  (found1 found2 : list (list TweetInfo)) (c1 c2 f1 f2 : nat) :
  grows o o1 found1 c1 f1 -> grows o1 o2 found2 c2 f2 ->
  grows o o2 (found1 ++ found2) (c1 + c2) (f1 + f2).
Proof.
  intros (e1 & A1 & A2 & A3 & A4) (e2 & B1 & B2 & B3 & B4).
  exists (e1 ++ e2).
  rewrite B1, A1, map_app, app_assoc, found_events_app, completed_app,
    failed_checks_app.
  subst. auto.
Qed.

Lemma grows_from (o o0 o' : Outcome S E) (found : list (list TweetInfo))
  (c f : nat) :
  emitted o0 = emitted o -> grows o0 o' found c f -> grows o o' found c f.
Proof. intros H (evs & A). exists evs. now rewrite <- H. Qed.

Lemma emit_shape (e : Listener.Event) (o : Outcome S E) :
  listener (emit on (Poll e) o) = listener o /\
  grows o (emit on (Poll e) o) (found_events [e]) (completed [e])
    (failed_checks [e]) /\
  thrown (emit on (Poll e) o) = snd (on (Poll e) (owner o)).
Proof.
  unfold emit. destruct (on (Poll e) (owner o)) as [[s out] t]. simpl.
  split; [reflexivity|]. split; [|reflexivity].
  exists [e]. auto.
Qed.

Lemma handleAuthError_shape (reconnect : option bool) (o : Outcome S E) :
  listener (handleAuthError on reconnect o) = listener o /\
  grows o (handleAuthError on reconnect o) [] 0 0.
Proof.
  unfold handleAuthError.
  destruct (hasAuth (listener o)); [|split; [reflexivity|apply grows_refl]].
  destruct reconnect as [success|].
  - set (e := if success then AuthRecovered else AuthFailed).
    destruct (emit_shape e o) as (L1 & G1 & _).
    assert (G1' : grows o (emit on (Poll e) o) [] 0 0).
    { subst e. destruct success; exact G1. }
    destruct (thrown (emit on (Poll e) o)); [|split; assumption].
    destruct (emit_shape AuthFailed (emit on (Poll e) o)) as (L2 & G2 & _).
    split; [congruence|].
    apply (grows_trans _ _ _ _ _ _ _ _ _ G1' G2).
  - destruct (emit_shape AuthFailed o) as (L1 & G1 & _). split; assumption.
Qed.

(** The [catch] block of [checkGroupMessages]: one more error, one "check
    error" event. *)
Lemma check_failed_shape (message : string) (reconnect : option bool)
  (o : Outcome S E) :
  let o' := check_failed on message reconnect o in
  isListening (listener o') = isListening (listener o) /\
  hasAuth (listener o') = hasAuth (listener o) /\
  processedTweets (listener o') = processedTweets (listener o) /\
  totalMessages (stats (listener o')) = totalMessages (stats (listener o)) /\
  tweetsFound (stats (listener o')) = tweetsFound (stats (listener o)) /\
  lastCheck (stats (listener o')) = lastCheck (stats (listener o)) /\
  errors (stats (listener o')) = (errors (stats (listener o)) + 1)%Z /\
  grows o o' [] 0 1.
Proof.
  unfold check_failed.
  set (counted := mkState _ _ _ _).
  destruct (emit_shape (MessageCheckError message) (with_listener counted o))
    as (L1 & G1 & _).
  assert (G1' : grows o (emit on (Poll (MessageCheckError message))
                           (with_listener counted o)) [] 0 1).
  { apply (grows_from o (with_listener counted o)); [reflexivity | exact G1]. }
  set (o1 := emit on (Poll (MessageCheckError message))
               (with_listener counted o)) in *.
  simpl in L1.
  assert (Hfin : forall o',
    listener o' = listener o1 -> grows o o' [] 0 1 ->
    isListening (listener o') = isListening (listener o) /\
    hasAuth (listener o') = hasAuth (listener o) /\
    processedTweets (listener o') = processedTweets (listener o) /\
    totalMessages (stats (listener o')) = totalMessages (stats (listener o)) /\
    tweetsFound (stats (listener o')) = tweetsFound (stats (listener o)) /\
    lastCheck (stats (listener o')) = lastCheck (stats (listener o)) /\
    errors (stats (listener o')) = (errors (stats (listener o)) + 1)%Z /\
    grows o o' [] 0 1).
  { intros o' -> G. rewrite L1. subst counted. simpl. repeat split; auto. }
  destruct (thrown o1); [now apply Hfin|].
  destruct (includes message "认证" || includes message "401");
    [|now apply Hfin].
  destruct (handleAuthError_shape reconnect o1) as [L2 G2].
  apply Hfin; [exact L2|].
  apply (grows_trans _ _ _ _ _ _ _ _ _ G1' G2).
Qed.

(** The loop of [processTweetLinks] reads the record and the counter of
    the items found, and nothing else of the listener. *)
Lemma scan_links_reads (now : Z) (links : list Link) (st st' : State) :
  processedTweets st' = processedTweets st ->
  tweetsFound (stats st') = tweetsFound (stats st) ->
  scan_links now links st' = scan_links now links st.
Proof. intros H1 H2. unfold scan_links. now rewrite H1, H2. Qed.

Lemma scan_links_found (now : Z) (links : list Link) (st : State) :
  found (scan_links now links st)
  = (tweetsFound (stats st)
     + Z.of_nat (length (newTweets (scan_links now links st))))%Z.
Proof.
  pose proof (scan_found now links
                (mkScan (processedTweets st) [] (tweetsFound (stats st)) false))
    as H.
  simpl in H. fold (scan_links now links st) in H. lia.
Qed.

(** [processTweetLinks] under any handlers: the batch is emitted once, and
    the record is trimmed unless a handler of the event throws. *)
Lemma processTweetLinks_shape (now : Z) (links : list Link)
  (o : Outcome S E) :
  let st := listener o in
  let sc := scan_links now links st in
  let batch := newTweets sc in
  let o' := processTweetLinks on now links o in
  isListening (listener o') = isListening st /\
  hasAuth (listener o') = hasAuth st /\
  totalMessages (stats (listener o')) = totalMessages (stats st) /\
  lastCheck (stats (listener o')) = lastCheck (stats st) /\
  errors (stats (listener o')) = errors (stats st) /\
  tweetsFound (stats (listener o'))
  = (tweetsFound (stats st) + Z.of_nat (length batch))%Z /\
  processedTweets (listener o')
  = (if found_throws on batch (owner o) then seen sc
     else if (1000 <? length (seen sc))%nat
          then set_of_array (slice (-800) (seen sc)) else seen sc) /\
  (thrown o' = None <-> found_throws on batch (owner o) = false) /\
  grows o o' (found_once batch) 0 0.
Proof.
  intros st sc batch o'.
  pose proof (scan_links_found now links st) as Hfound.
  fold sc in Hfound. fold batch in Hfound.
  destruct (processTweetLinks_counts now links st)
    as (P1 & P2 & P3 & P4 & P5 & P6 & P7 & P8).
  destruct (processTweetLinks_spec now links st) as [Q1 Q2].
  destruct (scan_links_spec now links st) as (Hseen & _).
  fold sc in Hseen, Q1, Q2. fold batch in Hseen, Q1, Q2.
  assert (Hplain : forall s' out,
    let o1 := mkOutcome
                (fst (Listener.processTweetLinks now links st)) s'
                (emitted o ++
                 map Poll (snd (Listener.processTweetLinks now links st)))
                out None in
    isListening (listener o1) = isListening st /\
    hasAuth (listener o1) = hasAuth st /\
    totalMessages (stats (listener o1)) = totalMessages (stats st) /\
    lastCheck (stats (listener o1)) = lastCheck (stats st) /\
    errors (stats (listener o1)) = errors (stats st) /\
    tweetsFound (stats (listener o1))
    = (tweetsFound (stats st) + Z.of_nat (length batch))%Z /\
    processedTweets (listener o1)
    = (if (1000 <? length (seen sc))%nat
       then set_of_array (slice (-800) (seen sc)) else seen sc) /\
    grows o o1 (found_once batch) 0 0).
  { intros s' out. simpl.
    repeat (split; [assumption|]).
    split.
    { unfold Listener.processTweetLinks. fold st sc.
      destruct (1000 <? length (seen sc))%nat; simpl; exact Hfound. }
    split; [rewrite Q2, Hseen; reflexivity|].
    exists (snd (Listener.processTweetLinks now links st)).
    split; [reflexivity|]. split; [exact Q1|]. split; assumption. }
  subst o'. unfold processTweetLinks. fold st sc batch.
  destruct (Nat.ltb_spec 0 (length batch)) as [Hpos|Hnone].
  - (* a batch: the event is emitted *)
    unfold found_throws, emit. cbn [owner].
    destruct batch as [|t ts] eqn:Eb; [simpl in Hpos; lia|].
    destruct (on (Poll (NewTweetsFound (t :: ts))) (owner o))
      as [[s' out] [message|]]; cbn [thrown snd].
    + cbn [listener isListening hasAuth stats totalMessages lastCheck errors
             tweetsFound processedTweets].
      repeat (split; [reflexivity|]).
      split; [exact Hfound|]. split; [reflexivity|].
      split; [split; discriminate|].
      exists [SaveProcessedTweets (seen sc); NewTweetsFound (t :: ts)].
      cbn [emitted]. rewrite <- app_assoc. auto.
    + destruct (Hplain s' (forwarded o ++ out))
        as (H1 & H2 & H3 & H4 & H5 & H6 & H7 & H8).
      cbn [owner forwarded].
      repeat (split; [assumption|]).
      split; [split; reflexivity | exact H8].
  - assert (Eb : batch = []) by (destruct batch; [reflexivity|simpl in *; lia]).
    destruct (Hplain (owner o) (forwarded o))
      as (H1 & H2 & H3 & H4 & H5 & H6 & H7 & H8).
    rewrite Eb in *. unfold found_throws.
    repeat (split; [assumption|]).
    split; [split; reflexivity | exact H8].
Qed.

(** One live poll cycle under any handlers. *)
Lemma checkGroupMessages_shape (now : Z) (fetch : Fetch)
  (reconnect : option bool) (o : Outcome S E) :
  thrown o = None -> live (listener o) = true ->
  let st := listener o in
  let sc := scan_links now (links_of fetch) st in
  let batch := newTweets sc in
  let answers := match fetch with Fetched _ => 1%nat | _ => 0%nat end in
  let o' := checkGroupMessages on now fetch reconnect o in
  live (listener o') = true /\
  totalMessages (stats (listener o'))
  = (totalMessages (stats st) + Z.of_nat answers)%Z /\
  lastCheck (stats (listener o')) = Some now /\
  tweetsFound (stats (listener o'))
  = (tweetsFound (stats st) + Z.of_nat (length batch))%Z /\
  processedTweets (listener o')
  = (if found_throws on batch (owner o) then seen sc
     else if (0 <? length (links_of fetch))%nat &&
             (1000 <? length (seen sc))%nat
          then set_of_array (slice (-800) (seen sc)) else seen sc) /\
  exists c f,
    grows o o' (found_once batch) c f /\
    errors (stats (listener o'))
    = (errors (stats st) + Z.of_nat f)%Z /\
    (c <= answers)%nat /\ (f <= 1)%nat /\ (1 <= c + f)%nat /\
    (answers <= c + f)%nat /\ (1 <= answers + f)%nat /\
    (quiet on -> c = answers /\ (c + f = 1)%nat).
Proof.
  intros Ht Hlive st sc batch answers o'.
  unfold live in Hlive. apply andb_true_iff in Hlive.
  destruct Hlive as [Hl Ha]. fold st in Hl, Ha.
  subst o'. unfold checkGroupMessages. fold st. rewrite Hl, Ha. cbn [negb orb].
  (* what the [catch] block makes of an outcome of the [try] block *)
  assert (Hcatch : forall message reconnect' (o1 : Outcome S E) c,
    isListening (listener o1) = true -> hasAuth (listener o1) = true ->
    grows o o1 (found_once batch) c 0 ->
    let o2 := check_failed on message reconnect' o1 in
    live (listener o2) = true /\
    totalMessages (stats (listener o2)) = totalMessages (stats (listener o1)) /\
    lastCheck (stats (listener o2)) = lastCheck (stats (listener o1)) /\
    tweetsFound (stats (listener o2)) = tweetsFound (stats (listener o1)) /\
    processedTweets (listener o2) = processedTweets (listener o1) /\
    grows o o2 (found_once batch) c 1 /\
    errors (stats (listener o2))
    = (errors (stats (listener o1)) + Z.of_nat 1)%Z).
  { intros message reconnect' o1 c L1 A1 G1.
    destruct (check_failed_shape message reconnect' o1)
      as (C1 & C2 & C3 & C4 & C5 & C6 & C7 & C8).
    cbv zeta. unfold live. rewrite C1, C2, L1, A1.
    repeat (split; [assumption || reflexivity|]).
    split; [|exact C7].
    pose proof (grows_trans _ _ _ _ _ _ _ _ _ G1 C8) as G.
    rewrite app_nil_r, Nat.add_0_r in G. exact G. }
  destruct fetch as [links|message reconnect']; subst answers.
  - (* [getGroupNotifications] returns *)
    set (st2 := mkState _ _ _ (mkStats (_ + 1) _ _ _)).
    set (o1 := match links with
               | Some (l :: ls) =>
                   processTweetLinks on now (l :: ls) (with_listener st2 o)
               | _ => with_listener st2 o
               end).
    assert (H1 :
      isListening (listener o1) = true /\ hasAuth (listener o1) = true /\
      totalMessages (stats (listener o1))
      = (totalMessages (stats st) + 1)%Z /\
      lastCheck (stats (listener o1)) = Some now /\
      errors (stats (listener o1)) = errors (stats st) /\
      tweetsFound (stats (listener o1))
      = (tweetsFound (stats st) + Z.of_nat (length batch))%Z /\
      processedTweets (listener o1)
      = (if found_throws on batch (owner o) then seen sc
         else if (0 <? length (links_of (Fetched links)))%nat &&
                 (1000 <? length (seen sc))%nat
              then set_of_array (slice (-800) (seen sc)) else seen sc) /\
      (thrown o1 = None <-> found_throws on batch (owner o) = false) /\
      grows o o1 (found_once batch) 0 0).
    { assert (Hempty : links_of (Fetched links) = [] ->
        isListening (listener (with_listener st2 o)) = true /\
        hasAuth (listener (with_listener st2 o)) = true /\
        totalMessages (stats (listener (with_listener st2 o)))
        = (totalMessages (stats st) + 1)%Z /\
        lastCheck (stats (listener (with_listener st2 o))) = Some now /\
        errors (stats (listener (with_listener st2 o))) = errors (stats st) /\
        tweetsFound (stats (listener (with_listener st2 o)))
        = (tweetsFound (stats st) + Z.of_nat (length batch))%Z /\
        processedTweets (listener (with_listener st2 o))
        = (if found_throws on batch (owner o) then seen sc
           else if (0 <? length (links_of (Fetched links)))%nat &&
                   (1000 <? length (seen sc))%nat
                then set_of_array (slice (-800) (seen sc)) else seen sc) /\
        (thrown (with_listener st2 o) = None <->
         found_throws on batch (owner o) = false) /\
        grows o (with_listener st2 o) (found_once batch) 0 0).
      { intros El. subst batch sc. rewrite El. cbn.
        repeat (split; [assumption || reflexivity || lia|]).
        split; [tauto|]. now apply grows_same. }
      subst o1. destruct links as [[|l ls]|]; try (apply Hempty; reflexivity).
      pose proof (processTweetLinks_shape now (l :: ls) (with_listener st2 o))
        as P.
      cbv zeta in P.
      assert (Esc : scan_links now (l :: ls) (listener (with_listener st2 o))
                    = sc) by reflexivity.
      rewrite Esc in P. fold batch in P.
      destruct P as (P1 & P2 & P3 & P4 & P5 & P6 & P7 & P8 & P9).
      split; [exact P1|]. split; [exact P2|]. split; [exact P3|].
      split; [exact P4|]. split; [exact P5|]. split; [exact P6|].
      split; [rewrite P7; reflexivity|]. split; [exact P8|].
      apply (grows_from o (with_listener st2 o)); [reflexivity | exact P9]. }
    clearbody o1. clear st2.
    destruct H1 as (L1 & A1 & T1 & K1 & E1 & F1 & R1 & Th1 & G1).
    cbn [Z.of_nat] in *.
    destruct (thrown o1) as [m1|] eqn:Et1.
    + (* a handler of "newTweetsFound" has thrown *)
      destruct (Hcatch m1 reconnect o1 0%nat L1 A1 G1)
        as (C1 & C2 & C3 & C4 & C5 & C6 & C7).
      split; [exact C1|]. split; [rewrite C2; simpl; lia|].
      split; [congruence|]. split; [congruence|]. split; [congruence|].
      exists 0%nat, 1%nat.
      split; [exact C6|]. split; [rewrite C7, E1; reflexivity|].
      do 5 (split; [simpl; lia|]).
      intros Hq. exfalso.
      assert (Hf : found_throws on batch (owner o) = false).
      { unfold found_throws. destruct batch; [reflexivity|].
        now rewrite Hq. }
      apply Th1 in Hf. discriminate.
    + set (done := MessageCheckCompleted now
                     match links with
                     | Some ls => length ls
                     | None => 0%nat
                     end).
      destruct (emit_shape done o1) as (L2 & G2 & Th2).
      pose proof (grows_trans _ _ _ _ _ _ _ _ _ G1 G2) as G12.
      cbn in G12. rewrite app_nil_r in G12.
      set (o2 := emit on (Poll done) o1) in *.
      destruct (thrown o2) as [m2|] eqn:Et2.
      * (* a handler of "messageCheckCompleted" has thrown *)
        assert (L2' : isListening (listener o2) = true) by congruence.
        assert (A2' : hasAuth (listener o2) = true) by congruence.
        destruct (Hcatch m2 reconnect o2 1%nat L2' A2' G12)
          as (C1 & C2 & C3 & C4 & C5 & C6 & C7).
        split; [exact C1|]. split; [rewrite C2, L2; simpl; lia|].
        split; [congruence|]. split; [congruence|]. split; [congruence|].
        exists 1%nat, 1%nat.
        split; [exact C6|]. split; [rewrite C7, L2, E1; reflexivity|].
        do 5 (split; [simpl; lia|]).
        intros Hq. exfalso. rewrite Hq in Th2. discriminate.
      * split; [unfold live; rewrite L2, L1, A1; reflexivity|].
        split; [rewrite L2; simpl; lia|].
        split; [congruence|]. split; [congruence|]. split; [congruence|].
        exists 1%nat, 0%nat.
        split; [exact G12|]. split; [rewrite L2, E1; simpl; lia|].
        do 5 (split; [simpl; lia|]).
        intros _. split; reflexivity.
  - (* [getGroupNotifications] throws *)
    set (st1 := mkState _ _ _ _).
    assert (G0 : grows o (with_listener st1 o) (found_once batch) 0 0).
    { subst batch sc. cbn. now apply grows_same. }
    destruct (Hcatch message reconnect' (with_listener st1 o) 0%nat
                eq_refl eq_refl G0)
      as (C1 & C2 & C3 & C4 & C5 & C6 & C7).
    subst st1. cbn [with_listener listener stats totalMessages lastCheck
                      tweetsFound processedTweets errors] in *.
    split; [exact C1|]. split; [rewrite C2; simpl; lia|].
    split; [exact C3|].
    split; [rewrite C4; subst batch sc; cbn; lia|].
    split; [rewrite C5; subst batch sc; cbn; reflexivity|].
    exists 0%nat, 1%nat.
    split; [exact C6|]. split; [exact C7|].
    do 5 (split; [simpl; lia|]).
    intros _. split; reflexivity.
Qed.

(** A cycle of a listener that is not live does nothing. *)
Lemma checkGroupMessages_idle (now : Z) (fetch : Fetch)
  (reconnect : option bool) (o : Outcome S E) :
  live (listener o) = false ->
  checkGroupMessages on now fetch reconnect o = o.
Proof.
  unfold live, checkGroupMessages. intros H.
  destruct (isListening (listener o)), (hasAuth (listener o));
    try discriminate; reflexivity.
Qed.


Lemma ids_emitted_grows (o o' : Outcome S E) (batch : list TweetInfo)
  (c f : nat) :
  grows o o' (found_once batch) c f ->
  ids_emitted o' = ids_emitted o ++ map id batch.
Proof.
  intros (evs & H1 & H2 & _). unfold ids_emitted.
  rewrite H1, polled_app, polled_map_Poll, emitted_ids_app.
  f_equal. rewrite emitted_ids_found, H2.
  destruct batch; simpl; rewrite ?app_nil_r; reflexivity.
Qed.

Lemma working_set_seen (now : Z) (fetch : Fetch) (st : State) :
  live st = true ->
  working_set now fetch st = seen (scan_links now (links_of fetch) st).
Proof.
  intros H. unfold working_set, batch_of. rewrite H.
  symmetry. apply scan_links_spec.
Qed.

(** One poll cycle that the timer starts, in terms of its batch and of
    its working set. *)
Lemma cycle_spec (now : Z) (fetch : Fetch) (reconnect : option bool)
  (o : Outcome S E) :
  let o1 := checkGroupMessages on now fetch reconnect (again o) in
  let batch := batch_of now fetch (listener o) in
  let full := working_set now fetch (listener o) in
  ids_emitted o1 = ids_emitted o ++ map id batch /\
  (exists c f, grows o o1 (found_once batch) c f) /\
  NoDup (map id batch) /\
  (forall x, In x (map id batch) <->
     live (listener o) = true /\ In x (map statusId (links_of fetch)) /\
     ~ In x (record o)) /\
  record o1
  = (if live (listener o) && (0 <? length (links_of fetch))%nat &&
        negb (found_throws on batch (owner o)) && (1000 <? length full)%nat
     then set_of_array (slice (-800) full) else full) /\
  live (listener o1) = live (listener o).
Proof.
  intros o1 batch full.
  destruct (live (listener o)) eqn:Hlive.
  - pose proof (checkGroupMessages_shape now fetch reconnect (again o)
                  eq_refl Hlive) as P.
    cbv zeta in P. fold o1 in P.
    change (listener (again o)) with (listener o) in P.
    change (owner (again o)) with (owner o) in P.
    destruct P as (P1 & _ & _ & _ & P5 & c & f & G & _).
    assert (Eb : batch = newTweets (scan_links now (links_of fetch)
                                      (listener o))).
    { subst batch. unfold batch_of. now rewrite Hlive. }
    assert (Ef : full = seen (scan_links now (links_of fetch) (listener o))).
    { subst full. now apply working_set_seen. }
    rewrite <- Eb, <- Ef in P5. rewrite <- Eb in G.
    assert (G' : grows o o1 (found_once batch) c f).
    { apply (grows_from o (again o)); [reflexivity | exact G]. }
    destruct (scan_links_spec now (links_of fetch) (listener o))
      as (_ & Hnd & Hiff & _).
    rewrite <- Eb in Hnd, Hiff.
    split; [exact (ids_emitted_grows _ _ _ _ _ G')|].
    split; [now exists c, f|]. split; [exact Hnd|].
    split; [intros x; rewrite Hiff; unfold record; tauto|].
    split; [|exact P1].
    unfold record. rewrite P5.
    destruct (found_throws on batch (owner o)),
      (0 <? length (links_of fetch))%nat; reflexivity.
  - assert (E1 : o1 = again o).
    { subst o1. now apply checkGroupMessages_idle. }
    assert (Eb : batch = []).
    { subst batch. unfold batch_of. now rewrite Hlive. }
    assert (Ef : full = record o).
    { subst full. unfold working_set, batch_of. rewrite Hlive.
      apply app_nil_r. }
    rewrite E1, Eb, Ef. cbn [andb map].
    split; [unfold ids_emitted; cbn; now rewrite app_nil_r|].
    split; [exists 0%nat, 0%nat; now apply grows_same|].
    split; [constructor|].
    split; [intros x; split; [intros [] | intros [H _]; discriminate]|].
    split; [reflexivity | exact Hlive].
Qed.

(** The record stays a set through a cycle. *)
Lemma cycle_NoDup (now : Z) (fetch : Fetch) (reconnect : option bool)
  (o : Outcome S E) :
  NoDup (record o) ->
  NoDup (working_set now fetch (listener o)) /\
  NoDup (record (checkGroupMessages on now fetch reconnect (again o))).
Proof.
  intros H.
  destruct (cycle_spec now fetch reconnect o) as (_ & _ & Hnd & Hiff & Hrec & _).
  assert (Hw : NoDup (working_set now fetch (listener o))).
  { unfold working_set. apply NoDup_app; auto.
    intros a Ha Hb. apply Hiff in Hb. unfold record in Hb. tauto. }
  split; [exact Hw|]. rewrite Hrec.
  destruct (_ && _ && _ && _); [apply set_of_array_is_set | exact Hw].
Qed.

(** How often a cycle emits an id. *)
Lemma cycle_count (now : Z) (fetch : Fetch) (reconnect : option bool)
  (o : Outcome S E) (x : string) :
  let o1 := checkGroupMessages on now fetch reconnect (again o) in
  let batch := batch_of now fetch (listener o) in
  count_occ string_dec (ids_emitted o1) x
  = (count_occ string_dec (ids_emitted o) x
     + (if in_dec string_dec x (map id batch) then 1 else 0))%nat.
Proof.
  intros o1 batch.
  destruct (cycle_spec now fetch reconnect o) as (He & _ & Hnd & _).
  fold o1 batch in He, Hnd. rewrite He, count_occ_app. f_equal.
  destruct (in_dec string_dec x (map id batch)) as [Hin|Hout].
  - now apply NoDup_count_occ'.
  - now apply count_occ_not_In.
Qed.

End AnyHandlers.

Lemma trimmed_recent (full : list string) :
  (1000 < length full)%nat ->
  length (trimmed full) = 800%nat /\
  exists dropped, full = dropped ++ trimmed full.
Proof.
  intros H. unfold trimmed.
  destruct (Nat.ltb_spec 1000 (length full)) as [_|Hle]; [|lia].
  split; [|apply slice_suffix].
  change (-800)%Z with (- Z.of_nat 800)%Z.
  apply slice_length_neg; lia.
Qed.

Lemma trimmed_set (full : list string) :
  NoDup full ->
  (if (1000 <? length full)%nat
   then set_of_array (slice (-800) full) else full) = trimmed full.
Proof.
  intros H. unfold trimmed. destruct (1000 <? length full)%nat; [|reflexivity].
  now apply set_of_array_NoDup, slice_NoDup.
Qed.

End PollFacts.

Module RunFacts.
Import Js JsFacts JsMore Listener ListenerFacts ListenerLife.
Import Wired WiredFacts PollFacts.

Section AnyHandlers.

Variables S E : Type.
Variable on : ListenerLife.Event -> S -> S * list E * option string.

Lemma known_In (x : string) (o : Outcome S E) :
  known x o = true <-> In x (record o).
Proof. apply has_In. Qed.

Lemma working_set_In (now : Z) (fetch : Fetch) (o : Outcome S E)
  (x : string) :
  has (working_set now fetch (listener o)) x = true <->
  In x (record o) \/ In x (map id (batch_of now fetch (listener o))).
Proof.
  rewrite has_In. unfold working_set. rewrite in_app_iff. reflexivity.
Qed.

(** An id is emitted at most once more than the cycles of the run have
    dropped it, and only that often when the record holds it. *)
Lemma run_count (x : string) (cycles : list (Z * Fetch * option bool)) :
  forall o : Outcome S E,
    (count_occ string_dec (ids_emitted (poll_cycles on cycles o)) x
     <= count_occ string_dec (ids_emitted o) x
        + (if known x o then 0 else 1) + dropped_times on x cycles o)%nat.
Proof.
  induction cycles as [|[[now fetch] reconnect] rest IH]; intros o.
  - simpl. lia.
  - cbn [poll_cycles dropped_times].
    set (o1 := checkGroupMessages on now fetch reconnect (again o)).
    specialize (IH o1).
    pose proof (cycle_count S E on now fetch reconnect o x) as Hc.
    cbv zeta in Hc. fold o1 in Hc.
    destruct (cycle_spec S E on now fetch reconnect o) as (_ & _ & _ & Hiff & _).
    unfold drops. fold o1.
    pose proof (working_set_In now fetch o x) as Hw.
    destruct (in_dec string_dec x (map id (batch_of now fetch (listener o))))
      as [Hin|Hout].
    + (* the cycle emits [x]: the record did not hold it *)
      assert (Hk : known x o = false).
      { apply has_false. apply Hiff in Hin. unfold record in Hin. tauto. }
      assert (Hs : has (working_set now fetch (listener o)) x = true)
        by (apply Hw; now right).
      rewrite Hk, Hs. destruct (known x o1); simpl in *; lia.
    + destruct (known x o) eqn:Hk.
      * assert (Hs : has (working_set now fetch (listener o)) x = true)
          by (apply Hw; left; now apply known_In).
        rewrite Hs. destruct (known x o1); simpl in *; lia.
      * destruct (has (working_set now fetch (listener o)) x),
          (known x o1); simpl in *; lia.
Qed.

Lemma nodup_length_incl (l l' : list string) :
  NoDup l -> incl l l' ->
  (length l <= length (nodup string_dec l'))%nat.
Proof.
  intros Hnd Hi. apply NoDup_incl_length; [exact Hnd|].
  intros a Ha. apply nodup_In. auto.
Qed.

(** As long as the record and the links of the run hold no more than 1000
    different ids, no cycle trims the record and no id is dropped. *)
Lemma run_untrimmed (x : string) (cycles : list (Z * Fetch * option bool)) :
  forall o : Outcome S E,
    NoDup (record o) ->
    (length (nodup string_dec (record o ++ run_ids cycles)) <= 1000)%nat ->
    dropped_times on x cycles o = 0%nat.
Proof.
  induction cycles as [|[[now fetch] reconnect] rest IH]; intros o Hnd Hlen;
    [reflexivity|].
  cbn [dropped_times].
  set (o1 := checkGroupMessages on now fetch reconnect (again o)).
  destruct (cycle_spec S E on now fetch reconnect o)
    as (_ & _ & Hb & Hiff & Hrec & _).
  destruct (cycle_NoDup S E on now fetch reconnect o Hnd) as [Hw Hnd1].
  fold o1 in Hrec, Hnd1.
  set (full := working_set now fetch (listener o)) in *.
  assert (Hincl : incl full (record o ++ run_ids (((now, fetch), reconnect)
                                                   :: rest))).
  { subst full. unfold working_set. intros a Ha.
    apply in_app_or in Ha. apply in_or_app. destruct Ha as [Ha|Ha];
      [now left|].
    right. unfold run_ids. cbn [flat_map fst snd]. apply in_or_app. left.
    apply Hiff in Ha. tauto. }
  assert (Hfull : (length full <= 1000)%nat).
  { etransitivity; [apply (nodup_length_incl _ _ Hw Hincl) | exact Hlen]. }
  assert (E1 : record o1 = full).
  { rewrite Hrec. destruct (Nat.ltb_spec 1000 (length full)) as [H|_];
      [lia | now rewrite andb_false_r]. }
  assert (Hd : drops on x now fetch reconnect o = false).
  { unfold drops. fold o1 full. unfold known. rewrite E1.
    now destruct (has full x). }
  rewrite Hd. cbn [Nat.add]. apply IH; [exact Hnd1|].
  etransitivity; [|exact Hlen].
  apply nodup_length_incl; [apply NoDup_nodup|].
  intros a Ha. apply nodup_In in Ha. rewrite E1 in Ha.
  apply in_app_or in Ha. destruct Ha as [Ha|Ha]; [now apply Hincl|].
  apply in_or_app. right. unfold run_ids. cbn [flat_map].
  apply in_or_app. now right.
Qed.

(** A cycle drops an id only when it trims the record. *)
Lemma drops_trimmed (x : string) (now : Z) (fetch : Fetch)
  (reconnect : option bool) (o : Outcome S E) :
  NoDup (record o) -> drops on x now fetch reconnect o = true ->
  let o1 := checkGroupMessages on now fetch reconnect (again o) in
  let full := working_set now fetch (listener o) in
  (1000 < length full)%nat /\
  found_throws on (batch_of now fetch (listener o)) (owner o) = false /\
  record o1 = slice (-800) full /\ length (record o1) = 800%nat /\
  ~ In x (record o1) /\ live (listener o1) = true.
Proof.
  intros Hnd Hd o1 full.
  destruct (cycle_spec S E on now fetch reconnect o)
    as (_ & _ & _ & _ & Hrec & Hlive).
  destruct (cycle_NoDup S E on now fetch reconnect o Hnd) as [Hw _].
  fold o1 in Hrec, Hlive. fold full in Hrec, Hw.
  unfold drops in Hd. fold o1 full in Hd.
  apply andb_true_iff in Hd. destruct Hd as [Hin Hout].
  apply negb_true_iff in Hout.
  assert (Hx : ~ In x (record o1)) by now apply has_false.
  destruct (live (listener o) && (0 <? length (links_of fetch))%nat &&
            negb (found_throws on (batch_of now fetch (listener o)) (owner o))
            && (1000 <? length full)%nat) eqn:Ec.
  - apply andb_true_iff in Ec. destruct Ec as [Ec E4].
    apply andb_true_iff in Ec. destruct Ec as [Ec E3].
    apply andb_true_iff in Ec. destruct Ec as [E1 E2].
    apply Nat.ltb_lt in E4. apply negb_true_iff in E3.
    rewrite set_of_array_NoDup in Hrec by now apply slice_NoDup.
    split; [exact E4|]. split; [exact E3|]. split; [exact Hrec|].
    split.
    { rewrite Hrec. change (-800)%Z with (- Z.of_nat 800)%Z.
      apply slice_length_neg; lia. }
    split; [exact Hx | congruence].
  - exfalso. apply Hx. rewrite Hrec. now apply has_In.
Qed.

End AnyHandlers.

End RunFacts.

Module ListenerSpec.
Import Js JsFacts JsMore Listener ListenerFacts ListenerLife.
Import Wired WiredFacts PollFacts RunFacts.

(** C9 (amended).  A poll cycle emits the "new tweets found" event at most
    once, whatever the handlers of the listener do; the event carries the
    whole batch of the cycle, which holds each id that the cycle's links
    bring and the record did not have, exactly once; no event is emitted
    for an empty batch.  After a batch has been processed the record is
    what it was plus the batch, cut to its most recent 800 ids once that
    exceeds 1000 ids, provided that the handlers of the event return; when
    one of them throws, the record is left as it was plus the batch, not
    cut. *)
Theorem poll_cycle_single_batch_event {S E : Type}
  (on : ListenerLife.Event -> S -> S * list E * option string)
  (now : Z) (fetch : Fetch) (reconnect : option bool) (o : Outcome S E) :
  NoDup (record o) ->
  let o' := checkGroupMessages on now fetch reconnect (again o) in
  exists batch evs,
    emitted o' = emitted o ++ map Poll evs /\
    found_events evs = match batch with [] => [] | _ => [batch] end /\
    NoDup (map id batch) /\
    (forall x, In x (map id batch) ->
       In x (map statusId (links_of fetch)) /\ ~ In x (record o)) /\
    (live (listener o) = true ->
     forall x, In x (map statusId (links_of fetch)) ->
       ~ In x (record o) -> In x (map id batch)) /\
    let full := record o ++ map id batch in
    (live (listener o) = true -> links_of fetch <> [] ->
     (found_throws on batch (owner o) = false -> record o' = trimmed full) /\
     (found_throws on batch (owner o) = true -> record o' = full)) /\
    ((1000 < length full)%nat ->
     length (trimmed full) = 800%nat /\
     exists dropped, full = dropped ++ trimmed full).
Proof.
  intros Hnd o'.
  destruct (cycle_spec S E on now fetch reconnect o)
    as (_ & (c & f & evs & G1 & G2 & _) & Hb & Hiff & Hrec & _).
  destruct (cycle_NoDup S E on now fetch reconnect o Hnd) as [Hw _].
  fold o' in G1, Hrec.
  exists (batch_of now fetch (listener o)), evs.
  split; [exact G1|]. split; [exact G2|]. split; [exact Hb|].
  split; [intros x Hx; apply Hiff in Hx; tauto|].
  split; [intros Hl x Hx Hn; apply Hiff; auto|].
  split; [|apply trimmed_recent].
  intros Hl Hne. rewrite Hl in Hrec.
  destruct (links_of fetch) as [|l ls]; [congruence|].
  cbn [length Nat.ltb Nat.leb andb] in Hrec.
  split; intros Ht; rewrite Ht in Hrec; cbn [negb andb] in Hrec.
  - rewrite Hrec. now apply trimmed_set.
  - exact Hrec.
Qed.

Lemma poll_cycle_single_batch_event_witness :
  let o := listening_with ["1001"] with_entry in
  let o' := checkGroupMessages (setupGroupListenerEvents Multi.g1) 5
              (Fetched (Some (id_links 1001 3))) None (again o) in
  NoDup (record o) /\
  exists batch evs,
    emitted o' = emitted o ++ map Poll evs /\
    found_events evs = match batch with [] => [] | _ => [batch] end /\
    map id batch = ["1002"; "1003"].
Proof.
  assert (H : NoDup (record (listening_with (S := Multi.Stats)
                               (E := Forwarded) ["1001"] with_entry))).
  { repeat constructor. simpl. tauto. }
  split; [exact H|].
  destruct (poll_cycle_single_batch_event (setupGroupListenerEvents Multi.g1)
              5 (Fetched (Some (id_links 1001 3))) None
              (listening_with ["1001"] with_entry) H)
    as (batch & evs & He & Hf & _ & Hs & Hc & _).
  exists batch, evs. split; [exact He|]. split; [exact Hf|].
  vm_compute in He.
  destruct evs as [|e1 [|e2 [|e3 [|e4 evs]]]]; try discriminate.
  injection He as <- <- <-.
  cbn in Hf. destruct batch as [|t ts]; [discriminate|].
  injection Hf as <- <-. reflexivity.
Defined.

(** C9 as stated fails: a record of 1000 ids and one link with a new id,
    under the handlers that MultiGroupListener registers before the
    statistics entry of the group exists.  The handler of "newTweetsFound"
    throws, the trimming is skipped and the record is left with 1001 ids;
    with the entry in place the same cycle leaves 800 ids.  This is the
    first poll of a listener that [initializeGroupListener] has created and
    started on a file of 1000 ids. *)
Lemma trim_skipped_when_handler_throws :
  let on := setupGroupListenerEvents Multi.g1 in
  let fetch := Fetched (Some (id_links 1001 1)) in
  let rec := map statusId (id_links 1 1000) in
  let o := listening_with rec (Multi.stats (Multi.new [Multi.g1])) in
  let o' := checkGroupMessages on 5 fetch None (again o) in
  length (working_set 5 fetch (listener o)) = 1001%nat /\
  length (record o') = 1001%nat /\
  map (map id) (found_events (polled (emitted o'))) = [["1001"]] /\
  length (record (checkGroupMessages on 5 fetch None
                    (again (listening_with rec with_entry)))) = 800%nat /\
  length (record (snd (start on None (FileWith rec) AuthOk 5 fetch None
                         (mkLife Listener.new false)
                         (Multi.stats (Multi.new [Multi.g1])))))
  = 1001%nat /\
  ~ (forall (now : Z) (fetch : Fetch) (reconnect : option bool)
       (o : Outcome Multi.Stats Forwarded),
       NoDup (record o) -> live (listener o) = true ->
       links_of fetch <> [] ->
       (1000 < length (working_set now fetch (listener o)))%nat ->
       length (record (checkGroupMessages on now fetch reconnect (again o)))
       = 800%nat).
Proof.
  intros on fetch rec o o'.
  assert (H1 : length (working_set 5 fetch (listener o)) = 1001%nat)
    by (vm_compute; reflexivity).
  assert (H2 : length (record o') = 1001%nat) by (vm_compute; reflexivity).
  split; [exact H1|]. split; [exact H2|].
  split; [vm_compute; reflexivity|].
  split; [vm_compute; reflexivity|].
  split; [vm_compute; reflexivity|].
  intros C.
  assert (Hnd : NoDup (record o)).
  { assert (En : nodup string_dec (record o) = record o)
      by (vm_compute; reflexivity).
    rewrite <- En. apply NoDup_nodup. }
  specialize (C 5%Z fetch None o Hnd eq_refl).
  fold o' in C. rewrite H2, H1 in C.
  assert (Hne : links_of fetch <> []) by discriminate.
  specialize (C Hne). lia.
Qed.

(** C1 (amended).  Within one poll cycle no id is emitted twice and no id
    that the record holds when the cycle starts is emitted; a live cycle
    emits every id that its links bring and the record does not hold.  A
    cycle drops an id from the record only by trimming it: the working set
    exceeds 1000 ids, the handlers of "newTweetsFound" have returned and
    the record is cut to its most recent 800 ids; the next cycle whose
    links bring the dropped id emits it again.  Over a run of cycles an
    id is emitted at most once more than the cycles have dropped it, and
    not at all before that when the record held it at the start.  As long
    as the record and the links of the run hold no more than 1000 different
    ids, nothing is dropped and every id is emitted at most once. *)
Theorem dedup_emits_once_untrimmed {S E : Type}
  (on : ListenerLife.Event -> S -> S * list E * option string)
  (cycles : list (Z * Fetch * option bool)) (o : Outcome S E) (x : string) :
  (forall now fetch reconnect,
     let o1 := checkGroupMessages on now fetch reconnect (again o) in
     (count_occ string_dec (ids_emitted o1) x
      <= count_occ string_dec (ids_emitted o) x + 1)%nat /\
     (In x (record o) ->
      count_occ string_dec (ids_emitted o1) x
      = count_occ string_dec (ids_emitted o) x) /\
     (live (listener o) = true ->
      In x (map statusId (links_of fetch)) -> ~ In x (record o) ->
      count_occ string_dec (ids_emitted o1) x
      = (count_occ string_dec (ids_emitted o) x + 1)%nat) /\
     (NoDup (record o) -> drops on x now fetch reconnect o = true ->
      let full := working_set now fetch (listener o) in
      (1000 < length full)%nat /\
      found_throws on (batch_of now fetch (listener o)) (owner o) = false /\
      record o1 = slice (-800) full /\ length (record o1) = 800%nat /\
      ~ In x (record o1) /\ live (listener o1) = true /\
      forall now' fetch' reconnect',
        In x (map statusId (links_of fetch')) ->
        count_occ string_dec
          (ids_emitted (checkGroupMessages on now' fetch' reconnect'
                          (again o1))) x
        = (count_occ string_dec (ids_emitted o1) x + 1)%nat)) /\
  (count_occ string_dec (ids_emitted (poll_cycles on cycles o)) x
   <= count_occ string_dec (ids_emitted o) x
      + (if known x o then 0 else 1) + dropped_times on x cycles o)%nat /\
  (NoDup (record o) ->
   (length (nodup string_dec (record o ++ run_ids cycles)) <= 1000)%nat ->
   dropped_times on x cycles o = 0%nat /\
   (count_occ string_dec (ids_emitted (poll_cycles on cycles o)) x
    <= count_occ string_dec (ids_emitted o) x
       + (if known x o then 0 else 1))%nat).
Proof.
  split; [|split].
  - intros now fetch reconnect o1.
    pose proof (cycle_count S E on now fetch reconnect o x) as Hc.
    cbv zeta in Hc. fold o1 in Hc.
    destruct (cycle_spec S E on now fetch reconnect o) as (_ & _ & _ & Hiff & _).
    split; [|split; [|split]].
    + destruct (in_dec string_dec x _); lia.
    + intros Hx. destruct (in_dec string_dec x _) as [Hin|_]; [|lia].
      apply Hiff in Hin. tauto.
    + intros Hl Hx Hn.
      destruct (in_dec string_dec x _) as [_|Hout]; [lia|].
      exfalso. apply Hout, Hiff. auto.
    + intros Hnd Hd.
      destruct (drops_trimmed S E on x now fetch reconnect o Hnd Hd)
        as (D1 & D2 & D3 & D4 & D5 & D6).
      fold o1 in D3, D4, D5, D6.
      repeat (split; [assumption|]).
      intros now' fetch' reconnect' Hx.
      pose proof (cycle_count S E on now' fetch' reconnect' o1 x) as Hc'.
      cbv zeta in Hc'.
      destruct (cycle_spec S E on now' fetch' reconnect' o1)
        as (_ & _ & _ & Hiff' & _).
      destruct (in_dec string_dec x
                  (map id (batch_of now' fetch' (listener o1))))
        as [_|Hout]; [exact Hc'|].
      exfalso. apply Hout, Hiff'. auto.
  - apply run_count.
  - intros Hnd Hlen.
    pose proof (run_untrimmed S E on x cycles o Hnd Hlen) as Hd.
    split; [exact Hd|].
    pose proof (run_count S E on x cycles o) as Hc. lia.
Qed.

Lemma dedup_emits_once_untrimmed_witness :
  let o := listening_with (S := nat) (E := ListenerLife.Event) [] 0%nat in
  NoDup (record o) /\
  (length (nodup string_dec (record o ++ run_ids (timed scenario_a)))
   <= 1000)%nat /\
  dropped_times counting "1001" (timed scenario_a) o = 0%nat /\
  (count_occ string_dec
     (ids_emitted (poll_cycles counting (timed scenario_a) o)) "1001"
   <= 1)%nat.
Proof.
  intros o.
  assert (H1 : NoDup (record o)) by constructor.
  assert (H2 : (length (nodup string_dec
                          (record o ++ run_ids (timed scenario_a)))
                <= 1000)%nat).
  { vm_compute. repeat constructor. }
  split; [exact H1|]. split; [exact H2|].
  exact (proj2 (proj2 (dedup_emits_once_untrimmed counting (timed scenario_a)
                         o "1001")) H1 H2).
Defined.

(** C1 as stated fails: twenty-one cycles bring 1050 ids; the last of them
    leaves 1050 ids in the working set, the record is cut to the ids "251"
    to "1050" and id "1" is dropped.  The next cycle brings "1" again and
    emits it a second time. *)
Lemma dedup_reemits_after_trim :
  let o := listening_with (S := nat) (E := ListenerLife.Event) [] 0%nat in
  count_occ string_dec
    (ids_emitted (poll_cycles counting (timed overflow_cycles) o)) "1"
  = 2%nat /\
  dropped_times counting "1" (timed overflow_cycles) o = 1%nat /\
  ~ (forall cycles (o : Outcome nat ListenerLife.Event) x,
       ids_emitted o = [] ->
       (count_occ string_dec
          (ids_emitted (poll_cycles counting cycles o)) x <= 1)%nat).
Proof.
  intros o.
  assert (H : count_occ string_dec
                (ids_emitted (poll_cycles counting (timed overflow_cycles) o))
                "1" = 2%nat) by (vm_compute; reflexivity).
  split; [exact H|]. split; [vm_compute; reflexivity|].
  intros C. specialize (C (timed overflow_cycles) o "1" eq_refl). lia.
Qed.

End ListenerSpec.

Module WiredExtra.
Import Js JsFacts JsMore Listener ListenerFacts ListenerLife ListenerExtra.
Import Wired WiredFacts PollFacts RunFacts.

Lemma found_quiet_returns {S E : Type}
  (on : ListenerLife.Event -> S -> S * list E * option string)
  (batch : list TweetInfo) (s : S) :
  found_quiet on -> found_throws on batch s = false.
Proof.
  intros H. unfold found_throws. destruct batch; [reflexivity|].
  now rewrite H.
Qed.

Lemma trimmed_bound (full : list string) :
  (length (set_of_array (slice (-800) full)) <= 1000)%nat.
Proof.
  etransitivity; [apply set_of_array_length|].
  etransitivity; [apply (slice_length_le 800); lia|]. lia.
Qed.

(** X8.  When [processTweetLinks] returns, the record holds at most 1000
    ids, whatever it was given; when it throws, which it does when a
    handler of "newTweetsFound" throws, the record is what it was plus the
    batch, not cut.  Hence, with handlers of "newTweetsFound" that return,
    a record of at most 1000 ids keeps that bound through any run of poll
    cycles. *)
Theorem record_stays_bounded {S E : Type}
  (on : ListenerLife.Event -> S -> S * list E * option string) :
  (forall now links (o : Outcome S E),
     let o' := processTweetLinks on now links o in
     (thrown o' = None -> (length (record o') <= 1000)%nat) /\
     (thrown o' <> None ->
      record o'
      = record o ++ map id (newTweets (scan_links now links (listener o))))) /\
  (found_quiet on ->
   forall cycles (o : Outcome S E),
     (length (record o) <= 1000)%nat ->
     (length (record (poll_cycles on cycles o)) <= 1000)%nat).
Proof.
  split.
  - intros now links o o'.
    destruct (processTweetLinks_shape S E on now links o)
      as (_ & _ & _ & _ & _ & _ & P7 & P8 & _).
    fold o' in P7, P8. unfold record. rewrite P7.
    destruct (scan_links_spec now links (listener o)) as (Hseen & _).
    split.
    + intros Ht. apply P8 in Ht. rewrite Ht.
      destruct (Nat.ltb_spec 1000
                  (length (seen (scan_links now links (listener o)))))
        as [_|Hle]; [apply trimmed_bound | exact Hle].
    + intros Ht.
      destruct (found_throws on _ (owner o)); [exact Hseen|].
      exfalso. apply Ht, P8. reflexivity.
  - intros Hq. induction cycles as [|[[now fetch] reconnect] rest IH];
      intros o Hb; [exact Hb|].
    cbn [poll_cycles]. apply IH.
    destruct (cycle_spec S E on now fetch reconnect o)
      as (_ & _ & _ & Hiff & Hrec & _).
    rewrite Hrec, (found_quiet_returns on _ _ Hq). cbn [negb].
    rewrite andb_true_r.
    destruct (Nat.ltb_spec 1000
                (length (working_set now fetch (listener o)))) as [Hlt|Hle].
    + destruct (live (listener o) && (0 <? length (links_of fetch))%nat)
        eqn:Eg; cbn [andb]; [apply trimmed_bound|].
      (* no link was processed: the batch is empty *)
      assert (Eb : map id (batch_of now fetch (listener o)) = []).
      { destruct (map id (batch_of now fetch (listener o))) as [|a ids] eqn:Ei;
          [reflexivity|].
        destruct (proj1 (Hiff a)) as (H1 & H2 & _); [now left|].
        rewrite H1 in Eg. cbn [andb] in Eg.
        destruct (links_of fetch); [destruct H2 | discriminate]. }
      unfold working_set. rewrite Eb, app_nil_r. exact Hb.
    + rewrite andb_false_r. exact Hle.
Qed.

Section AnyHandlers.

Variables S E : Type.
Variable on : ListenerLife.Event -> S -> S * list E * option string.

Lemma answered_step (now : Z) (fetch : Fetch) (reconnect : option bool)
  (rest : list (Z * Fetch * option bool)) :
  answered ((now, fetch, reconnect) :: rest)
  = (match fetch with Fetched _ => 1 | _ => 0 end + answered rest)%nat.
Proof. unfold answered. simpl. now destruct fetch. Qed.

Lemma found_once_ids (batch : list TweetInfo) (evs : list Listener.Event) :
  found_events evs = found_once batch ->
  length (emitted_ids evs) = length batch.
Proof.
  intros H. rewrite emitted_ids_found, H.
  destruct batch; simpl; rewrite ?app_nil_r, ?length_map; reflexivity.
Qed.

(** The counters of a live listener over a run of poll cycles. *)
Lemma run_counts (cycles : list (Z * Fetch * option bool)) :
  forall o : Outcome S E,
    live (listener o) = true ->
    let o' := poll_cycles on cycles o in
    exists evs,
      emitted o' = emitted o ++ map Poll evs /\
      live (listener o') = true /\
      totalMessages (stats (listener o'))
      = (totalMessages (stats (listener o))
         + Z.of_nat (answered cycles))%Z /\
      errors (stats (listener o'))
      = (errors (stats (listener o)) + Z.of_nat (failed_checks evs))%Z /\
      tweetsFound (stats (listener o'))
      = (tweetsFound (stats (listener o))
         + Z.of_nat (length (emitted_ids evs)))%Z /\
      (completed evs <= answered cycles)%nat /\
      (failed_checks evs <= length cycles)%nat /\
      (length cycles <= completed evs + failed_checks evs)%nat /\
      (length cycles <= answered cycles + failed_checks evs)%nat /\
      (quiet on ->
       completed evs = answered cycles /\
       (completed evs + failed_checks evs = length cycles)%nat).
Proof.
  induction cycles as [|[[now fetch] reconnect] rest IH]; intros o Hl.
  - exists []. cbn. rewrite app_nil_r, !Z.add_0_r.
    repeat split; auto; lia.
  - cbn [poll_cycles]. cbv zeta.
    pose proof (checkGroupMessages_shape S E on now fetch reconnect (again o)
                  eq_refl Hl) as P.
    cbv zeta in P.
    set (o1 := checkGroupMessages on now fetch reconnect (again o)) in *.
    change (listener (again o)) with (listener o) in P.
    destruct P as (P1 & P2 & _ & P4 & _ & c & f & (evs1 & G1 & G2 & G3 & G4)
                   & P6 & Q1 & Q2 & Q3 & Q4 & Q5 & Q6).
    change (emitted (again o)) with (emitted o) in G1.
    destruct (IH o1 P1) as (evs2 & I1 & I2 & I3 & I4 & I5 & I6 & I7 & I8 & I9
                            & I10).
    exists (evs1 ++ evs2).
    rewrite answered_step, emitted_ids_app, completed_app, failed_checks_app,
      length_app, G3, G4, (found_once_ids _ _ G2).
    cbn [length].
    split; [rewrite I1, G1, map_app, app_assoc; reflexivity|].
    split; [exact I2|].
    split; [rewrite I3, P2; lia|].
    split; [rewrite I4, P6; lia|].
    split; [rewrite I5, P4; lia|].
    do 4 (split; [lia|]).
    intros Hq. destruct (Q6 Hq) as [-> Hc]. destruct (I10 Hq) as [Ha Hb].
    lia.
Qed.

Lemma quiet_returns :
  quiet on ->
  forall e s, True -> snd (on e s) = None /\ True.
Proof. intros Hq e s _. split; [apply Hq | exact I]. Qed.

End AnyHandlers.

(** X10.  The statistics of a live listener count its poll cycles,
    whatever its handlers do: [totalMessages] grows by the number of
    cycles in which [getGroupNotifications] returns, [errors] by the
    number of "check error" events and [tweetsFound] by the number of
    items carried by the "new tweets found" events; the listener stays
    live.  Every cycle emits "check completed" or "check error", each at
    most once, and "check error" whenever [getGroupNotifications] throws;
    with handlers that return, every cycle ends in exactly one of the two
    events and "check completed" is emitted in every cycle in which
    [getGroupNotifications] returns. *)
Theorem statistics_count_the_poll_cycles {S E : Type}
  (on : ListenerLife.Event -> S -> S * list E * option string)
  (cycles : list (Z * Fetch * option bool)) (o : Outcome S E) :
  live (listener o) = true ->
  let o' := poll_cycles on cycles o in
  exists evs,
    emitted o' = emitted o ++ map Poll evs /\
    live (listener o') = true /\
    totalMessages (stats (listener o'))
    = (totalMessages (stats (listener o)) + Z.of_nat (answered cycles))%Z /\
    errors (stats (listener o'))
    = (errors (stats (listener o)) + Z.of_nat (failed_checks evs))%Z /\
    tweetsFound (stats (listener o'))
    = (tweetsFound (stats (listener o))
       + Z.of_nat (length (emitted_ids evs)))%Z /\
    (completed evs <= answered cycles)%nat /\
    (failed_checks evs <= length cycles)%nat /\
    (length cycles <= completed evs + failed_checks evs)%nat /\
    (length cycles <= answered cycles + failed_checks evs)%nat /\
    (quiet on ->
     completed evs = answered cycles /\
     (completed evs + failed_checks evs = length cycles)%nat).
Proof. intros Hl. now apply run_counts. Qed.

Lemma statistics_count_the_poll_cycles_witness :
  let o := listening_with (S := nat) (E := ListenerLife.Event) [] 0%nat in
  live (listener o) = true /\
  totalMessages (stats (listener (poll_cycles counting (timed scenario_a) o)))
  = 2%Z /\
  tweetsFound (stats (listener (poll_cycles counting (timed scenario_a) o)))
  = 3%Z.
Proof.
  intros o. split; [reflexivity|].
  destruct (statistics_count_the_poll_cycles counting (timed scenario_a) o
              eq_refl) as (evs & _ & _ & Ht & _).
  split; [rewrite Ht; reflexivity | reflexivity].
Defined.

(** X12.  [start] fails closed, whatever the handlers do.  It returns at
    once when the listener is listening.  Otherwise it throws when the
    session cannot be established, and then no item has been emitted and
    the timer is as it was.  Whenever [start] throws, the listener is left
    not listening, the last event is "listenerError" and later polls do
    nothing; whenever it returns, the listener is listening, and if it did
    the start the session is established, the timer runs and the last
    event is "listenerStarted".  With handlers that return, [start] throws
    exactly when the listener was not listening and the session could not
    be established. *)
Theorem start_fails_closed {S E : Type}
  (on : ListenerLife.Event -> S -> S * list E * option string)
  (cache : option Z) (f : File) (auth : AuthInit) (now : Z) (fetch : Fetch)
  (reconnect : option bool) (l : Life) (s : S) :
  let r := start on cache f auth now fetch reconnect l s in
  let l' := fst r in
  let o' := snd r in
  listener o' = core l' /\
  (isListening (core l) = true ->
   l' = l /\ thrown o' = None /\ emitted o' = []) /\
  (isListening (core l) = false -> auth <> AuthOk ->
   thrown o' <> None /\ ticking l' = ticking l /\ ids_emitted o' = []) /\
  (thrown o' <> None ->
   isListening (core l) = false /\ isListening (core l') = false /\
   (exists message,
      last (emitted o') ListenerStarted = ListenerError message) /\
   forall now' fetch' reconnect',
     checkGroupMessages on now' fetch' reconnect' (again o') = again o') /\
  (thrown o' = None ->
   isListening (core l') = true /\
   (isListening (core l) = false ->
    auth = AuthOk /\ live (core l') = true /\ ticking l' = true /\
    last (emitted o') (ListenerError "") = ListenerStarted)) /\
  (quiet on ->
   (thrown o' = None <-> isListening (core l) = true \/ auth = AuthOk)).
Proof.
  unfold start.
  destruct (isListening (core l)) eqn:Hl.
  { cbn. split; [reflexivity|]. split; [auto|]. split; [discriminate|].
    split; [congruence|]. split; [|tauto].
    intros _. split; [exact Hl | discriminate]. }
  destruct (load cache f (core l)) as [st1 loaded] eqn:El.
  assert (Hsave : emitted_ids loaded = []).
  { destruct f; simpl in El; injection El as <- <-; reflexivity. }
  (* the [catch] block *)
  assert (Hfail : forall ticks message (o : Outcome S E),
    let o1 := emit on (ListenerError message)
                (with_listener (set_listening false (listener o)) o) in
    let r := (mkLife (listener o1) ticks,
              match thrown o1 with
              | Some _ => o1
              | None => mkOutcome (listener o1) (owner o1) (emitted o1)
                          (forwarded o1) (Some message)
              end) in
    listener (snd r) = core (fst r) /\
    core (fst r) = set_listening false (listener o) /\
    ticking (fst r) = ticks /\
    emitted (snd r) = emitted o ++ [ListenerError message] /\
    thrown (snd r) <> None).
  { intros ticks message o. unfold emit. cbn [owner with_listener].
    destruct (on (ListenerError message) (owner o)) as [[s' out] [m|]];
      cbn; repeat split; discriminate. }
  assert (Hclosed : forall ticks message (o : Outcome S E),
    let o1 := emit on (ListenerError message)
                (with_listener (set_listening false (listener o)) o) in
    let r := (mkLife (listener o1) ticks,
              match thrown o1 with
              | Some _ => o1
              | None => mkOutcome (listener o1) (owner o1) (emitted o1)
                          (forwarded o1) (Some message)
              end) in
    thrown (snd r) <> None ->
    false = false /\ isListening (core (fst r)) = false /\
    (exists message',
       last (emitted (snd r)) ListenerStarted = ListenerError message') /\
    forall now' fetch' reconnect',
      checkGroupMessages on now' fetch' reconnect' (again (snd r))
      = again (snd r)).
  { intros ticks message o o1 r _.
    destruct (Hfail ticks message o) as (F1 & F2 & F3 & F4 & F5).
    fold o1 in F1, F2, F3, F4, F5. fold r in F1, F2, F3, F4, F5.
    split; [reflexivity|]. split; [rewrite F2; reflexivity|].
    split; [exists message; rewrite F4; apply last_last|].
    intros now' fetch' reconnect'. apply checkGroupMessages_idle.
    change (listener (again (snd r))) with (listener (snd r)).
    rewrite F1, F2. reflexivity. }
  assert (Hrefused : forall message,
    let o0 := mkOutcome (set_auth true st1) s (map Poll loaded) [] None in
    let o1 := emit on (ListenerError message)
                (with_listener (set_listening false (listener o0)) o0) in
    let r := (mkLife (listener o1) (ticking l),
              match thrown o1 with
              | Some _ => o1
              | None => mkOutcome (listener o1) (owner o1) (emitted o1)
                          (forwarded o1) (Some message)
              end) in
    listener (snd r) = core (fst r) /\
    (false = true ->
     fst r = l /\ thrown (snd r) = None /\ emitted (snd r) = []) /\
    (thrown (snd r) <> None /\ ticking (fst r) = ticking l /\
     ids_emitted (snd r) = []) /\
    (thrown (snd r) <> None ->
     false = false /\ isListening (core (fst r)) = false /\
     (exists message',
        last (emitted (snd r)) ListenerStarted = ListenerError message') /\
     forall now' fetch' reconnect',
       checkGroupMessages on now' fetch' reconnect' (again (snd r))
       = again (snd r)) /\
    (thrown (snd r) = None -> False)).
  { intros message o0 o1 r.
    destruct (Hfail (ticking l) message o0) as (F1 & F2 & F3 & F4 & F5).
    fold o1 in F1, F2, F3, F4, F5. fold r in F1, F2, F3, F4, F5.
    split; [exact F1|]. split; [discriminate|].
    split.
    { split; [exact F5|]. split; [exact F3|].
      unfold ids_emitted. rewrite F4. subst o0. cbn [emitted].
      rewrite polled_app, polled_map_Poll, emitted_ids_app, Hsave.
      reflexivity. }
    split; [apply (Hclosed (ticking l) message o0) | exact F5]. }
  destruct auth as [| |message].
  - (* the session is established: the first poll *)
    set (o0 := mkOutcome (set_auth true st1) s (map Poll loaded) [] None).
    set (o00 := with_listener (set_listening true (listener o0)) o0).
    pose proof (checkGroupMessages_shape S E on now fetch reconnect o00
                  eq_refl eq_refl) as P.
    cbv zeta in P. destruct P as (P1 & _).
    assert (Hq1 : quiet on ->
                  thrown (checkGroupMessages on now fetch reconnect o00)
                  = None).
    { intros Hq.
      destruct (checkGroupMessages_follows S E on (fun _ => True)
                  (quiet_returns S E on Hq) now fetch reconnect o00
                  eq_refl I) as (_ & _ & Ht & _).
      exact Ht. }
    set (o1 := checkGroupMessages on now fetch reconnect o00) in *.
    assert (Hl1 : isListening (listener o1) = true /\
                  hasAuth (listener o1) = true).
    { unfold live in P1. now apply andb_true_iff in P1. }
    destruct (thrown o1) as [m1|] eqn:Et1.
    + destruct (Hfail (ticking l) m1 o1) as (F1 & F2 & F3 & F4 & F5).
      split; [exact F1|]. split; [discriminate|].
      split; [intros _ H; congruence|].
      split; [apply (Hclosed (ticking l) m1 o1)|].
      split; [intros H; now apply F5 in H|].
      intros Hq. discriminate (Hq1 Hq).
    + set (o2 := emit on ListenerStarted o1).
      assert (H2 : listener o2 = listener o1 /\
                   emitted o2 = emitted o1 ++ [ListenerStarted] /\
                   thrown o2 = snd (on ListenerStarted (owner o1))).
      { subst o2. unfold emit.
        destruct (on ListenerStarted (owner o1)) as [[s' out] t]. auto. }
      destruct H2 as (L2 & E2 & T2).
      destruct (thrown o2) as [m2|] eqn:Et2.
      * destruct (Hfail true m2 o2) as (F1 & F2 & F3 & F4 & F5).
        split; [exact F1|]. split; [discriminate|].
        split; [intros _ H; congruence|].
        split; [apply (Hclosed true m2 o2)|].
        split; [intros H; now apply F5 in H|].
        intros Hq. rewrite Hq in T2. discriminate T2.
      * cbn [fst snd core ticking].
        split; [reflexivity|]. split; [discriminate|].
        split; [intros _ H; congruence|].
        split; [intros H; congruence|].
        split; [|intros _; split; auto].
        intros _. rewrite L2. split; [apply Hl1|].
        intros _. split; [reflexivity|]. split; [exact P1|].
        split; [reflexivity|]. rewrite E2. apply last_last.
  - destruct (Hrefused "群组账号认证失败") as (R1 & R2 & R3 & R4 & R5).
    split; [exact R1|]. split; [exact R2|]. split; [intros _ _; exact R3|].
    split; [exact R4|]. split; [intros H; destruct (R5 H)|].
    intros _. split; [intros H; destruct (R5 H)|].
    intros [H|H]; discriminate.
  - destruct (Hrefused message) as (R1 & R2 & R3 & R4 & R5).
    split; [exact R1|]. split; [exact R2|]. split; [intros _ _; exact R3|].
    split; [exact R4|]. split; [intros H; destruct (R5 H)|].
    intros _. split; [intros H; destruct (R5 H)|].
    intros [H|H]; discriminate.
Qed.

End WiredExtra.

(* ================================================================= *)
(** * MultiGroupListener as a whole *)

Module AggregatorFacts.
Import Js JsMore Multi Wired WiredFacts Aggregator.

Local Open Scope Z_scope.

Section ByKey.

Variable A : Type.
Variable key : A -> Z.

Lemma insert_sorted_perm (x : A) (l : list A) :
  Permutation (Assigner.insert_sorted (by_key key) x l) (x :: l).
Proof.
  induction l as [|y l IH]; simpl; [reflexivity|].
  destruct (by_key key x y <=? 0); [reflexivity|].
  rewrite IH. apply perm_swap.
Qed.

Lemma sort_perm (l : list A) : Permutation (Assigner.sort (by_key key) l) l.
Proof.
  induction l as [|x l IH]; simpl; [reflexivity|].
  now rewrite insert_sorted_perm, IH.
Qed.

Lemma insert_sorted_sorted (x : A) (l : list A) :
  StronglySorted (fun a b => key a <= key b) l ->
  StronglySorted (fun a b => key a <= key b)
    (Assigner.insert_sorted (by_key key) x l).
Proof.
  induction 1 as [|y l Hs IH Hy]; simpl.
  - repeat constructor.
  - unfold by_key at 1. destruct (Z.leb_spec (key x - key y) 0) as [Hle|Hgt].
    + constructor; [now constructor|].
      constructor; [lia|].
      eapply Forall_impl; [|exact Hy]. simpl. intros; lia.
    + constructor; [exact IH|].
      eapply Permutation_Forall;
        [symmetry; apply insert_sorted_perm|].
      constructor; [lia | exact Hy].
Qed.

Lemma sort_sorted (l : list A) :
  StronglySorted (fun a b => key a <= key b) (Assigner.sort (by_key key) l).
Proof.
  induction l as [|x l IH]; simpl; [constructor|].
  now apply insert_sorted_sorted.
Qed.

(** The sort is stable: the elements of one key keep their order. *)
Lemma insert_sorted_stable (p : Z) (x : A) (l : list A) :
  filter (fun a => key a =? p) (Assigner.insert_sorted (by_key key) x l) =
  filter (fun a => key a =? p) (x :: l).
Proof.
  induction l as [|y l IH]; simpl; [reflexivity|].
  unfold by_key at 1. destruct (Z.leb_spec (key x - key y) 0) as [Hle|Hgt].
  - reflexivity.
  - simpl. rewrite IH. simpl.
    destruct (Z.eqb_spec (key x) p), (Z.eqb_spec (key y) p);
      try reflexivity; lia.
Qed.

Lemma sort_stable (p : Z) (l : list A) :
  filter (fun a => key a =? p) (Assigner.sort (by_key key) l) =
  filter (fun a => key a =? p) l.
Proof.
  induction l as [|x l IH]; simpl; [reflexivity|].
  rewrite insert_sorted_stable. simpl. now rewrite IH.
Qed.

End ByKey.

Lemma get_set_other {V : Type} (m : list (string * V)) (k k' : string)
  (v : V) :
  k <> k' -> get (set m k v) k' = get m k'.
Proof.
  intros Hk. rewrite get_set.
  destruct (String.eqb_spec k k'); [contradiction | reflexivity].
Qed.

Lemma length_set_new {V : Type} (m : list (string * V)) (k : string) (v : V) :
  get m k = None -> length (set m k v) = S (length m).
Proof.
  induction m as [|[k' v'] m IH]; simpl; [reflexivity|].
  destruct (String.eqb k' k); [discriminate|].
  intros H. simpl. now rewrite IH.
Qed.

(** The initializations of [start] on an aggregator that has no entry for
    any of the groups. *)
Lemma initialize_all_missing (settled : list (GroupConfig * World))
  (st : State) :
  plain_ids settled ->
  (forall x, In x settled -> get (groupStats (stats st)) (id (fst x)) = None) ->
  let r := initialize_all settled st in
  groupListeners (fst r) = groupListeners st /\
  groupConfigs (fst r) = groupConfigs st /\
  isRunning (fst r) = isRunning st /\
  totalGroups (stats (fst r)) = totalGroups (stats st) /\
  statsStartTime (stats (fst r)) = statsStartTime (stats st) /\
  Forall (fun e => exists groupId groupName message,
            e = Own (GroupInitError groupId groupName message)) (snd r) /\
  length (snd r) = length settled /\
  (forall x, In x settled ->
     exists message,
       get (groupStats (stats (fst r))) (id (fst x)) =
       Some (failed_entry (fst x) message)) /\
  (forall k, ~ In k (map (fun x => id (fst x)) settled) ->
     get (groupStats (stats (fst r))) k = get (groupStats (stats st)) k).
Proof.
  revert st. induction settled as [|[c w] settled IH]; intros st [Hnd Hin] Hg.
  - simpl. repeat split; auto. intros x [].
  - simpl in Hnd. inversion Hnd as [|? ? Hc Hnd']; subst.
    inversion Hin as [|? ? Hi Hin']; subst. simpl in Hi.
    simpl.
    destruct (initializeGroupListener_missing c w st Hi
                (Hg (c, w) (or_introl eq_refl)))
      as (message & E1 & E2 & E3 & E4 & E5 & E6 & E7 & E8 & _).
    destruct (initializeGroupListener c w st) as [st1 evs1].
    simpl in E1, E2, E3, E4, E5, E6, E7, E8.
    assert (Hg1 : forall x, In x settled ->
              get (groupStats (stats st1)) (id (fst x)) = None).
    { intros x Hx. rewrite E5, get_set_other; [apply Hg; now right|].
      intros E. apply Hc. rewrite E. now apply (in_map (fun x => id (fst x))). }
    specialize (IH st1 (conj Hnd' Hin') Hg1).
    destruct (initialize_all settled st1) as [st2 evs2].
    simpl in IH. destruct IH as (I1 & I2 & I3 & I4 & I5 & I6 & I7 & I8 & I9).
    simpl. rewrite E1, length_app, I7.
    repeat split; try congruence.
    + constructor; [eauto | exact I6].
    + intros x [<- | Hx]; [|now apply I8].
      exists message. simpl. rewrite I9 by exact Hc.
      rewrite E5, get_set, String.eqb_refl. reflexivity.
    + intros k Hk. rewrite I9 by tauto.
      rewrite E5, get_set_other; [reflexivity | tauto].
Qed.

Lemma stop_all_spec (stops : string -> Stop)
  (listeners : list (string * GroupData)) (st : State) :
  let r := stop_all stops listeners st in
  groupConfigs (fst r) = groupConfigs st /\
  isRunning (fst r) = isRunning st /\
  keys (groupListeners (fst r)) = keys (groupListeners st) /\
  totalGroups (stats (fst r)) = totalGroups (stats st) /\
  activeGroups (stats (fst r)) = activeGroups (stats st) /\
  totalTweetsFound (stats (fst r)) = totalTweetsFound (stats st) /\
  totalErrors (stats (fst r)) = totalErrors (stats st) /\
  keys (groupStats (stats (fst r))) = keys (groupStats (stats st)).
Proof.
  revert st. induction listeners as [|[k g] listeners IH]; intros st; simpl.
  - repeat split.
  - assert (S : let r := stop_listener k g (stops k) st in
      groupConfigs (fst r) = groupConfigs st /\
      isRunning (fst r) = isRunning st /\
      keys (groupListeners (fst r)) = keys (groupListeners st) /\
      totalGroups (stats (fst r)) = totalGroups (stats st) /\
      activeGroups (stats (fst r)) = activeGroups (stats st) /\
      totalTweetsFound (stats (fst r)) = totalTweetsFound (stats st) /\
      totalErrors (stats (fst r)) = totalErrors (stats st) /\
      keys (groupStats (stats (fst r))) = keys (groupStats (stats st))).
    { unfold stop_listener. destruct (listening g); [|now repeat split].
      destruct (stops k); simpl;
        rewrite ?AssignerFacts.keys_update; now repeat split. }
    destruct (stop_listener k g (stops k) st) as [st1 evs1].
    specialize (IH st1). destruct (stop_all stops listeners st1) as [st2 evs2].
    simpl in *.
    destruct S as (S1 & S2 & S3 & S4 & S5 & S6 & S7 & S8).
    destruct IH as (I1 & I2 & I3 & I4 & I5 & I6 & I7 & I8).
    repeat split; congruence.
Qed.

(** The counters after [start] of a new aggregator. *)
Lemma start_new_counts (now : Z) (settled : list (GroupConfig * World))
  (configs : list GroupConfig) :
  plain_ids settled ->
  let r := Aggregator.start now settled (Multi.new configs) in
  isRunning (fst r) = true /\
  activeGroups (stats (fst r)) = 0 /\
  totalGroups (stats (fst r)) = Z.of_nat (length configs).
Proof.
  intros Hp. unfold Aggregator.start. simpl.
  match goal with
  | |- context [initialize_all settled ?st1] =>
      pose proof (initialize_all_missing settled st1 Hp
                    (fun x _ => eq_refl)) as H;
      destruct (initialize_all settled st1) as [st2 evs]
  end.
  simpl in H. destruct H as (H1 & H2 & H3 & H4 & _).
  simpl. rewrite H1, H4. simpl. auto.
Qed.

End AggregatorFacts.

Module AggregatorSpec.
Import Js JsMore Multi Wired WiredFacts Aggregator AggregatorFacts.

Local Open Scope Z_scope.

(** X22.  [start] of a new aggregator gets no group running.  For groups
    with ids of their own, whatever their listeners meet, [start] ends
    with an empty [groupListeners] and [activeGroups] 0: every group is
    recorded as failed, the events are one "groupInitError" for each group
    and then "multiGroupStarted" with no group id, and the aggregator
    counts as running. *)
Theorem new_aggregator_starts_no_group (now : Z)
  (settled : list (GroupConfig * World)) (configs : list GroupConfig) :
  plain_ids settled ->
  let r := start now settled (Multi.new configs) in
  groupListeners (fst r) = [] /\
  activeGroups (stats (fst r)) = 0 /\
  totalGroups (stats (fst r)) = Z.of_nat (length configs) /\
  isRunning (fst r) = true /\
  (forall c w, In (c, w) settled ->
     exists message,
       get (groupStats (stats (fst r))) (id c) =
       Some (failed_entry c message)) /\
  exists errors,
    snd r = errors ++ [MultiGroupStarted (Z.of_nat (length configs)) 0 []] /\
    Forall init_error errors /\ length errors = length settled.
Proof.
  intros Hp. unfold start. simpl.
  match goal with
  | |- context [initialize_all settled ?st1] =>
      pose proof (initialize_all_missing settled st1 Hp
                    (fun x _ => eq_refl)) as H;
      destruct (initialize_all settled st1) as [st2 evs]
  end.
  simpl in H. destruct H as (H1 & H2 & H3 & H4 & H5 & H6 & H7 & H8 & H9).
  simpl. rewrite H1, H4. simpl.
  repeat split; auto.
  - intros c w Hin. apply (H8 (c, w) Hin).
  - exists (map Passed evs). split; [reflexivity|].
    split; [|now rewrite length_map].
    apply Forall_map. eapply Forall_impl; [|exact H6].
    intros e (k & n & m & ->). now exists k, n, m.
Qed.

Lemma new_aggregator_starts_no_group_witness :
  groupListeners (fst (start 5 [(g1, first_world)] (Multi.new [g1; g2]))) =
  [].
Proof.
  apply (new_aggregator_starts_no_group 5 [(g1, first_world)] [g1; g2]).
  split; repeat constructor; simpl; tauto.
Defined.

(** X23.  [getGroupsByPriority] lists every registered group once, in the
    order of [priority || 999]: a group without priority, or with priority
    0, counts as 999.  Groups of equal rank keep the order in which they
    were registered, and each is listed with the status of its entry in
    [stats.groupStats]. *)
Theorem groups_are_listed_by_rank (st : State) :
  let groups := map snd (groupListeners st) in
  let out := getGroupsByPriority st in
  StronglySorted (fun a b => rank (v_priority a) <= rank (v_priority b)) out /\
  Permutation (map v_id out) (map (fun g => id (config g)) groups) /\
  (forall p,
     map v_id (filter (fun v => rank (v_priority v) =? p) out) =
     map (fun g => id (config g))
       (filter (fun g => rank (priority (config g)) =? p) groups)) /\
  Forall (fun v => v_status v =
                   option_map gs_status (get (groupStats (stats st)) (v_id v)))
    out.
Proof.
  intros groups out. unfold out, getGroupsByPriority. fold groups.
  change by_priority with (by_key (fun g => rank (priority (config g)))).
  set (key := fun g => rank (priority (config g))).
  set (view := fun g => mkGroupView _ _ _ _).
  split; [|split; [|split]].
  - pose proof (sort_sorted GroupData key groups) as Hs.
    induction Hs as [|g l Hs IH Hg]; simpl; constructor; [exact IH|].
    apply Forall_map. exact Hg.
  - rewrite map_map. simpl.
    apply Permutation_map, sort_perm.
  - intros p.
    etransitivity;
      [|apply f_equal; exact (sort_stable GroupData key p groups)].
    generalize (Assigner.sort (by_key key) groups).
    induction l as [|g l IH]; simpl; [reflexivity|].
    unfold key at 1 3. destruct (rank (priority (config g)) =? p); simpl;
      now rewrite IH.
  - apply Forall_map, Forall_forall. intros g _. reflexivity.
Qed.

(** X24.  On a running aggregator an enabled group with a new id runs only
    after it has been added twice.  The first [addGroup] returns and
    reports "groupAdded", but the group is not registered, since its
    listener meets no entry of the group; the second, with a session that
    is established, registers it.  The configuration is then listed
    twice, [totalGroups] counts it twice, and a third [addGroup] throws. *)
Theorem a_new_group_runs_after_it_is_added_twice (c : GroupConfig)
  (w1 w2 w3 : World) (st : State) :
  isRunning st = true -> enabled c = true -> inherited (id c) = false ->
  get (groupListeners st) (id c) = None ->
  get (groupStats (stats st)) (id c) = None ->
  auth w2 = ListenerLife.AuthOk ->
  let r1 := addGroup c w1 st in
  let r2 := addGroup c w2 (fst (fst r1)) in
  let r3 := addGroup c w3 (fst (fst r2)) in
  snd r1 = Returned /\
  get (groupListeners (fst (fst r1))) (id c) = None /\
  last (snd (fst r1)) MultiGroupStopped = GroupAdded (id c) (groupName c) /\
  snd r2 = Returned /\
  get (groupListeners (fst (fst r2))) (id c) =
    Some (mkGroupData true c GActive (started w2)) /\
  groupConfigs (fst (fst r2)) = groupConfigs st ++ [c; c] /\
  totalGroups (stats (fst (fst r2))) =
    Z.of_nat (length (groupConfigs st)) + 2 /\
  activeGroups (stats (fst (fst r2))) =
    Z.of_nat (length (groupListeners st)) + 1 /\
  (exists message, snd r3 = Threw message) /\ fst r3 = (fst (fst r2), []).
Proof.
  intros Hr He Hi Hl Hg Ha. cbv zeta.
  destruct (initializeGroupListener_missing c w1 st Hi Hg)
    as (message & E1 & E2 & E3 & E4 & E5 & E6 & E7 & E8 & _).
  assert (R1 : addGroup c w1 st =
    (let st1 := fst (initializeGroupListener c w1 st) in
     (mkState (groupConfigs st ++ [c]) (groupListeners st) true
        (mkStats (Z.of_nat (length (groupConfigs st ++ [c])))
           (Z.of_nat (length (groupListeners st)))
           (totalTweetsFound (stats st1)) (totalErrors (stats st1))
           (groupStats (stats st1)) (statsStartTime (stats st1))),
      map Passed (snd (initializeGroupListener c w1 st)) ++
      [GroupAdded (id c) (groupName c)], Returned))).
  { unfold addGroup. rewrite Hl, Hr, He. simpl.
    destruct (initializeGroupListener c w1 st) as [st1 evs1].
    simpl in *. now rewrite E2, E3, E4, Hr. }
  rewrite R1. cbv zeta. cbn [fst snd].
  set (s1 := mkState (groupConfigs st ++ [c]) _ _ _).
  assert (Hg2 : get (groupStats (stats s1)) (id c) <> None)
    by (simpl; rewrite E5, get_set, String.eqb_refl; discriminate).
  destruct (initializeGroupListener_entry c w2 s1 Hg2 Ha)
    as (F1 & F2 & F3 & F4 & _).
  set (registered := set (groupListeners st) (id c)
                       (mkGroupData true c GActive (started w2))) in *.
  assert (R2 : addGroup c w2 s1 =
    (let st2 := fst (initializeGroupListener c w2 s1) in
     (mkState ((groupConfigs st ++ [c]) ++ [c]) registered true
        (mkStats (Z.of_nat (length ((groupConfigs st ++ [c]) ++ [c])))
           (Z.of_nat (length registered))
           (totalTweetsFound (stats st2)) (totalErrors (stats st2))
           (groupStats (stats st2)) (statsStartTime (stats st2))),
      map Passed (snd (initializeGroupListener c w2 s1)) ++
      [GroupAdded (id c) (groupName c)], Returned))).
  { unfold addGroup. cbn [s1 groupListeners isRunning]. rewrite Hl, He.
    simpl andb. cbv iota.
    destruct (initializeGroupListener c w2 s1) as [st2 evs2].
    simpl in F1, F3, F4. simpl. now rewrite F1, F3, F4. }
  rewrite R2. cbv zeta. cbn [fst snd groupListeners groupConfigs stats
                             totalGroups activeGroups].
  assert (R3 : get registered (id c) =
               Some (mkGroupData true c GActive (started w2)))
    by (unfold registered; now rewrite get_set, String.eqb_refl).
  unfold addGroup. cbn [groupListeners]. rewrite R3.
  unfold registered. rewrite (length_set_new _ _ _ Hl).
  rewrite <- app_assoc, !length_app, last_last. simpl.
  repeat split; eauto; lia.
Qed.

Lemma a_new_group_runs_after_it_is_added_twice_witness :
  get (groupListeners
         (fst (fst (addGroup g2 first_world
                      (fst (fst (addGroup g2 first_world
                                   (fst (start 5 [] (Multi.new []))))))))))
    (id g2) =
  Some (mkGroupData true g2 GActive (started first_world)).
Proof.
  apply (a_new_group_runs_after_it_is_added_twice g2 first_world first_world
           first_world (fst (start 5 [] (Multi.new []))));
    reflexivity.
Defined.

(** X25.  [stop] leaves an aggregator without groups: it is not running,
    [groupListeners] is empty, so that [restartGroup] throws for every id,
    and a second [stop] does nothing.  The configurations, the totals and
    the entries of the groups stay, and so does [activeGroups], which
    keeps the number of groups that were registered. *)
Theorem stopped_aggregator_has_no_group (stops : string -> Stop)
  (st : State) :
  let r := Aggregator.stop stops st in
  isRunning (fst r) = false /\
  (forall stops', Aggregator.stop stops' (fst r) = (fst r, [])) /\
  groupConfigs (fst r) = groupConfigs st /\
  activeGroups (stats (fst r)) = activeGroups (stats st) /\
  totalTweetsFound (stats (fst r)) = totalTweetsFound (stats st) /\
  totalErrors (stats (fst r)) = totalErrors (stats st) /\
  keys (groupStats (stats (fst r))) = keys (groupStats (stats st)) /\
  (if isRunning st
   then groupListeners (fst r) = [] /\
        last (snd r) (GroupAdded "" None) = MultiGroupStopped /\
        forall groupId stop start now,
          exists message,
            restartGroup groupId stop start now (fst r) =
            (fst r, [], Threw message)
   else r = (st, [])).
Proof.
  unfold Aggregator.stop.
  destruct (isRunning st) eqn:Hr; simpl.
  - match goal with
    | |- context [stop_all stops ?l ?s] =>
        pose proof (stop_all_spec stops l s) as H;
        destruct (stop_all stops l s) as [st2 evs]
    end.
    simpl in H. destruct H as (H1 & H2 & H3 & H4 & H5 & H6 & H7 & H8).
    simpl. rewrite H2. simpl.
    repeat split; auto.
    + apply last_last.
    + intros groupId stop start now. unfold restartGroup. simpl. eauto.
  - rewrite Hr. now repeat split.
Qed.

End AggregatorSpec.

(* ================================================================= *)
(** * TwitterMonitorSystem: what the health status reports *)

Module HealthSpec.
Import Js Health.

Local Open Scope Z_scope.

(** Case analysis on the tests of [getHealthStatus]. *)
Ltac cases :=
  repeat match goal with
         | |- context [check ?c _ _ _] =>
             lazymatch c with
             | true => fail
             | false => fail
             | _ => destruct c
             end
         end;
  unfold check.

(** X26.  The score of [getHealthStatus] is 100 less the penalties of the
    issues it reports, each at most once, and lies between -45 and 100.
    The status is "healthy" exactly when no issue is reported, or only
    that the listeners had too many errors; it is "critical" exactly when
    the score is under 60.  Without components it is healthy with score
    100. *)
Theorem health_score_and_level (multi : option Multi.State)
  (assigner : option Assigner.State) (accounts : nat) :
  let h := getHealthStatus multi assigner accounts in
  score h = 100 - penalties (issues h) /\
  NoDup (issues h) /\
  -45 <= score h <= 100 /\
  (overall h = Healthy <->
     issues h = [] \/ issues h = [ManyListenerErrors]) /\
  (overall h = Critical <-> score h < 60) /\
  (multi = None -> assigner = None -> h = mkHealth Healthy [] 100).
Proof.
  assert (N : forall l : list Issue,
    (fix nodup (l : list Issue) : bool :=
       match l with
       | [] => true
       | i :: l' => negb (existsb (issue_eqb i) l') && nodup l'
       end) l = true -> NoDup l).
  { induction l as [|i l IH]; [constructor|].
    intros H. apply andb_true_iff in H. destruct H as [H1 H2].
    constructor; [|now apply IH].
    intros Hin. apply negb_true_iff in H1.
    assert (existsb (issue_eqb i) l = true); [|congruence].
    apply existsb_exists. exists i. split; [exact Hin | now destruct i]. }
  unfold getHealthStatus.
  destruct multi as [m|], assigner as [a|]; cases; simpl;
    (split; [reflexivity|]);
    (split; [apply N; reflexivity|]);
    (split; [lia|]);
    (split; [split; [first [discriminate | auto]
                    | intros [H | H]; first [discriminate | reflexivity]]|]);
    (split; [split; intros H; first [discriminate | reflexivity | lia]|]);
    intros H1 H2; first [discriminate | reflexivity].
Qed.

Lemma reported_accounts (multi : option Multi.State) (a : Assigner.State)
  (accounts : nat) :
  reported FewActiveAccounts (getHealthStatus multi (Some a) accounts) =
  below_half (Z.of_nat (length (Assigner.activeAccounts a)))
    (Z.of_nat accounts).
Proof.
  unfold reported, getHealthStatus.
  destruct (below_half _ (Z.of_nat accounts));
    destruct multi as [m|]; cases; reflexivity.
Qed.

(** X27.  The health status counts an account in the error status as
    active: [activeAccounts] of [getStatus] is the size of the pool, which
    no step of the dispatcher but [cleanup] changes.  As long as the pool
    has not been cleaned up, "too few active accounts" is reported after
    a run exactly when it was reported right after the initialization. *)
Theorem health_counts_failed_accounts_as_active (multi : option Multi.State)
  (cfg : Assigner.Settings) (ops : list Assigner.Op)
  (sessions : list (string * Assigner.Session)) (accounts : nat) :
  let st0 := Assigner.initialized sessions in
  let st := fst (Assigner.run cfg ops st0) in
  Assigner.activeAccounts st <> [] ->
  reported FewActiveAccounts (getHealthStatus multi (Some st) accounts) =
  reported FewActiveAccounts (getHealthStatus multi (Some st0) accounts).
Proof.
  intros st0 st Hne. rewrite !reported_accounts.
  destruct (AssignerFacts.run_evolves cfg ops st0) as [He | Hf];
    [contradiction|].
  fold st in Hf. now rewrite (Forall2_length Hf).
Qed.

Lemma health_counts_failed_accounts_as_active_witness :
  reported FewActiveAccounts
    (getHealthStatus None
       (Some (fst (Assigner.run Assigner.defaults Assigner.five_failures
                     (Assigner.initialized [("A", Assigner.SessionOk)]))))
       1) =
  reported FewActiveAccounts
    (getHealthStatus None
       (Some (Assigner.initialized [("A", Assigner.SessionOk)])) 1).
Proof.
  apply (health_counts_failed_accounts_as_active None Assigner.defaults
           Assigner.five_failures [("A", Assigner.SessionOk)] 1).
  vm_compute. discriminate.
Defined.

(** X28.  Right after [initializeMultiGroupListener] the system is not
    healthy.  When the method creates an aggregator, for groups with ids
    of their own, that aggregator has started no group: whatever the state
    of the accounts, [getHealthStatus] reports "too few active groups",
    the score is at most 75 and the status is not "healthy". *)
Theorem system_is_not_healthy_after_start
  (groupMonitorAccounts : option (list Multi.GroupConfig))
  (groupNotificationAccount : option Multi.GroupConfig) (now : Z)
  (settled : list (Multi.GroupConfig * Wired.World))
  (m : Multi.State) (evs : list Aggregator.Event)
  (assigner : option Assigner.State) (accounts : nat) :
  Aggregator.plain_ids settled ->
  initializeMultiGroupListener groupMonitorAccounts groupNotificationAccount
    now settled = Some (m, evs) ->
  let h := getHealthStatus (Some m) assigner accounts in
  reported FewActiveGroups h = true /\ score h <= 75 /\
  overall h <> Healthy /\ Multi.groupListeners m = [].
Proof.
  intros Hp. unfold initializeMultiGroupListener.
  set (groupConfigs :=
         match match groupMonitorAccounts with Some l => l | None => [] end,
               groupNotificationAccount with
         | [], Some g => [g]
         | _, _ => match groupMonitorAccounts with Some l => l | None => [] end
         end).
  destruct (Nat.eqb_spec (length groupConfigs) 0) as [|Hn]; [discriminate|].
  destruct (length (filter Multi.enabled groupConfigs) =? 0)%nat;
    [discriminate|].
  intros E. injection E as E.
  destruct (AggregatorFacts.start_new_counts now settled groupConfigs Hp)
    as (H1 & H2 & H3).
  destruct (AggregatorFacts.initialize_all_missing settled
              (Multi.mkState groupConfigs [] true
                 (Multi.mkStats (Z.of_nat (length groupConfigs)) 0 0 0 []
                    (Some now))) Hp (fun x _ => eq_refl)) as (L & _).
  assert (Hl : Multi.groupListeners m = []).
  { replace m with (fst (Aggregator.start now settled
                           (Multi.new groupConfigs))) by now rewrite E.
    unfold Aggregator.start. simpl.
    destruct (Aggregator.initialize_all settled _) as [st2 evs2].
    simpl in *. exact L. }
  rewrite E in H1, H2, H3. simpl in H1, H2, H3.
  unfold reported, getHealthStatus.
  rewrite H1, H2, H3.
  assert (Hb : below_half 0 (Z.of_nat (length groupConfigs)) = true).
  { unfold below_half.
    destruct (Z.ltb_spec 0 (Z.of_nat (length groupConfigs))); lia. }
  rewrite Hb. simpl negb.
  destruct assigner as [a|]; cases; simpl;
    repeat split; try lia; try discriminate; exact Hl.
Qed.

Lemma system_is_not_healthy_after_start_witness :
  let m := fst (Aggregator.start 5 [(Multi.g1, Wired.first_world)]
                  (Multi.new [Multi.g1])) in
  let h := getHealthStatus (Some m) None 1 in
  reported FewActiveGroups h = true /\ score h <= 75 /\
  overall h <> Healthy /\ Multi.groupListeners m = [].
Proof.
  apply (system_is_not_healthy_after_start (Some [Multi.g1]) None 5
           [(Multi.g1, Wired.first_world)]
           (fst (Aggregator.start 5 [(Multi.g1, Wired.first_world)]
                   (Multi.new [Multi.g1])))
           (snd (Aggregator.start 5 [(Multi.g1, Wired.first_world)]
                   (Multi.new [Multi.g1]))) None 1).
  - split; repeat constructor; simpl; tauto.
  - unfold initializeMultiGroupListener. cbn -[Aggregator.start].
    now rewrite <- surjective_pairing.
Defined.

End HealthSpec.

(* ================================================================= *)
(** * OpenAIClient: the reply that is posted *)

Module ReplyFacts.
Import Reply.

Local Open Scope Z_scope.

Lemma truncate_loop_spec (limit : Z) (chars truncated : Text) :
  truncate_loop limit chars truncated =
  truncated ++
  firstn (Z.to_nat (limit - 4 - Z.of_nat (length truncated))) chars.
Proof.
  revert truncated. induction chars as [|c chars IH]; intros truncated; simpl.
  - now rewrite firstn_nil, app_nil_r.
  - unfold getCharacterCount. rewrite length_app. simpl.
    destruct (Z.ltb_spec (Z.of_nat (length truncated + 1)) (limit - 3))
      as [Hlt|Hge].
    + rewrite IH, length_app. simpl.
      replace (Z.to_nat (limit - 4 - Z.of_nat (length truncated)))
        with (S (Z.to_nat (limit - 4 - Z.of_nat (length truncated + 1))))
        by lia.
      simpl. now rewrite <- app_assoc.
    + replace (Z.to_nat (limit - 4 - Z.of_nat (length truncated)))
        with 0%nat by lia.
      simpl. now rewrite app_nil_r.
Qed.

Lemma truncateToLimit_long (text : Text) (limit : Z) :
  limit < getCharacterCount text ->
  truncateToLimit text limit = firstn (Z.to_nat (limit - 4)) text ++ dots.
Proof.
  intros H. unfold truncateToLimit.
  destruct (Z.leb_spec (getCharacterCount text) limit); [lia|].
  rewrite truncate_loop_spec. simpl. now rewrite Z.sub_0_r.
Qed.

Lemma truncateToLimit_count (text : Text) (limit : Z) :
  limit < getCharacterCount text -> 3 <= limit ->
  getCharacterCount (truncateToLimit text limit) = Z.max 3 (limit - 1).
Proof.
  intros H H3. rewrite truncateToLimit_long by exact H.
  unfold getCharacterCount in *. rewrite length_app, length_firstn. simpl.
  lia.
Qed.

Lemma collapse_spaced (in_run : bool) (text : Text) :
  spaced (collapse in_run text).
Proof.
  revert in_run. induction text as [|c text IH]; intros in_run; simpl.
  - constructor.
  - destruct (is_space c) eqn:E.
    + destruct in_run; [apply IH|]. constructor; [reflexivity | apply IH].
    + constructor; [congruence | apply IH].
Qed.

Lemma trimStart_suffix (text : Text) :
  exists dropped, text = dropped ++ trimStart text.
Proof.
  induction text as [|c text [d IH]]; simpl.
  - now exists [].
  - destruct (is_space c).
    + exists (c :: d). simpl. now rewrite <- IH.
    + now exists [].
Qed.

Lemma trimStart_keeps (P : N -> Prop) (text : Text) :
  Forall P text -> Forall P (trimStart text) /\
  (length (trimStart text) <= length text)%nat.
Proof.
  intros H. destruct (trimStart_suffix text) as [d E].
  rewrite E in H at 1. apply Forall_app in H. split; [tauto|].
  rewrite E at 2. rewrite length_app. lia.
Qed.

Lemma trim_keeps (P : N -> Prop) (text : Text) :
  Forall P text -> Forall P (trim text) /\
  (length (trim text) <= length text)%nat.
Proof.
  intros H. unfold trim.
  destruct (trimStart_keeps P text H) as [H1 L1].
  apply Forall_rev in H1.
  destruct (trimStart_keeps P _ H1) as [H2 L2].
  split; [now apply Forall_rev|].
  rewrite length_rev in *. lia.
Qed.

Lemma removelast_keeps (P : N -> Prop) (text : Text) :
  Forall P text -> Forall P (removelast text) /\
  (length (removelast text) <= length text)%nat.
Proof.
  induction 1 as [|c text Hc H IH]; simpl; [split; [constructor | lia]|].
  destruct text as [|c' text]; [split; [constructor | simpl; lia]|].
  destruct IH as [I1 I2]. split; [now constructor | simpl in *; lia].
Qed.

Lemma unquote_keeps (P : N -> Prop) (text : Text) :
  Forall P text -> Forall P (unquote text) /\
  (length (unquote text) <= length text)%nat.
Proof.
  intros H. unfold unquote. destruct text as [|c text]; [auto|].
  destruct ((c =? quote)%N && (last (c :: text) 0%N =? quote)%N);
    [|auto].
  inversion H as [|? ? Hc Ht]; subst.
  destruct (removelast_keeps P text Ht) as [R1 R2]. simpl tl.
  split; [exact R1 | simpl; lia].
Qed.

Lemma strip_keeps (P : N -> Prop) (text : Text) (skip : nat) :
  Forall P text -> Forall P (strip skip text) /\
  (length (strip skip text) <= length text)%nat.
Proof.
  intros H. revert skip.
  induction H as [|c text Hc H IH]; intros skip; [simpl; auto|].
  cbn [strip].
  destruct skip as [|k].
  - destruct (starts_with_ci marker_zh (c :: text));
      [destruct (IH 3%nat); split; [assumption | simpl; lia]|].
    destruct (starts_with_ci marker_en (c :: text));
      [destruct (IH 6%nat); split; [assumption | simpl; lia]|].
    destruct (IH 0%nat). split; [now constructor | simpl; lia].
  - destruct (IH k). split; [assumption | simpl; lia].
Qed.

Lemma truncateToLimit_keeps (text : Text) :
  spaced text -> spaced (truncateToLimit text 280).
Proof.
  intros H. unfold truncateToLimit.
  destruct (getCharacterCount text <=? 280); [exact H|].
  rewrite truncate_loop_spec. simpl. apply Forall_app. split.
  - rewrite <- (firstn_skipn (Z.to_nat (280 - 4 - Z.of_nat 0)) text) in H.
    apply Forall_app in H. tauto.
  - repeat constructor; discriminate.
Qed.

Lemma collapse_plain (text : Text) :
  forallb plain text = true -> collapse false text = text.
Proof.
  induction text as [|c text IH]; simpl; [reflexivity|].
  intros H. apply andb_true_iff in H. destruct H as [Hc H].
  unfold plain in Hc. apply andb_true_iff in Hc. destruct Hc as [Hc _].
  apply andb_true_iff in Hc. destruct Hc as [Hc _].
  apply negb_true_iff in Hc. now rewrite Hc, IH.
Qed.

Lemma plain_parts (c : N) :
  plain c = true ->
  is_space c = false /\ (c =? quote)%N = false /\ (c =? 91)%N = false.
Proof.
  unfold plain. intros H.
  apply andb_true_iff in H. destruct H as [H H3].
  apply andb_true_iff in H. destruct H as [H1 H2].
  now rewrite !negb_true_iff in *.
Qed.

Lemma trimStart_plain (text : Text) :
  forallb plain text = true -> trimStart text = text.
Proof.
  destruct text as [|c text]; simpl; [reflexivity|].
  intros H. apply andb_true_iff in H. destruct H as [Hc _].
  apply plain_parts in Hc. destruct Hc as [Hc _]. now rewrite Hc.
Qed.

Lemma trim_plain (text : Text) :
  forallb plain text = true -> trim text = text.
Proof.
  intros H. unfold trim. rewrite (trimStart_plain text H).
  rewrite trimStart_plain; [apply rev_involutive|].
  apply forallb_forall. intros c Hc. apply in_rev in Hc.
  revert c Hc. now apply forallb_forall.
Qed.

Lemma unquote_plain (text : Text) :
  forallb plain text = true -> unquote text = text.
Proof.
  destruct text as [|c text]; [reflexivity|].
  intros H. simpl in H. apply andb_true_iff in H. destruct H as [Hc _].
  apply plain_parts in Hc. destruct Hc as (_ & Hc & _).
  unfold unquote. now rewrite Hc.
Qed.

Lemma strip_plain (text : Text) :
  forallb plain text = true -> strip 0 text = text.
Proof.
  induction text as [|c text IH]; [reflexivity|].
  intros H. simpl in H. apply andb_true_iff in H. destruct H as [Hc H].
  apply plain_parts in Hc. destruct Hc as (_ & _ & Hc).
  assert (U : (upper 91 =? upper c)%N = false).
  { change (upper 91) with 91%N. unfold upper.
    destruct ((97 <=? c)%N && (c <=? 122)%N) eqn:E.
    - apply andb_true_iff in E. destruct E as [E1 E2].
      apply N.leb_le in E1, E2. apply N.eqb_neq. lia.
    - apply N.eqb_neq. apply N.eqb_neq in Hc. congruence. }
  cbn [strip]. unfold marker_zh, marker_en. cbn [starts_with_ci].
  rewrite U. simpl. now rewrite IH.
Qed.

End ReplyFacts.

Module ReplySpec.
Import Reply ReplyFacts.

Local Open Scope Z_scope.

(** X29.  For a limit of at least 3, [truncateToLimit] returns a text of
    no more code points than the limit, which a second call leaves as it
    is.  A text within the limit is returned unchanged; a longer one is
    cut to its first [limit - 4] code points, followed by three full
    stops, which makes it one code point shorter than the limit allows. *)
Theorem truncation_fits_the_limit (text : Text) (limit : Z) :
  3 <= limit ->
  let t := truncateToLimit text limit in
  getCharacterCount t <= limit /\
  truncateToLimit t limit = t /\
  (getCharacterCount text <= limit -> t = text) /\
  (limit < getCharacterCount text ->
   t = firstn (Z.to_nat (limit - 4)) text ++ dots /\
   getCharacterCount t = Z.max 3 (limit - 1)).
Proof.
  intros H3.
  assert (Hfit : getCharacterCount (truncateToLimit text limit) <= limit).
  { destruct (Z.leb_spec (getCharacterCount text) limit) as [Hle|Hgt].
    - unfold truncateToLimit.
      destruct (Z.leb_spec (getCharacterCount text) limit); [exact Hle | lia].
    - rewrite truncateToLimit_count by assumption. lia. }
  cbv zeta. split; [exact Hfit|]. split; [|split].
  - unfold truncateToLimit at 1.
    destruct (Z.leb_spec (getCharacterCount (truncateToLimit text limit))
                limit); [reflexivity | lia].
  - intros Hle. unfold truncateToLimit.
    destruct (Z.leb_spec (getCharacterCount text) limit); [reflexivity | lia].
  - intros Hgt. split; [now apply truncateToLimit_long|].
    now apply truncateToLimit_count.
Qed.

Lemma truncation_fits_the_limit_witness :
  getCharacterCount (truncateToLimit long_text 280) = Z.max 3 (280 - 1).
Proof.
  apply (truncation_fits_the_limit long_text 280).
  - lia.
  - reflexivity.
Defined.

(** X30.  The reply that [generateReply] returns fits a tweet: whatever
    the completion holds, [sanitizeReply] returns at most 280 code points,
    and the only white space in it is the plain space.  A text of at most
    280 code points without white space, quotation mark and opening
    bracket is returned as it is.  [generateReply] reports success with
    such a reply, or failure without reply. *)
Theorem generated_reply_fits_a_tweet (text : Text) (c : Completion) :
  getCharacterCount (sanitizeReply text) <= 280 /\
  spaced (sanitizeReply text) /\
  (forallb plain text = true -> getCharacterCount text <= 280 ->
   sanitizeReply text = text) /\
  match reply (generateReply c) with
  | Some r =>
      success (generateReply c) = true /\ getCharacterCount r <= 280 /\
      spaced r
  | None => success (generateReply c) = false
  end.
Proof.
  assert (S : forall t,
    getCharacterCount (sanitizeReply t) <= 280 /\ spaced (sanitizeReply t)).
  { intros t. unfold sanitizeReply.
    pose proof (collapse_spaced false t) as H0.
    destruct (trim_keeps _ _ H0) as [H1 _].
    destruct (unquote_keeps _ _ H1) as [H2 _].
    destruct (unquote_keeps _ _ H2) as [H3 _].
    set (u := unquote (unquote (trim (collapse false t)))) in *.
    assert (H4 : spaced (if 280 <? getCharacterCount u
                         then truncateToLimit u 280 else u) /\
                 getCharacterCount (if 280 <? getCharacterCount u
                                    then truncateToLimit u 280 else u)
                 <= 280).
    { destruct (Z.ltb_spec 280 (getCharacterCount u)) as [Hgt|Hle].
      - split; [now apply truncateToLimit_keeps|].
        rewrite truncateToLimit_count by (assumption || lia). lia.
      - auto. }
    destruct H4 as [H4 L4].
    destruct (strip_keeps _ _ 0%nat H4) as [H5 L5].
    split; [|exact H5]. unfold getCharacterCount in *. lia. }
  split; [apply S|]. split; [apply S|]. split.
  - intros Hp Hle. unfold sanitizeReply.
    rewrite (collapse_plain text Hp), (trim_plain text Hp),
      !(unquote_plain text Hp).
    destruct (Z.ltb_spec 280 (getCharacterCount text)); [lia|].
    now apply strip_plain.
  - destruct c as [content total_tokens|message]; simpl; [|reflexivity].
    split; [reflexivity | apply S].
Qed.

End ReplySpec.
